(** * SchoolAnnouncements: the TTL cache of [js/cache.js]

    A shallow embedding of the [CacheManager] class and of the parts of
    the host it runs on: JavaScript values and numeric coercions,
    [JSON.stringify] and [JSON.parse], the [localStorage] substrate with
    its faults, the console and the clock.

    Modelling conventions.
    - Strings are byte strings, the UTF-8 form of the text; a JSON
      unicode escape above 0x7F expands to its UTF-8 bytes.  The length
      of a string is counted in UTF-16 code units, as the code does.
    - A finite number is a decimal [Dec m d], the text [m / 10^d] of a
      number.  Subtraction and comparison take a number with a fraction
      for the binary64 value nearest to it and round their result; an
      integer stands for itself.  Times are integer milliseconds,
      [Int z].
    - An object is its list of own properties in insertion order; the
      reordering of integer-like keys is not modelled.
    - [Date.now()] is the argument [now] of each operation.
    - Every access to [localStorage] consults a fault oracle kept in the
      world: the next bit says whether the access throws.  An access
      that throws leaves the stored items as they were. *)

From Stdlib Require Import ZArith NArith List Ascii String Bool Lia.
From stdpp Require Import gmap strings list fin_maps.

Local Open Scope Z_scope.

(* ================================================================== *)
(** * Characters *)

Definition dquote : ascii := "034"%char.
Definition backslash : ascii := "092"%char.

Definition is_digit (c : ascii) : bool :=
  ((48 <=? N_of_ascii c) && (N_of_ascii c <=? 57))%N.

Definition digit_of (c : ascii) : N := (N_of_ascii c - 48)%N.

Definition digit_char (n : N) : ascii := ascii_of_N (48 + n).

(** JSON text is written below with apostrophes, which [q] turns into
    double quotes. *)
Fixpoint q (s : string) : string :=
  match s with
  | EmptyString => EmptyString
  | String c r => String (if Ascii.eqb c "'" then dquote else c) (q r)
  end.

(* ================================================================== *)
(** * Numbers *)

Inductive number : Type :=
| NaN
| PInf
| NInf
| Dec (m : Z) (d : nat).

Definition Int (z : Z) : number := Dec z 0.

(** The canonical form of [m / 10^d]: no trailing zero in the fraction. *)
Fixpoint norm (m : Z) (d : nat) : number :=
  match d with
  | O => Dec m 0
  | S d' => if m mod 10 =? 0 then norm (m / 10) d' else Dec m d
  end.

Definition normal (n : number) : bool :=
  match n with
  | Dec _ O => true
  | Dec m (S _) => negb (m mod 10 =? 0)
  | _ => false
  end.

(** ** binary64

    [nearest p q], for positive [p] and [q], is the binary64 value
    nearest to [p / q], the one with the even significand on a tie: a
    significand [k] below [2^53] and an exponent [e] from -1074 on, with
    [k >= 2^52] unless [e] is -1074; what does not fit below [2^1024] is
    infinite.  The value [k * 2^e] is again an exact decimal. *)
Definition round_half_even (num den : Z) : Z :=
  let k := num / den in
  let r := num mod den in
  if 2 * r <? den then k
  else if den <? 2 * r then k + 1
  else if Z.even k then k else k + 1.

(** [p / (q * 2^e)] as a fraction of integers. *)
Definition scaled (p q e : Z) : Z * Z :=
  if 0 <=? e then (p, q * 2 ^ e) else (p * 2 ^ (- e), q).

Definition nearest (p q : Z) : number :=
  let f := Z.log2 p - Z.log2 q in
  let '(n, d) := scaled p q f in
  let e := Z.max ((if n <? d then f - 1 else f) - 52) (-1074) in
  let '(n, d) := scaled p q e in
  let k := round_half_even n d in
  if 0 <=? e then
    if 2 ^ 1024 <=? k * 2 ^ e then PInf else Dec (k * 2 ^ e) 0
  else norm (k * 5 ^ (- e)) (Z.to_nat (- e)).

Definition negate (n : number) : number :=
  match n with
  | NaN => NaN
  | PInf => NInf
  | NInf => PInf
  | Dec m d => Dec (- m) d
  end.

(** The value a number has in the code.  A number written with a
    fraction stands for the binary64 value nearest to it, which is what
    [JSON.parse] and the conversion of a string make of its text.  An
    integer stands for itself: the times and durations of the cache are
    integers below [2^53], which binary64 holds exactly. *)
Definition b64 (n : number) : number :=
  match n with
  | Dec m (S d) =>
      if m =? 0 then Dec 0 0
      else if m <? 0 then negate (nearest (- m) (10 ^ Z.of_nat (S d)))
      else nearest m (10 ^ Z.of_nat (S d))
  | _ => n
  end.

(** The exact difference and the exact comparison of two values. *)
Definition dec_sub (a b : number) : number :=
  match a, b with
  | NaN, _ | _, NaN => NaN
  | PInf, PInf | NInf, NInf => NaN
  | PInf, _ => PInf
  | NInf, _ => NInf
  | Dec _ _, PInf => NInf
  | Dec _ _, NInf => PInf
  | Dec m1 d1, Dec m2 d2 =>
      norm (m1 * 10 ^ Z.of_nat d2 - m2 * 10 ^ Z.of_nat d1) (d1 + d2)
  end.

Definition dec_lt (a b : number) : bool :=
  match a, b with
  | NaN, _ | _, NaN => false
  | NInf, NInf => false
  | NInf, _ => true
  | _, NInf => false
  | PInf, _ => false
  | Dec _ _, PInf => true
  | Dec m1 d1, Dec m2 d2 => m1 * 10 ^ Z.of_nat d2 <? m2 * 10 ^ Z.of_nat d1
  end.

(** [a - b]: the difference of the two binary64 values, rounded. *)
Definition num_sub (a b : number) : number := b64 (dec_sub (b64 a) (b64 b)).

(** [num_lt a b] is the outcome of the numeric comparison [a < b]; a
    comparison with [NaN] is undefined, which every relational operator
    turns into [false]. *)
Definition num_lt (a b : number) : bool := dec_lt (b64 a) (b64 b).

(** Decimal digits of a natural number, most significant first. *)
Fixpoint N_digits_aux (fuel : nat) (n : N) (acc : string) : string :=
  let acc' := String (digit_char (n mod 10)) acc in
  match fuel with
  | O => acc'
  | S f => if (n / 10 =? 0)%N then acc' else N_digits_aux f (n / 10) acc'
  end.

Definition N_digits (n : N) : string :=
  N_digits_aux (N.to_nat (N.log2 n)) n "".

(** The [d] lowest decimal digits of [n]. *)
Fixpoint frac_digits (d : nat) (n : N) (acc : string) : string :=
  match d with
  | O => acc
  | S d' => frac_digits d' (n / 10) (String (digit_char (n mod 10)) acc)
  end.

Definition dec_text (m : Z) (d : nat) : string :=
  let a := Z.abs_N m in
  let p := (10 ^ N.of_nat d)%N in
  (if m <? 0 then "-" else "") +:+
  N_digits (a / p) +:+
  match d with
  | O => ""
  | S _ => String "." (frac_digits d (a mod p) "")
  end.

(** [Number::toString], positional notation throughout. *)
Definition number_to_string (n : number) : string :=
  match n with
  | NaN => "NaN"
  | PInf => "Infinity"
  | NInf => "-Infinity"
  | Dec m d => dec_text m d
  end.

(* ================================================================== *)
(** * Values *)

#[local] Unset Elimination Schemes.
Inductive value : Type :=
| VUndefined
| VNull
| VBool (b : bool)
| VNum (n : number)
| VBigInt (z : Z)
| VStr (s : string)
| VArr (l : list value)
| VObj (l : list (string * value)).
#[local] Set Elimination Schemes.

Inductive error : Type :=
| SyntaxError
| TypeError
| DOMException.

(** How an evaluation ends: with a value, or with a thrown error. *)
Inductive outcome (A : Type) : Type :=
| Normal (a : A)
| Throw (e : error).
Arguments Normal {A} a.
Arguments Throw {A} e.

Fixpoint assoc {A : Type} (k : string) (l : list (string * A)) : option A :=
  match l with
  | [] => None
  | (k', v) :: r => if String.eqb k k' then Some v else assoc k r
  end.

(** [CreateDataProperty]: an existing key keeps its place and takes the
    new value, a new key goes last. *)
Fixpoint obj_set {A : Type} (k : string) (v : A) (l : list (string * A))
  : list (string * A) :=
  match l with
  | [] => [(k, v)]
  | (k', v') :: r =>
      if String.eqb k k' then (k', v) :: r else (k', v') :: obj_set k v r
  end.

(** Property read [v.p] for the fields the cache reads ([data],
    [timestamp], [ttl]), none of which any built-in prototype defines:
    reading from [null] or [undefined] throws, a missing property reads
    as [undefined]. *)
Definition get_prop (v : value) (p : string) : outcome value :=
  match v with
  | VUndefined | VNull => Throw TypeError
  | VObj l => Normal (default VUndefined (assoc p l))
  | _ => Normal VUndefined
  end.

(** The values [JSON.parse] can produce and [JSON.stringify] renders
    without loss. *)
Fixpoint json_value (v : value) : bool :=
  match v with
  | VUndefined | VBigInt _ => false
  | VNull | VBool _ | VStr _ => true
  | VNum n => normal n
  | VArr l => forallb json_value l
  | VObj l =>
      forallb (fun kv => json_value (snd kv)) l &&
      bool_decide (NoDup (map fst l))
  end.

(* ================================================================== *)
(** * JSON.stringify *)

Definition hex_char (n : N) : ascii :=
  if (n <? 10)%N then ascii_of_N (48 + n) else ascii_of_N (87 + n).

(** [QuoteJSONString], one character at a time. *)
Definition quote_char (c : ascii) : string :=
  let n := N_of_ascii c in
  if Ascii.eqb c dquote then String backslash (String dquote "")
  else if Ascii.eqb c backslash then String backslash (String backslash "")
  else if (n =? 8)%N then String backslash "b"
  else if (n =? 9)%N then String backslash "t"
  else if (n =? 10)%N then String backslash "n"
  else if (n =? 12)%N then String backslash "f"
  else if (n =? 13)%N then String backslash "r"
  else if (n <? 32)%N then
    String backslash
      ("u00" +:+ String (hex_char (n / 16)) (String (hex_char (n mod 16)) ""))
  else String c "".

Fixpoint quote_body (s : string) : string :=
  match s with
  | EmptyString => String dquote ""
  | String c r => quote_char c +:+ quote_body r
  end.

Definition quote (s : string) : string := String dquote (quote_body s).

(** A non-finite number is rendered as [null]. *)
Definition ser_number (n : number) : string :=
  match n with
  | Dec m d => dec_text m d
  | _ => "null"
  end.

Fixpoint sequence {A : Type} (l : list (outcome A)) : outcome (list A) :=
  match l with
  | [] => Normal []
  | Throw e :: _ => Throw e
  | Normal a :: r =>
      match sequence r with
      | Normal r' => Normal (a :: r')
      | Throw e => Throw e
      end
  end.

(** The comma-separated items of an array or object, closing bracket
    included. *)
Fixpoint items_text (close : ascii) (ts : list string) : string :=
  match ts with
  | [] => String close ""
  | [t] => t +:+ String close ""
  | t :: r => t +:+ String "," (items_text close r)
  end.

Definition member_text (kt : string * option string) : option string :=
  match snd kt with
  | Some t => Some (quote (fst kt) +:+ String ":" t)
  | None => None
  end.

(** [SerializeJSONProperty] without replacer, indentation or [toJSON]:
    [None] is the [undefined] result.  An [undefined] array element is
    rendered as [null], an [undefined] member is left out, and a BigInt
    anywhere throws. *)
Fixpoint ser (v : value) : outcome (option string) :=
  match v with
  | VUndefined => Normal None
  | VNull => Normal (Some "null")
  | VBool true => Normal (Some "true")
  | VBool false => Normal (Some "false")
  | VNum n => Normal (Some (ser_number n))
  | VBigInt _ => Throw TypeError
  | VStr s => Normal (Some (quote s))
  | VArr l =>
      match sequence (map ser l) with
      | Normal os =>
          Normal (Some (String "[" (items_text "]" (map (default "null") os))))
      | Throw e => Throw e
      end
  | VObj l =>
      match sequence (map (fun kv => ser (snd kv)) l) with
      | Normal os =>
          Normal (Some (String "{"
            (items_text "}" (omap member_text (zip (map fst l) os)))))
      | Throw e => Throw e
      end
  end.

(* ================================================================== *)
(** * JSON.parse *)

Definition is_ws (c : ascii) : bool :=
  let n := N_of_ascii c in
  ((n =? 32) || (n =? 9) || (n =? 10) || (n =? 13))%N.

Fixpoint skip_ws (s : string) : string :=
  match s with
  | EmptyString => EmptyString
  | String c r => if is_ws c then skip_ws r else s
  end.

(** [eat c s] is what follows [c] when [s] starts with it. *)
Definition eat (c : ascii) (s : string) : option string :=
  match s with
  | String c' r => if Ascii.eqb c' c then Some r else None
  | EmptyString => None
  end.

(** The longest prefix of digits, and what follows it. *)
Fixpoint scan_digits (s : string) : string * string :=
  match s with
  | EmptyString => (EmptyString, EmptyString)
  | String c r =>
      if is_digit c then
        let (ds, rest) := scan_digits r in (String c ds, rest)
      else (EmptyString, s)
  end.

Fixpoint digits_val (acc : N) (ds : string) : N :=
  match ds with
  | EmptyString => acc
  | String c r => digits_val (acc * 10 + digit_of c) r
  end.

(** The number written [ip.fp] times ten to the [e], negated if [neg]. *)
Definition make_number (neg : bool) (ip fp : string) (e : Z) : number :=
  let a := Z.of_N (digits_val 0 (ip +:+ fp)) in
  let m := if neg then - a else a in
  let d := String.length fp in
  if 0 <=? e then norm (m * 10 ^ e) d else norm m (d + Z.to_nat (- e)).

(** An optional exponent part: [None] when it is malformed. *)
Definition scan_exponent (s : string) : option (Z * string) :=
  match s with
  | String c r =>
      if Ascii.eqb c "e" || Ascii.eqb c "E" then
        let '(neg, r1) :=
          match eat "+" r, eat "-" r with
          | Some r', _ => (false, r')
          | None, Some r' => (true, r')
          | None, None => (false, r)
          end in
        let (ds, rest) := scan_digits r1 in
        match ds with
        | EmptyString => None
        | _ =>
            let x := Z.of_N (digits_val 0 ds) in
            Some (if neg then - x else x, rest)
        end
      else Some (0, s)
  | EmptyString => Some (0, s)
  end.

(** An optional fraction part: [None] when the point has no digit. *)
Definition scan_fraction (s : string) : option (string * string) :=
  match eat "." s with
  | Some r =>
      let (fp, rest) := scan_digits r in
      match fp with
      | EmptyString => None
      | _ => Some (fp, rest)
      end
  | None => Some (EmptyString, s)
  end.

Definition leading_zero (ds : string) : bool :=
  match ds with
  | String c (String _ _) => Ascii.eqb c "0"
  | _ => false
  end.

(** The JSON number grammar: no leading zero, no bare point. *)
Definition parse_number (s : string) : option (number * string) :=
  let '(neg, s1) :=
    match eat "-" s with
    | Some r => (true, r)
    | None => (false, s)
    end in
  let (ip, s2) := scan_digits s1 in
  match ip with
  | EmptyString => None
  | _ =>
      if leading_zero ip then None
      else
        '(fp, s3) ← scan_fraction s2;
        '(e, s4) ← scan_exponent s3;
        Some (make_number neg ip fp e, s4)
  end.

Definition hex_val (c : ascii) : option N :=
  let n := N_of_ascii c in
  if ((48 <=? n) && (n <=? 57))%N then Some (n - 48)%N
  else if ((97 <=? n) && (n <=? 102))%N then Some (n - 87)%N
  else if ((65 <=? n) && (n <=? 70))%N then Some (n - 55)%N
  else None.

Definition hex4 (a b c d : ascii) : option N :=
  x1 ← hex_val a; x2 ← hex_val b; x3 ← hex_val c; x4 ← hex_val d;
  Some (((x1 * 16 + x2) * 16 + x3) * 16 + x4)%N.

(** The UTF-8 bytes of a code unit. *)
Definition utf8 (n : N) (r : string) : string :=
  if (n <? 128)%N then String (ascii_of_N n) r
  else if (n <? 2048)%N then
    String (ascii_of_N (192 + n / 64)) (String (ascii_of_N (128 + n mod 64)) r)
  else
    String (ascii_of_N (224 + n / 4096))
      (String (ascii_of_N (128 + (n / 64) mod 64))
         (String (ascii_of_N (128 + n mod 64)) r)).

Definition unescape (c : ascii) : option ascii :=
  if Ascii.eqb c dquote then Some dquote
  else if Ascii.eqb c backslash then Some backslash
  else if Ascii.eqb c "/" then Some "/"%char
  else if Ascii.eqb c "b" then Some "008"%char
  else if Ascii.eqb c "f" then Some "012"%char
  else if Ascii.eqb c "n" then Some "010"%char
  else if Ascii.eqb c "r" then Some "013"%char
  else if Ascii.eqb c "t" then Some "009"%char
  else None.

(** The characters of a string literal after its opening quote, up to
    and including the closing one. *)
Fixpoint parse_chars (s : string) : option (string * string) :=
  match s with
  | EmptyString => None
  | String c r =>
      if Ascii.eqb c dquote then Some (EmptyString, r)
      else if Ascii.eqb c backslash then
        match r with
        | String e r' =>
            if Ascii.eqb e "u" then
              match r' with
              | String h1 (String h2 (String h3 (String h4 r''))) =>
                  n ← hex4 h1 h2 h3 h4;
                  '(t, rest) ← parse_chars r'';
                  Some (utf8 n t, rest)
              | _ => None
              end
            else
              c' ← unescape e;
              '(t, rest) ← parse_chars r';
              Some (String c' t, rest)
        | EmptyString => None
        end
      else if (N_of_ascii c <? 32)%N then None
      else
        '(t, rest) ← parse_chars r;
        Some (String c t, rest)
  end.

Fixpoint strip_prefix (p s : string) : option string :=
  match p, s with
  | EmptyString, _ => Some s
  | String a p', String b s' =>
      if Ascii.eqb a b then strip_prefix p' s' else None
  | String _ _, EmptyString => None
  end.

(** Result of a parser that may run out of fuel. *)
Inductive pres (A : Type) : Type :=
| POk (a : A) (rest : string)
| PErr
| PFuel.
Arguments POk {A} a rest.
Arguments PErr {A}.
Arguments PFuel {A}.

(** The elements of a non-empty array after its opening bracket. *)
Fixpoint parse_elems (pv : string → pres value) (fuel : nat) (s : string)
  : pres (list value) :=
  match fuel with
  | O => PFuel
  | S f =>
      match pv s with
      | POk v r =>
          match eat "," (skip_ws r), eat "]" (skip_ws r) with
          | Some r', _ =>
              match parse_elems pv f r' with
              | POk vs r'' => POk (v :: vs) r''
              | e => e
              end
          | None, Some r' => POk [v] r'
          | None, None => PErr
          end
      | PErr => PErr
      | PFuel => PFuel
      end
  end.

(** The members of a non-empty object after its opening brace, in the
    order of the text. *)
Fixpoint parse_members (pv : string → pres value) (fuel : nat) (s : string)
  : pres (list (string * value)) :=
  match fuel with
  | O => PFuel
  | S f =>
      match eat dquote (skip_ws s) with
      | Some r =>
          match parse_chars r with
          | Some (k, r1) =>
              match eat ":" (skip_ws r1) with
              | Some r2 =>
                  match pv r2 with
                  | POk v r3 =>
                      match eat "," (skip_ws r3), eat "}" (skip_ws r3) with
                      | Some r4, _ =>
                          match parse_members pv f r4 with
                          | POk ms r5 => POk ((k, v) :: ms) r5
                          | e => e
                          end
                      | None, Some r4 => POk [(k, v)] r4
                      | None, None => PErr
                      end
                  | PErr => PErr
                  | PFuel => PFuel
                  end
              | None => PErr
              end
          | None => PErr
          end
      | None => PErr
      end
  end.

(** Members enter the object one by one: a repeated key keeps its first
    place and its last value. *)
Definition build_object (ms : list (string * value)) : value :=
  VObj (fold_left (fun o kv => obj_set (fst kv) (snd kv) o) ms []).

Fixpoint parse_value (fuel : nat) (s : string) : pres value :=
  match fuel with
  | O => PFuel
  | S f =>
      match skip_ws s with
      | EmptyString => PErr
      | String c r =>
          if Ascii.eqb c "n" then
            match strip_prefix "ull" r with
            | Some r' => POk VNull r'
            | None => PErr
            end
          else if Ascii.eqb c "t" then
            match strip_prefix "rue" r with
            | Some r' => POk (VBool true) r'
            | None => PErr
            end
          else if Ascii.eqb c "f" then
            match strip_prefix "alse" r with
            | Some r' => POk (VBool false) r'
            | None => PErr
            end
          else if Ascii.eqb c dquote then
            match parse_chars r with
            | Some (t, r') => POk (VStr t) r'
            | None => PErr
            end
          else if Ascii.eqb c "[" then
            match eat "]" (skip_ws r) with
            | Some r' => POk (VArr []) r'
            | None =>
                match parse_elems (parse_value f) f r with
                | POk vs r' => POk (VArr vs) r'
                | PErr => PErr
                | PFuel => PFuel
                end
            end
          else if Ascii.eqb c "{" then
            match eat "}" (skip_ws r) with
            | Some r' => POk (VObj []) r'
            | None =>
                match parse_members (parse_value f) f r with
                | POk ms r' => POk (build_object ms) r'
                | PErr => PErr
                | PFuel => PFuel
                end
            end
          else
            match parse_number (String c r) with
            | Some (n, r') => POk (VNum n) r'
            | None => PErr
            end
      end
  end.

Module JSON.

(** [JSON.stringify(v)]. *)
Definition stringify (v : value) : outcome (option string) := ser v.

(** [JSON.parse(text)]: one value, surrounded by optional white space.
    The fuel exceeds the length of the text, which bounds both the
    nesting depth and the number of items of any container in it. *)
Definition parse (text : string) : outcome value :=
  match parse_value (S (String.length text)) text with
  | POk v rest =>
      match skip_ws rest with
      | EmptyString => Normal v
      | _ => Throw SyntaxError
      end
  | _ => Throw SyntaxError
  end.

End JSON.

(* ================================================================== *)
(** * Coercions and operators *)

Fixpoint join (sep : string) (l : list string) : string :=
  match l with
  | [] => ""
  | [t] => t
  | t :: r => t +:+ sep +:+ join sep r
  end.

(** [ToString].  An array joins its elements.  An object made by
    [JSON.parse] or by a literal has no method of its own: with an own
    property [toString], which hides the inherited method, neither
    [toString] nor [valueOf] gives a primitive and the conversion throws;
    without one it has the default tag. *)
Fixpoint to_string (v : value) : outcome string :=
  match v with
  | VUndefined => Normal "undefined"
  | VNull => Normal "null"
  | VBool true => Normal "true"
  | VBool false => Normal "false"
  | VNum n => Normal (number_to_string n)
  | VBigInt z => Normal (dec_text z 0)
  | VStr s => Normal s
  | VArr l =>
      match
        sequence
          (map (fun e =>
                  match e with
                  | VUndefined | VNull => Normal ""
                  | _ => to_string e
                  end) l)
      with
      | Normal ts => Normal (join "," ts)
      | Throw e => Throw e
      end
  | VObj l =>
      match assoc "toString" l with
      | Some _ => Throw TypeError
      | None => Normal "[object Object]"
      end
  end.

(** The white space and the line terminators that [StringToNumber]
    strips, in UTF-8: the characters 9 to 13 and 32, then U+00A0, then
    U+1680, U+2000 to U+200A, U+2028, U+2029, U+202F, U+205F, U+3000 and
    U+FEFF. *)
Definition is_str_ws (c : ascii) : bool :=
  let n := N_of_ascii c in
  ((9 <=? n) && (n <=? 13) || (n =? 32))%N.

Definition is_str_ws2 (c1 c2 : ascii) : bool :=
  ((N_of_ascii c1 =? 194) && (N_of_ascii c2 =? 160))%N.

Definition is_str_ws3 (c1 c2 c3 : ascii) : bool :=
  let n1 := N_of_ascii c1 in
  let n2 := N_of_ascii c2 in
  let n3 := N_of_ascii c3 in
  ((n1 =? 225) && (n2 =? 154) && (n3 =? 128)
   || (n1 =? 226) && (n2 =? 128) &&
      ((128 <=? n3) && (n3 <=? 138) || (n3 =? 168) || (n3 =? 169) ||
       (n3 =? 175))
   || (n1 =? 226) && (n2 =? 129) && (n3 =? 159)
   || (n1 =? 227) && (n2 =? 128) && (n3 =? 128)
   || (n1 =? 239) && (n2 =? 187) && (n3 =? 191))%N.

Fixpoint trim_start (s : string) : string :=
  match s with
  | EmptyString => EmptyString
  | String c1 r1 =>
      if is_str_ws c1 then trim_start r1
      else
        match r1 with
        | String c2 r2 =>
            if is_str_ws2 c1 c2 then trim_start r2
            else
              match r2 with
              | String c3 r3 =>
                  if is_str_ws3 c1 c2 c3 then trim_start r3 else s
              | EmptyString => s
              end
        | EmptyString => s
        end
  end.

(** A string that is one character of white space. *)
Definition is_ws_char (s : string) : bool :=
  match s with
  | String c1 EmptyString => is_str_ws c1
  | String c1 (String c2 EmptyString) => is_str_ws2 c1 c2
  | String c1 (String c2 (String c3 EmptyString)) => is_str_ws3 c1 c2 c3
  | _ => false
  end.

Fixpoint trim_end (s : string) : string :=
  match s with
  | EmptyString => EmptyString
  | String c r =>
      let t := String c (trim_end r) in
      if is_ws_char t then EmptyString else t
  end.

(** [s.length]: the number of UTF-16 code units of a string.  A
    character of one to three bytes is one unit, one of four bytes is a
    pair of surrogates; the bytes 128 to 191 continue a character. *)
Fixpoint js_length (s : string) : nat :=
  match s with
  | EmptyString => O
  | String c r =>
      let n := N_of_ascii c in
      ((if ((128 <=? n) && (n <? 192))%N then 0
        else if (240 <=? n)%N then 2 else 1)
       + js_length r)%nat
  end.

(** The value of a non-empty run of digits in the given base. *)
Fixpoint radix_val (base acc : N) (s : string) : option N :=
  match s with
  | EmptyString => Some acc
  | String c r =>
      match hex_val c with
      | Some x => if (x <? base)%N then radix_val base (acc * base + x) r
                  else None
      | None => None
      end
  end.

Definition radix_literal (base : N) (s : string) : number :=
  match s with
  | EmptyString => NaN
  | _ =>
      match radix_val base 0 s with
      | Some n => Int (Z.of_N n)
      | None => NaN
      end
  end.

(** [StrDecimalLiteral]: an optional sign, then [Infinity] or digits
    with an optional point and exponent. *)
Definition str_decimal (t : string) : number :=
  let '(neg, u) :=
    match eat "+" t, eat "-" t with
    | Some r, _ => (false, r)
    | None, Some r => (true, r)
    | None, None => (false, t)
    end in
  if String.eqb u "Infinity" then (if neg then NInf else PInf)
  else
    let (ip, s1) := scan_digits u in
    let '(fp, s2) :=
      match eat "." s1 with
      | Some r => scan_digits r
      | None => (EmptyString, s1)
      end in
    match ip, fp with
    | EmptyString, EmptyString => NaN
    | _, _ =>
        match scan_exponent s2 with
        | Some (e, EmptyString) => make_number neg ip fp e
        | _ => NaN
        end
    end.

(** [StringToNumber]. *)
Definition string_to_number (s : string) : number :=
  let t := trim_end (trim_start s) in
  match t, eat "0" t with
  | EmptyString, _ => Int 0
  | _, Some (String c r) =>
      if Ascii.eqb c "x" || Ascii.eqb c "X" then radix_literal 16 r
      else if Ascii.eqb c "o" || Ascii.eqb c "O" then radix_literal 8 r
      else if Ascii.eqb c "b" || Ascii.eqb c "B" then radix_literal 2 r
      else str_decimal t
  | _, _ => str_decimal t
  end.

(** [ToNumber]. *)
Definition to_number (v : value) : outcome number :=
  match v with
  | VUndefined => Normal NaN
  | VNull => Normal (Int 0)
  | VBool true => Normal (Int 1)
  | VBool false => Normal (Int 0)
  | VNum n => Normal n
  | VBigInt _ => Throw TypeError
  | VStr s => Normal (string_to_number s)
  | VArr _ | VObj _ =>
      match to_string v with
      | Normal s => Normal (string_to_number s)
      | Throw e => Throw e
      end
  end.

(** [a - b] with a Number on the left. *)
Definition minus (a : number) (b : value) : outcome number :=
  match to_number b with
  | Normal y => Normal (num_sub a y)
  | Throw e => Throw e
  end.

(** [a > b] with a Number on the left: never a string comparison; a
    BigInt on the right is compared by value. *)
Definition greater (a : number) (b : value) : outcome bool :=
  match b with
  | VBigInt z => Normal (num_lt (Int z) a)
  | _ =>
      match to_number b with
      | Normal y => Normal (num_lt y a)
      | Throw e => Throw e
      end
  end.

(* ================================================================== *)
(** * The world: storage, fault oracle, console *)

Inductive log_line : Type :=
| Log (msg : string)
| Warn (msg : string) (e : error).

Record world : Type := World {
  items : gmap string string;
  faults : list bool;
  console_out : list log_line
}.

(** Computations that read and write the world and may throw. *)
Definition M (A : Type) : Type := world → outcome A * world.

Definition ret {A : Type} (a : A) : M A := fun w => (Normal a, w).

Definition throw {A : Type} (e : error) : M A := fun w => (Throw e, w).

Definition bind {A B : Type} (c : M A) (k : A → M B) : M B :=
  fun w =>
    match c w with
    | (Normal a, w') => k a w'
    | (Throw e, w') => (Throw e, w')
    end.

Notation "x <- c ;; k" := (bind c (fun x => k))
  (at level 100, c at next level, right associativity).
Notation "c ;; k" := (bind c (fun _ => k))
  (at level 100, right associativity).

(** [try { body } catch (error) { handler }]. *)
Definition try_catch {A : Type} (body : M A) (handler : error → M A) : M A :=
  fun w =>
    match body w with
    | (Normal a, w') => (Normal a, w')
    | (Throw e, w') => handler e w'
    end.

Definition lift {A : Type} (o : outcome A) : M A := fun w => (o, w).

Fixpoint for_each {A : Type} (l : list A) (f : A → M unit) : M unit :=
  match l with
  | [] => ret tt
  | a :: r => f a ;; for_each r f
  end.

Fixpoint fold_m {A S : Type} (f : S → A → M S) (l : list A) (s : S) : M S :=
  match l with
  | [] => ret s
  | a :: r => s' <- f s a ;; fold_m f r s'
  end.

(** The world once the oracle has answered for one access. *)
Definition advance (w : world) : world :=
  World (items w) (tail (faults w)) (console_out w).

(** One access to the substrate: the oracle decides whether it throws.
    An exhausted oracle means no further fault. *)
Definition access : M unit :=
  fun w =>
    match faults w with
    | true :: _ => (Throw DOMException, advance w)
    | _ => (Normal tt, advance w)
    end.

(** The next access to the substrate throws. *)
Definition faulting (w : world) : Prop := ∃ fs, faults w = true :: fs.

(** No access to the substrate throws from now on. *)
Definition reliable (w : world) : Prop := Forall (fun b => b = false) (faults w).

Definition update_items (f : gmap string string → gmap string string)
  : M unit :=
  fun w => (Normal tt, World (f (items w)) (faults w) (console_out w)).

Module localStorage.

Definition getItem (key : string) : M (option string) :=
  access ;; fun w => (Normal (items w !! key), w).

Definition setItem (key text : string) : M unit :=
  access ;; update_items (insert key text).

Definition removeItem (key : string) : M unit :=
  access ;; update_items (delete key).

(** [Object.keys(localStorage)]. *)
Definition keys : M (list string) :=
  access ;; fun w => (Normal (map fst (map_to_list (items w))), w).

End localStorage.

Module console.

Definition print (l : log_line) : M unit :=
  fun w => (Normal tt, World (items w) (faults w) (console_out w ++ [l])).

Definition log (msg : string) : M unit := print (Log msg).

Definition warn (msg : string) (e : error) : M unit := print (Warn msg e).

End console.

(* ================================================================== *)
(** * CacheManager *)

Record stats : Type := Stats {
  totalEntries : nat;
  validEntries : nat;
  expiredEntries : nat;
  totalSizeBytes : nat;
  totalSizeKB : string
}.

(** [(x / 1024).toFixed(2)]: the nearest multiple of a hundredth, the
    larger one on a tie. *)
Definition kb_to_fixed (size : nat) : string :=
  let n := ((N.of_nat size * 100 + 512) / 1024)%N in
  N_digits (n / 100) +:+ String "." (frac_digits 2 (n mod 100) "").

Definition cache_key (key : string) : string := "cache_" +:+ key.

Definition is_cache_key (key : string) : bool := String.prefix "cache_" key.

(** The test [now - entry.timestamp > entry.ttl], operands evaluated
    left to right. *)
Definition expired (now : Z) (entry : value) : outcome bool :=
  match get_prop entry "timestamp" with
  | Throw e => Throw e
  | Normal ts =>
      match minus (Int now) ts with
      | Throw e => Throw e
      | Normal age =>
          match get_prop entry "ttl" with
          | Throw e => Throw e
          | Normal ttl => greater age ttl
          end
      end
  end.

(** The object literal [{ data: data, timestamp: Date.now(), ttl: ttl }]. *)
Definition make_entry (now : Z) (data ttl : value) : value :=
  VObj [("data", data); ("timestamp", VNum (Int now)); ("ttl", ttl)].

Module CacheManager.

Definition remove (key : string) : M unit :=
  try_catch
    (localStorage.removeItem (cache_key key))
    (fun error => console.warn "Failed to remove cache entry:" error).

Definition set (now : Z) (key : string) (data ttl : value) : M bool :=
  try_catch
    (let entry := make_entry now data ttl in
     text <- lift (JSON.stringify entry) ;;
     localStorage.setItem (cache_key key) (default "undefined" text) ;;
     ret true)
    (fun error =>
       console.warn "Failed to cache data:" error ;;
       ret false).

Definition get (now : Z) (key : string) : M value :=
  try_catch
    (cached <- localStorage.getItem (cache_key key) ;;
     match cached with
     | None | Some EmptyString => ret VNull
     | Some text =>
         entry <- lift (JSON.parse text) ;;
         old <- lift (expired now entry) ;;
         if old : bool then
           remove key ;;
           ret VNull
         else lift (get_prop entry "data")
     end)
    (fun error =>
       console.warn "Failed to retrieve cached data:" error ;;
       remove key ;;
       ret VNull).

Definition clear : M unit :=
  try_catch
    (keys <- localStorage.keys ;;
     for_each keys
       (fun key =>
          if is_cache_key key then localStorage.removeItem key
          else ret tt) ;;
     console.log "Cache cleared")
    (fun error => console.warn "Failed to clear cache:" error).

(** The body of the inner [try] of [getStats]: [Some true] for an
    expired entry, [Some false] for a valid one, [None] when the
    [catch] is taken. *)
Definition classify (now : Z) (value : option string) : option bool :=
  match JSON.parse (default "null" value) with
  | Throw _ => None
  | Normal entry =>
      match expired now entry with
      | Throw _ => None
      | Normal old => Some old
      end
  end.

(** What one round of the [forEach] of [getStats] does to the
    counters [(totalSize, validEntries, expiredEntries)] once the
    value is read. *)
Definition tally (now : Z) (acc : nat * nat * nat) (value : option string)
  : nat * nat * nat :=
  let '(totalSize, valid, old) := acc in
  let totalSize := (totalSize + from_option js_length 0 value)%nat in
  match classify now value with
  | Some true => (totalSize, valid, S old)
  | Some false => (totalSize, S valid, old)
  | None => (totalSize, valid, old)
  end.

Definition count (now : Z) (acc : nat * nat * nat) (key : string)
  : M (nat * nat * nat) :=
  value <- localStorage.getItem key ;;
  ret (tally now acc value).

Definition getStats (now : Z) : M (option stats) :=
  try_catch
    (keys <- localStorage.keys ;;
     let cacheKeys := filter (fun key => is_cache_key key = true) keys in
     totals <- fold_m (count now) cacheKeys (0, 0, 0)%nat ;;
     let '(totalSize, valid, old) := totals in
     ret (Some {| totalEntries := length cacheKeys;
                  validEntries := valid;
                  expiredEntries := old;
                  totalSizeBytes := totalSize;
                  totalSizeKB := kb_to_fixed totalSize |}))
    (fun error =>
       console.warn "Failed to get cache stats:" error ;;
       ret None).

Definition isAvailable : M bool :=
  try_catch
    (let test := "__cache_test__" in
     localStorage.setItem test test ;;
     localStorage.removeItem test ;;
     ret true)
    (fun e => ret false).

End CacheManager.

(* ================================================================== *)
(** * Definitions used by the statements and proofs below *)

(** A string made of digits only. *)
Fixpoint digits_only (s : string) : bool :=
  match s with
  | EmptyString => true
  | String c r => is_digit c && digits_only r
  end.

(** What may follow a run of digits without being scanned into it. *)
Definition no_digit_head (s : string) : bool :=
  match s with
  | EmptyString => true
  | String c _ => negb (is_digit c)
  end.

(** What may follow a number: nothing that would continue it. *)
Definition num_end (s : string) : bool :=
  match s with
  | EmptyString => true
  | String c _ =>
      negb (is_digit c) && negb (Ascii.eqb c ".") &&
      negb (Ascii.eqb c "e") && negb (Ascii.eqb c "E")
  end.

(** Induction on values, with the hypothesis for every item. *)
Definition value_ind (P : value → Prop)
  (Hundef : P VUndefined) (Hnull : P VNull)
  (Hbool : ∀ b, P (VBool b)) (Hnum : ∀ n, P (VNum n))
  (Hbig : ∀ z, P (VBigInt z)) (Hstr : ∀ s, P (VStr s))
  (Harr : ∀ l, Forall P l → P (VArr l))
  (Hobj : ∀ l, Forall (fun kv => P (snd kv)) l → P (VObj l))
  : ∀ v, P v :=
  fix go (v : value) : P v :=
    match v with
    | VUndefined => Hundef
    | VNull => Hnull
    | VBool b => Hbool b
    | VNum n => Hnum n
    | VBigInt z => Hbig z
    | VStr s => Hstr s
    | VArr l =>
        Harr l ((fix all (l : list value) : Forall P l :=
                   match l with
                   | [] => @List.Forall_nil _ P
                   | x :: r => @List.Forall_cons _ P x r (go x) (all r)
                   end) l)
    | VObj l =>
        Hobj l ((fix all (l : list (string * value))
                   : Forall (fun kv => P (snd kv)) l :=
                   match l with
                   | [] => @List.Forall_nil _ _
                   | x :: r => @List.Forall_cons _ _ x r (go (snd x)) (all r)
                   end) l)
    end.

(** The text of a JSON value. *)
Fixpoint render (v : value) : string :=
  match v with
  | VUndefined | VBigInt _ => ""
  | VNull => "null"
  | VBool true => "true"
  | VBool false => "false"
  | VNum n => ser_number n
  | VStr s => quote s
  | VArr l => String "[" (items_text "]" (map render l))
  | VObj l =>
      String "{"
        (items_text "}"
           (map (fun kv => quote (fst kv) +:+ String ":" (render (snd kv))) l))
  end.

(** The first character of a value. *)
Definition value_start (c : ascii) : bool :=
  is_digit c || Ascii.eqb c "-" || Ascii.eqb c "n" || Ascii.eqb c "t" ||
  Ascii.eqb c "f" || Ascii.eqb c dquote || Ascii.eqb c "[" || Ascii.eqb c "{".

(** What may follow a value inside a document. *)
Definition val_end (s : string) : bool :=
  match s with
  | EmptyString => true
  | String c _ => Ascii.eqb c "," || Ascii.eqb c "]" || Ascii.eqb c "}"
  end.

(** The handler of [get]: warn, try to remove, return [null]. *)
Definition get_recover (key : string) (e : error) : M value :=
  console.warn "Failed to retrieve cached data:" e ;;
  CacheManager.remove key ;;
  ret VNull.

(** The namespaced keys of a substrate, as [getStats] enumerates them. *)
Definition cache_keys (m : gmap string string) : list string :=
  filter (fun key => is_cache_key key = true) (map fst (map_to_list m)).

(** One of the next [n] accesses to the substrate throws. *)
Definition fault_within (n : nat) (w : world) : Prop :=
  Exists (fun b => b = true) (take n (faults w)).

(** The sweep of [clear] over a substrate that works. *)
Definition sweep (m : gmap string string) (key : string) : gmap string string :=
  if is_cache_key key then delete key m else m.

(** The keys [getStats] counts as valid. *)
Definition valid_keys (now : Z) (m : gmap string string) : list string :=
  filter (fun key => CacheManager.classify now (m !! key) = Some false)
    (cache_keys m).

(** A value whose conversion to a primitive throws: an object with an
    own property [toString], or an array that holds such a value, at any
    depth of arrays. *)
Fixpoint unprintable (v : value) : bool :=
  match v with
  | VArr l => existsb (fun e => unprintable e) l
  | VObj l => match assoc "toString" l with Some _ => true | None => false end
  | _ => false
  end.



(* ================================================================== *)
(** * The cache: more definitions *)

(** The keys [getStats] counts as expired. *)
Definition expired_keys (now : Z) (m : gmap string string) : list string :=
  filter (fun key => CacheManager.classify now (m !! key) = Some true)
    (cache_keys m).

(** One call on the cache that does not name [key]: an operation on
    another key, a [getStats], or an [isAvailable]. *)
Inductive other_call (key : string) : world → world → Prop :=
| other_set (now : Z) (key' : string) (data ttl : value) (w : world) :
    key' ≠ key →
    other_call key w (snd (CacheManager.set now key' data ttl w))
| other_get (now : Z) (key' : string) (w : world) :
    key' ≠ key →
    other_call key w (snd (CacheManager.get now key' w))
| other_remove (key' : string) (w : world) :
    key' ≠ key →
    other_call key w (snd (CacheManager.remove key' w))
| other_getStats (now : Z) (w : world) :
    other_call key w (snd (CacheManager.getStats now w))
| other_isAvailable (w : world) :
    other_call key w (snd (CacheManager.isAvailable w)).




(* ================================================================== *)
(** * The clock of [js/datetime.js] *)

(** [n] characters taken from [fill] over and over; [rest] is what is
    left of the current round. *)
Fixpoint fill_text (n : nat) (fill rest : string) : string :=
  match n with
  | O => EmptyString
  | S n' =>
      match rest with
      | String c r => String c (fill_text n' fill r)
      | EmptyString =>
          match fill with
          | String c r => String c (fill_text n' fill r)
          | EmptyString => EmptyString
          end
      end
  end.

(** [s.padStart(target, fill)]. *)
Definition padStart (target : nat) (fill s : string) : string :=
  let len := String.length s in
  if (target <=? len)%nat then s
  else
    match fill with
    | EmptyString => s
    | _ => fill_text (target - len) fill fill +:+ s
    end.

(** The fields of a valid [Date] that the clock reads, in local time. *)
Record local_time : Type := LocalTime {
  getHours : Z;
  getMinutes : Z;
  getSeconds : Z
}.

Definition valid_time (now : local_time) : Prop :=
  0 ≤ getHours now < 24 ∧ 0 ≤ getMinutes now < 60 ∧ 0 ≤ getSeconds now < 60.

(** The text [updateTimeDisplay] computes. *)
Definition time_text (now : local_time) : string :=
  let hours := getHours now in
  let minutes := padStart 2 "0" (number_to_string (Int (getMinutes now))) in
  let seconds := padStart 2 "0" (number_to_string (Int (getSeconds now))) in
  let ampm := if 12 <=? hours then "PM" else "AM" in
  let hours := Z.rem hours 12 in
  let hours := if hours =? 0 then 12 else hours in
  let displayHours := padStart 2 "0" (number_to_string (Int hours)) in
  displayHours +:+ ":" +:+ minutes +:+ ":" +:+ seconds +:+ " " +:+ ampm.

(** The page as the clock sees it: the text content of the elements that
    have an id.  [updateTimeDisplay] writes the time into the element
    [timeDisplay] if the page has one. *)
Definition updateTimeDisplay (now : local_time) (page : gmap string string)
  : gmap string string :=
  match page !! "timeDisplay" with
  | Some _ => <["timeDisplay" := time_text now]> page
  | None => page
  end.

(** Two decimal digits. *)
Definition two_digits (n : Z) : string :=
  String (digit_char (Z.to_N (n / 10)))
    (String (digit_char (Z.to_N (n mod 10))) EmptyString).

(** The hour of a twelve-hour clock. *)
Definition hour12 (h : Z) : Z := if h mod 12 =? 0 then 12 else h mod 12.

(* ================================================================== *)
(** * The slideshow of [js/slideshow.js] *)

(** [ToBoolean]. *)
Definition truthy (v : value) : bool :=
  match v with
  | VUndefined | VNull => false
  | VBool b => b
  | VNum NaN => false
  | VNum (Dec m _) => negb (m =? 0)
  | VNum _ => true
  | VBigInt z => negb (z =? 0)
  | VStr EmptyString => false
  | VStr _ => true
  | VArr _ | VObj _ => true
  end.

(** [(window.CONFIG && window.CONFIG.p) || dflt]. *)
Definition configured (config : value) (p : string) (dflt : value)
  : outcome value :=
  if truthy config then
    match get_prop config p with
    | Normal v => Normal (if truthy v then v else dflt)
    | Throw e => Throw e
    end
  else Normal dflt.

(** The page as the slideshow sees it.  A node is the position of an
    element in document order; [classes] gives the class list of every
    element.  [container] is the [style.display] of the element
    [slideshowContainer], [None] on a page without it.  [timers] maps the
    handle of every running interval timer to its delay; the only
    callback the slideshow registers is [nextSlide].  The host numbers
    the handles from one; [issued] is the last one it gave out. *)
Record document : Type := Document {
  classes : list (gset string);
  container : option string;
  timers : gmap nat value;
  issued : nat;
  CONFIG : value
}.

(** The variables of the module. *)
Record vars : Type := Vars {
  currentSlide : Z;
  slides : list nat;
  slideshowInterval : option nat
}.

Definition tab : Type := vars * document.

(** The module as the script leaves it before [init] runs. *)
Definition vars0 : vars := Vars 0 [] None.

Definition set_classes (c : list (gset string)) (p : document) : document :=
  Document c (container p) (timers p) (issued p) (CONFIG p).

Definition classes_of (p : document) (node : nat) : gset string :=
  default ∅ (classes p !! node).

(** [document.querySelectorAll('.' + cls)]: a static list, in document
    order. *)
Definition querySelectorAll (cls : string) (p : document) : list nat :=
  filter (fun node => cls ∈ classes_of p node) (seq 0 (length (classes p))).

(** [node.classList.remove(tok)] and [node.classList.add(tok)]. *)
Definition classList_remove (tok : string) (p : document) (node : nat)
  : document :=
  set_classes (alter (fun c => c ∖ {[tok]}) node (classes p)) p.

Definition classList_add (tok : string) (p : document) (node : nat)
  : document :=
  set_classes (alter (fun c => c ∪ {[tok]}) node (classes p)) p.

(** [slideshowContainer.style.display = d], guarded by the test that the
    element exists. *)
Definition set_display (d : string) (p : document) : document :=
  match container p with
  | Some _ => Document (classes p) (Some d) (timers p) (issued p) (CONFIG p)
  | None => p
  end.

(** [setInterval(nextSlide, delay)] and [clearInterval(h)]. *)
Definition setInterval (delay : value) (p : document) : nat * document :=
  let h := S (issued p) in
  (h, Document (classes p) (container p) (<[h := delay]> (timers p)) h
        (CONFIG p)).

Definition clearInterval (h : nat) (p : document) : document :=
  Document (classes p) (container p) (delete h (timers p)) (issued p)
    (CONFIG p).

(** [l[i]] for an integer [i]: [None] stands for [undefined]. *)
Definition js_index {A : Type} (l : list A) (i : Z) : option A :=
  if i <? 0 then None else l !! Z.to_nat i.

Module Slideshow.

Definition DEFAULT_INTERVAL_MS : value := VNum (Int 8000).

Definition showSlide (index : Z) (t : tab) : outcome unit * tab :=
  let '(v, p) := t in
  let p := foldl (classList_remove "active") p (slides v) in
  let n := Z.of_nat (length (slides v)) in
  let current :=
    if n <=? index then 0 else if index <? 0 then n - 1 else index in
  let v := Vars current (slides v) (slideshowInterval v) in
  match js_index (slides v) current with
  | Some node => (Normal tt, (v, classList_add "active" p node))
  | None => (Throw TypeError, (v, p))
  end.

Definition nextSlide (t : tab) : outcome unit * tab :=
  showSlide (currentSlide (fst t) + 1) t.

Definition previousSlide (t : tab) : outcome unit * tab :=
  showSlide (currentSlide (fst t) - 1) t.

Definition initSlideshow (t : tab) : outcome unit * tab :=
  let '(v, p) := t in
  let v := Vars (currentSlide v) (querySelectorAll "slide" p)
             (slideshowInterval v) in
  if (0 <? length (slides v))%nat then
    match showSlide 0 (v, p) with
    | (Normal _, (v, p)) =>
        match configured (CONFIG p) "SLIDESHOW_INTERVAL" DEFAULT_INTERVAL_MS
        with
        | Normal interval =>
            let '(h, p) := setInterval interval p in
            (Normal tt, (Vars (currentSlide v) (slides v) (Some h), p))
        | Throw e => (Throw e, (v, p))
        end
    | (Throw e, t) => (Throw e, t)
    end
  else (Normal tt, (v, p)).

(** A handle is a number: zero would count as no timer. *)
Definition stopSlideshow (t : tab) : tab :=
  let '(v, p) := t in
  match slideshowInterval v with
  | Some h =>
      if (0 <? h)%nat
      then (Vars (currentSlide v) (slides v) None, clearInterval h p)
      else t
  | None => t
  end.

Definition restartSlideshow (t : tab) : outcome unit * tab :=
  initSlideshow (stopSlideshow t).

Definition show (t : tab) : outcome unit * tab :=
  let '(v, p) := t in
  restartSlideshow (v, set_display "flex" p).

Definition hide (t : tab) : outcome unit * tab :=
  let '(v, p) := t in
  (Normal tt, stopSlideshow (v, set_display "none" p)).

End Slideshow.

(** One call of the exported functions [next], [previous], [show], [hide]
    and [restart], whether it returns or throws. *)
Inductive api_call : tab → tab → Prop :=
| call_next t : api_call t (snd (Slideshow.nextSlide t))
| call_previous t : api_call t (snd (Slideshow.previousSlide t))
| call_show t : api_call t (snd (Slideshow.show t))
| call_hide t : api_call t (snd (Slideshow.hide t))
| call_restart t : api_call t (snd (Slideshow.restartSlideshow t)).

(** The same, or a further run of [initSlideshow]. *)
Inductive any_call : tab → tab → Prop :=
| call_api t t' : api_call t t' → any_call t t'
| call_initSlideshow t : any_call t (snd (Slideshow.initSlideshow t)).

(** Exactly the current slide is marked active. *)
Definition one_active (t : tab) : Prop :=
  ∀ i node, slides (fst t) !! i = Some node →
    "active" ∈ classes_of (snd t) node ↔ Z.of_nat i = currentSlide (fst t).

(** The slide [showSlide index] settles on, among [n] slides. *)
Definition target (n index : Z) : Z :=
  if n <=? index then 0 else if index <? 0 then n - 1 else index.

(** The state of the module agrees with the page: its slides are the
    slide elements of the page and, if there are any, the current slide
    is one of them and the only one marked active. *)
Definition shown (t : tab) : Prop :=
  slides (fst t) = querySelectorAll "slide" (snd t) ∧
  (slides (fst t) ≠ [] →
   0 ≤ currentSlide (fst t) < Z.of_nat (length (slides (fst t))) ∧
   one_active t).

(** The timers agree with the module: the recorded handle, if there is
    one, belongs to the only running timer, whose delay is the configured
    interval; without a recorded handle no timer runs. *)
Definition timed (t : tab) : Prop :=
  match slideshowInterval (fst t) with
  | Some h =>
      (0 < h)%nat ∧ slides (fst t) ≠ [] ∧
      ∃ d, configured (CONFIG (snd t)) "SLIDESHOW_INTERVAL"
             Slideshow.DEFAULT_INTERVAL_MS = Normal d ∧
           timers (snd t) = {[h := d]}
  | None => timers (snd t) = ∅
  end.

(** The timer [h] runs, but its handle is no longer recorded. *)
Definition leaked (h : nat) (d : value) (t : tab) : Prop :=
  timers (snd t) !! h = Some d ∧ (h ≤ issued (snd t))%nat ∧
  slideshowInterval (fst t) ≠ Some h.

(** A page with three slides, two of them marked active by the markup,
    and a hidden container. *)
Definition demo_page : document :=
  Document [ {["header"]}; {["slide"]}; {["slide"]} ∪ {["active"]};
             {["footer"]}; {["slide"]} ∪ {["active"]} ]
    (Some "none") ∅ 0 VUndefined.


(* ================================================================== *)
(** * The daily forecast of [js/weather.js] *)

(** The property names read below ([SLIDESHOW_INTERVAL] above, [dt],
    [main], [weather], [temp_max], [temp_min], [icon], [description]) are
    defined by no built-in prototype either, so [get_prop] reads them. *)

Definition and_then {A B : Type} (o : outcome A) (k : A → outcome B)
  : outcome B :=
  match o with
  | Normal a => k a
  | Throw e => Throw e
  end.

Notation "'let!' x ':=' c 'in' k" := (and_then c (fun x => k))
  (at level 10, x name, c at level 100, k at level 200).

(** [Math.max] and [Math.min] of two arguments: both are converted; the
    result is [NaN] if one of them is. *)
Definition num_max (x y : number) : number :=
  match x, y with
  | NaN, _ | _, NaN => NaN
  | _, _ => if num_lt x y then y else x
  end.

Definition num_min (x y : number) : number :=
  match x, y with
  | NaN, _ | _, NaN => NaN
  | _, _ => if num_lt y x then y else x
  end.

Definition math_max (a b : value) : outcome number :=
  let! x := to_number a in
  let! y := to_number b in
  Normal (num_max x y).

Definition math_min (a b : value) : outcome number :=
  let! x := to_number a in
  let! y := to_number b in
  Normal (num_min x y).

(** [w[0].p]: the element at index 0 of an array, the property [0] of an
    object, the first code unit of a string, which has no property [p];
    anything else has no element 0, and reading [p] from [undefined]
    throws. *)
Definition first_prop (w : value) (p : string) : outcome value :=
  match w with
  | VArr l => get_prop (default VUndefined (head l)) p
  | VObj l => get_prop (default VUndefined (assoc "0" l)) p
  | VStr (String _ _) => Normal VUndefined
  | _ => Throw TypeError
  end.

(** [o.p = v] in strict code. *)
Definition set_prop (o : value) (p : string) (v : value) : outcome value :=
  match o with
  | VObj l => Normal (VObj (obj_set p v l))
  | _ => Throw TypeError
  end.

(** [l.forEach(f)] for an [f] that updates an accumulator. *)
Fixpoint forEach {A B : Type} (f : B → A → outcome B) (l : list A) (acc : B)
  : outcome B :=
  match l with
  | [] => Normal acc
  | x :: r => let! acc' := f acc x in forEach f r acc'
  end.

Module Weather.

(** [date_key n] is the text the host gives for
    [new Date(n * 1000).toLocaleDateString('en-US', {weekday: 'short',
    month: 'short', day: 'numeric'})], the day of the time [n] in the
    time zone of the page, such as Mon, Nov 2.  It is no array index, so
    the keys of the result keep the order in which they were added, and
    no name of a property that objects inherit, so it is found in the
    result only once it has been added. *)
Definition aggregate_item (date_key : number → string)
    (dailyForecasts : list (string * value)) (item : value)
  : outcome (list (string * value)) :=
  let! dt := get_prop item "dt" in
  let! seconds := to_number dt in
  let dateKey := date_key seconds in
  let first_of_day :=
    let! main := get_prop item "main" in
    let! temp_max := get_prop main "temp_max" in
    let! main := get_prop item "main" in
    let! temp_min := get_prop main "temp_min" in
    let! weather := get_prop item "weather" in
    let! icon := first_prop weather "icon" in
    let! weather := get_prop item "weather" in
    let! description := first_prop weather "description" in
    Normal (obj_set dateKey
              (VObj [("temp_max", temp_max); ("temp_min", temp_min);
                     ("icon", icon); ("description", description)])
              dailyForecasts) in
  match assoc dateKey dailyForecasts with
  | None => first_of_day
  | Some day =>
      if negb (truthy day) then first_of_day
      else
        let! old_max := get_prop day "temp_max" in
        let! main := get_prop item "main" in
        let! temp_max := get_prop main "temp_max" in
        let! high := math_max old_max temp_max in
        let! day := set_prop day "temp_max" (VNum high) in
        let! old_min := get_prop day "temp_min" in
        let! main := get_prop item "main" in
        let! temp_min := get_prop main "temp_min" in
        let! low := math_min old_min temp_min in
        let! day := set_prop day "temp_min" (VNum low) in
        Normal (obj_set dateKey day dailyForecasts)
  end.

Definition aggregateDailyForecasts (date_key : number → string)
    (forecastList : value) : outcome value :=
  match forecastList with
  | VArr l =>
      let! dailyForecasts := forEach (aggregate_item date_key) l [] in
      Normal (VObj dailyForecasts)
  | _ => Throw TypeError
  end.

End Weather.

(** One entry of the forecast list as the weather service sends it. *)
Record reading : Type := Reading {
  dt : number;
  temp_max : number;
  temp_min : number;
  icon : string;
  description : string
}.

Definition item_of (r : reading) : value :=
  VObj [("dt", VNum (dt r));
        ("main", VObj [("temp_max", VNum (temp_max r));
                       ("temp_min", VNum (temp_min r))]);
        ("weather", VArr [VObj [("description", VStr (description r));
                                ("icon", VStr (icon r))]])].

(** The entry of a day whose readings are [r], the first, and [rest]. *)
Definition day_of (r : reading) (rest : list reading) : value :=
  VObj [("temp_max", VNum (foldl num_max (temp_max r) (temp_max <$> rest)));
        ("temp_min", VNum (foldl num_min (temp_min r) (temp_min <$> rest)));
        ("icon", VStr (icon r));
        ("description", VStr (description r))].

(** The days of a list of readings, each once, in the order in which they
    first occur. *)
Fixpoint days (date_key : number → string) (l : list reading) : list string :=
  match l with
  | [] => []
  | r :: rest =>
      date_key (dt r)
      :: filter (fun k => k ≠ date_key (dt r)) (days date_key rest)
  end.

(** The readings of the day [k]. *)
Definition readings_of (date_key : number → string) (k : string)
    (l : list reading) : list reading :=
  filter (fun r => date_key (dt r) = k) l.

(** The table [acc] holds the days of the readings [l]. *)
Definition holds (date_key : number → string) (l : list reading)
    (acc : list (string * value)) : Prop :=
  acc.*1 = days date_key l ∧
  ∀ k, assoc k acc
       = match readings_of date_key k l with
         | r :: rest => Some (day_of r rest)
         | [] => None
         end.

(** [item.main] is an object or another value with properties. *)
Definition has_main (item : value) : bool :=
  match get_prop item "main" with
  | Normal VUndefined | Normal VNull | Throw _ => false
  | Normal _ => true
  end.

(** Three readings of two days, and a host that shows times in UTC. *)
Definition hourly : list reading :=
  [Reading (Int 0) (Int 50) (Int 40) "01d" "clear sky";
   Reading (Int 10800) (Dec 525 1) (Int 44) "02d" "few clouds";
   Reading (Int 86400) (Int 61) (Int 39) "10d" "light rain"].

Definition utc_day (n : number) : string :=
  match n with
  | Dec m O => if m <? 86400 then "Thu, Jan 1" else "Fri, Jan 2"
  | _ => "Invalid Date"
  end.

(* ================================================================== *)
(** * Digits *)

#[local] Arguments String.append !_ _ : simpl nomatch.

Lemma append_assoc (a b c : string) : (a +:+ b) +:+ c = a +:+ (b +:+ c).
Proof. induction a as [|x a IH]; cbn; [reflexivity | f_equal; exact IH]. Qed.

Lemma append_nil_r (a : string) : a +:+ "" = a.
Proof. induction a as [|x a IH]; cbn; [reflexivity | f_equal; exact IH]. Qed.

Lemma length_append (a b : string) :
  String.length (a +:+ b) = (String.length a + String.length b)%nat.
Proof. induction a as [|x a IH]; cbn; [reflexivity | f_equal; exact IH]. Qed.

Lemma small_cases (k : N) :
  (k < 10)%N →
  k = 0%N ∨ k = 1%N ∨ k = 2%N ∨ k = 3%N ∨ k = 4%N ∨
  k = 5%N ∨ k = 6%N ∨ k = 7%N ∨ k = 8%N ∨ k = 9%N.
Proof. lia. Qed.

Ltac each_digit k H :=
  destruct (small_cases k H) as [->|[->|[->|[->|[->|[->|[->|[->|[->| ->]]]]]]]]].

Lemma digit_char_is_digit (k : N) : (k < 10)%N → is_digit (digit_char k) = true.
Proof. intros H. each_digit k H; reflexivity. Qed.

Lemma digit_of_char (k : N) : (k < 10)%N → digit_of (digit_char k) = k.
Proof. intros H. each_digit k H; reflexivity. Qed.

Lemma digit_char_zero (k : N) :
  (k < 10)%N → digit_char k = "0"%char → k = 0%N.
Proof. intros H. each_digit k H; intros E; try reflexivity; discriminate E. Qed.

Lemma scan_digits_app (ds rest : string) :
  digits_only ds = true → no_digit_head rest = true →
  scan_digits (ds +:+ rest) = (ds, rest).
Proof.
  induction ds as [|c ds IH]; simpl; intros Hd Hr.
  - destruct rest as [|c r]; [reflexivity|].
    simpl in *. destruct (is_digit c); [discriminate | reflexivity].
  - apply andb_true_iff in Hd as [Hc Hd]. rewrite Hc, (IH Hd Hr). reflexivity.
Qed.

Lemma digits_val_app (acc : N) (a b : string) :
  digits_val acc (a +:+ b) = digits_val (digits_val acc a) b.
Proof. revert acc. induction a as [|c a IH]; simpl; intros; [reflexivity | apply IH]. Qed.

Lemma digits_val_acc (acc : N) (s : string) :
  digits_val acc s
  = (acc * 10 ^ N.of_nat (String.length s) + digits_val 0 s)%N.
Proof.
  revert acc. induction s as [|c s IH]; intros acc.
  - simpl. lia.
  - cbn [digits_val String.length]. rewrite IH, (IH (0 * 10 + digit_of c)%N).
    rewrite Nat2N.inj_succ, N.pow_succ_r'. lia.
Qed.

Lemma frac_digits_only (d : nat) (n : N) (acc : string) :
  digits_only acc = true → digits_only (frac_digits d n acc) = true.
Proof.
  revert n acc. induction d as [|d IH]; simpl; intros n acc H; [exact H|].
  apply IH. simpl. rewrite H, digit_char_is_digit; [reflexivity|].
  apply N.mod_lt. lia.
Qed.

Lemma frac_digits_length (d : nat) (n : N) (acc : string) :
  String.length (frac_digits d n acc) = (d + String.length acc)%nat.
Proof.
  revert n acc. induction d as [|d IH]; simpl; intros n acc; [reflexivity|].
  rewrite IH. simpl. lia.
Qed.

Lemma frac_digits_val (d : nat) (n : N) (acc : string) :
  digits_val 0 (frac_digits d n acc)
  = ((n mod 10 ^ N.of_nat d) * 10 ^ N.of_nat (String.length acc)
     + digits_val 0 acc)%N.
Proof.
  revert n acc. induction d as [|d IH]; intros n acc.
  - simpl. rewrite N.mod_1_r. lia.
  - cbn [frac_digits]. rewrite IH. cbn [digits_val String.length].
    rewrite (digits_val_acc (0 * 10 + _)), digit_of_char by (apply N.mod_lt; lia).
    rewrite !Nat2N.inj_succ, !N.pow_succ_r'.
    set (p := (10 ^ N.of_nat d)%N). set (k := (10 ^ N.of_nat (String.length acc))%N).
    assert (Hp : (0 < p)%N) by (apply N.neq_0_lt_0, N.pow_nonzero; lia).
    assert (E : (n mod (10 * p) = n mod 10 + 10 * ((n / 10) mod p))%N).
    { rewrite N.Div0.mod_mul_r. lia. }
    rewrite E. lia.
Qed.

Lemma frac_digits_head (d : nat) (n : N) :
  ∃ c r, frac_digits (S d) n "" = String c r.
Proof.
  pose proof (frac_digits_length (S d) n "") as H.
  destruct (frac_digits (S d) n "") as [|c r]; [discriminate H | eauto].
Qed.

Lemma div10_bound (n x : N) : (n < 10 * (2 * x))%N → (n / 10 < 10 * x)%N.
Proof. intros H. apply N.Div0.div_lt_upper_bound. lia. Qed.

Lemma N_digits_aux_only (f : nat) (n : N) (acc : string) :
  digits_only acc = true → digits_only (N_digits_aux f n acc) = true.
Proof.
  revert n acc. induction f as [|f IH]; intros n acc H; cbn [N_digits_aux].
  - simpl. rewrite H, digit_char_is_digit; [reflexivity | apply N.mod_lt; lia].
  - assert (digits_only (String (digit_char (n mod 10)) acc) = true) as H'.
    { simpl. rewrite H, digit_char_is_digit; [reflexivity | apply N.mod_lt; lia]. }
    destruct (n / 10 =? 0)%N; [exact H' | apply IH, H'].
Qed.

Lemma N_digits_aux_val (f : nat) (n : N) (acc : string) :
  (n < 10 * 2 ^ N.of_nat f)%N →
  digits_val 0 (N_digits_aux f n acc)
  = (n * 10 ^ N.of_nat (String.length acc) + digits_val 0 acc)%N.
Proof.
  revert n acc. induction f as [|f IH]; intros n acc Hn; cbn [N_digits_aux].
  - cbn [digits_val]. rewrite digits_val_acc, digit_of_char by (apply N.mod_lt; lia).
    simpl in Hn. rewrite N.mod_small by lia. lia.
  - pose proof (N.div_mod n 10 ltac:(lia)) as Hdm.
    pose proof (N.mod_lt n 10 ltac:(lia)) as Hlt.
    destruct (N.eqb_spec (n / 10) 0) as [E|E].
    + cbn [digits_val]. rewrite digits_val_acc, digit_of_char by exact Hlt.
      nia.
    + rewrite IH.
      * cbn [digits_val String.length].
        rewrite (digits_val_acc (0 * 10 + _)), digit_of_char by exact Hlt.
        rewrite Nat2N.inj_succ, N.pow_succ_r'. nia.
      * rewrite Nat2N.inj_succ, N.pow_succ_r' in Hn. apply div10_bound, Hn.
Qed.

(** The first digit is zero only for the number zero, written alone. *)
Lemma N_digits_aux_head (f : nat) (n : N) (acc : string) :
  (n < 10 * 2 ^ N.of_nat f)%N →
  ∃ c r, N_digits_aux f n acc = String c r ∧
         (c = "0"%char → n = 0%N ∧ r = acc).
Proof.
  revert n acc. induction f as [|f IH]; intros n acc Hn; cbn [N_digits_aux].
  - eexists _, _. split; [reflexivity|]. intros E.
    apply digit_char_zero in E; [|apply N.mod_lt; lia].
    simpl in Hn. rewrite N.mod_small in E by lia. auto.
  - pose proof (N.div_mod n 10 ltac:(lia)) as Hdm.
    destruct (N.eqb_spec (n / 10) 0) as [E|E].
    + eexists _, _. split; [reflexivity|]. intros E'.
      apply digit_char_zero in E'; [|apply N.mod_lt; lia]. split; [lia | reflexivity].
    + destruct (IH (n / 10)%N (String (digit_char (n mod 10)) acc))
        as (c & r & Hcr & Hz).
      { rewrite Nat2N.inj_succ, N.pow_succ_r' in Hn. apply div10_bound, Hn. }
      exists c, r. split; [exact Hcr|]. intros E'. destruct (Hz E') as [Hz' _].
      contradiction.
Qed.

Lemma N_digits_bound (n : N) : (n < 10 * 2 ^ N.of_nat (N.to_nat (N.log2 n)))%N.
Proof.
  rewrite N2Nat.id. destruct n as [|p]; [reflexivity|].
  pose proof (N.log2_spec (N.pos p) ltac:(lia)) as [_ H].
  rewrite N.pow_succ_r' in H. lia.
Qed.

Lemma N_digits_only (n : N) : digits_only (N_digits n) = true.
Proof. apply N_digits_aux_only. reflexivity. Qed.

Lemma N_digits_val (n : N) : digits_val 0 (N_digits n) = n.
Proof.
  unfold N_digits. rewrite N_digits_aux_val by apply N_digits_bound.
  simpl. lia.
Qed.

Lemma N_digits_head (n : N) :
  ∃ c r, N_digits n = String c r ∧ (c = "0"%char → r = "").
Proof.
  destruct (N_digits_aux_head (N.to_nat (N.log2 n)) n "" (N_digits_bound n))
    as (c & r & H & Hz).
  exists c, r. split; [exact H|]. intros E. apply (Hz E).
Qed.

(* ================================================================== *)
(** * Numbers survive the round trip *)

Lemma eat_same (c : ascii) (r : string) : eat c (String c r) = Some r.
Proof. simpl. now rewrite Ascii.eqb_refl. Qed.

Lemma eat_other (c c' : ascii) (r : string) :
  Ascii.eqb c' c = false → eat c (String c' r) = None.
Proof. simpl. now intros ->. Qed.

Lemma num_end_no_digit (s : string) : num_end s = true → no_digit_head s = true.
Proof.
  destruct s as [|c r]; [reflexivity|]. simpl.
  destruct (is_digit c); [discriminate | reflexivity].
Qed.

Lemma num_end_fraction (s : string) :
  num_end s = true → scan_fraction s = Some ("", s).
Proof.
  destruct s as [|c r]; [reflexivity|]. unfold scan_fraction. simpl.
  destruct (is_digit c), (Ascii.eqb c "."); simpl; try discriminate; reflexivity.
Qed.

Lemma num_end_exponent (s : string) :
  num_end s = true → scan_exponent s = Some (0, s).
Proof.
  destruct s as [|c r]; [reflexivity|]. simpl.
  destruct (is_digit c), (Ascii.eqb c "."), (Ascii.eqb c "e"), (Ascii.eqb c "E");
    simpl; try discriminate; reflexivity.
Qed.

Lemma digit_not_minus (c : ascii) : is_digit c = true → Ascii.eqb c "-" = false.
Proof.
  intros H. destruct (Ascii.eqb_spec c "-") as [->|]; [discriminate H | reflexivity].
Qed.

Lemma norm_normal (m : Z) (d : nat) : normal (Dec m d) = true → norm m d = Dec m d.
Proof.
  destruct d as [|d]; [reflexivity|]. simpl.
  destruct (m mod 10 =? 0); [discriminate | reflexivity].
Qed.

Lemma leading_zero_digits (n : N) : leading_zero (N_digits n) = false.
Proof.
  destruct (N_digits_head n) as (c & r & -> & Hz). simpl.
  destruct r as [|c' r]; [reflexivity|].
  destruct (Ascii.eqb_spec c "0") as [->|]; [|reflexivity].
  discriminate (Hz eq_refl).
Qed.

Lemma make_number_text (m : Z) (d : nat) :
  normal (Dec m d) = true →
  make_number (m <? 0)
    (N_digits (Z.abs_N m / 10 ^ N.of_nat d))
    (match d with
     | O => ""
     | S _ => frac_digits d (Z.abs_N m mod 10 ^ N.of_nat d) ""
     end) 0
  = Dec m d.
Proof.
  intros Hn. unfold make_number.
  set (a := Z.abs_N m). set (p := (10 ^ N.of_nat d)%N).
  assert (Hp : p ≠ 0%N) by (apply N.pow_nonzero; lia).
  assert (Hv : digits_val 0
                 (N_digits (a / p) +:+
                  match d with O => "" | S _ => frac_digits d (a mod p) "" end)
               = a).
  { rewrite digits_val_app, N_digits_val. destruct d as [|d].
    - simpl. subst p. simpl. rewrite N.div_1_r. reflexivity.
    - rewrite digits_val_acc, frac_digits_val, frac_digits_length.
      cbn [String.length digits_val]. fold p.
      rewrite N.Div0.mod_mod, Nat.add_0_r. fold p.
      pose proof (N.div_mod a p Hp). lia. }
  rewrite Hv.
  assert (Hl : String.length
                 match d with O => "" | S _ => frac_digits d (a mod p) "" end
               = d).
  { destruct d; [reflexivity|]. rewrite frac_digits_length. simpl. lia. }
  rewrite Hl. cbn [Z.leb Z.compare]. simpl (0 <=? 0).
  rewrite Z.pow_0_r, Z.mul_1_r.
  assert (Hm : (if m <? 0 then - Z.of_N a else Z.of_N a) = m).
  { subst a. rewrite N2Z.inj_abs_N. destruct (Z.ltb_spec m 0); lia. }
  rewrite Hm. apply norm_normal, Hn.
Qed.

Lemma parse_number_parts (neg : bool) (ip fp rest : string) :
  digits_only ip = true → ip ≠ "" → leading_zero ip = false →
  digits_only fp = true → num_end rest = true →
  parse_number
    ((if neg then "-" else "") +:+ ip +:+
     match fp with "" => "" | _ => String "." fp end +:+ rest)
  = Some (make_number neg ip fp 0, rest).
Proof.
  intros Hip Hne Hz Hfp Hr. unfold parse_number.
  set (tail := match fp with "" => "" | _ => String "." fp end +:+ rest).
  assert (Hneg : match eat "-" ((if neg then "-" else "") +:+ ip +:+ tail) with
                 | Some r => (true, r)
                 | None => (false, (if neg then "-" else "") +:+ ip +:+ tail)
                 end = (neg, ip +:+ tail)).
  { destruct neg; [reflexivity|]. cbn [String.append].
    destruct ip as [|c r]; [contradiction|].
    simpl in Hip. apply andb_true_iff in Hip as [Hc _].
    cbn [String.append eat]. rewrite (digit_not_minus c Hc). reflexivity. }
  rewrite Hneg.
  assert (Hscan : scan_digits (ip +:+ tail) = (ip, tail)).
  { apply scan_digits_app; [exact Hip|]. subst tail.
    destruct fp; [apply num_end_no_digit, Hr | reflexivity]. }
  rewrite Hscan, Hz. destruct ip as [|c r]; [contradiction|].
  subst tail. destruct fp as [|c' r'].
  - cbn [String.append]. rewrite (num_end_fraction rest Hr). cbn [mbind option_bind].
    rewrite (num_end_exponent rest Hr). reflexivity.
  - cbn [String.append]. unfold scan_fraction. rewrite eat_same.
    change (String c' (r' +:+ rest)) with (String c' r' +:+ rest).
    rewrite (scan_digits_app _ _ Hfp (num_end_no_digit rest Hr)).
    cbn [mbind option_bind]. rewrite (num_end_exponent rest Hr). reflexivity.
Qed.

Lemma parse_number_text (m : Z) (d : nat) (rest : string) :
  normal (Dec m d) = true → num_end rest = true →
  parse_number (dec_text m d +:+ rest) = Some (Dec m d, rest).
Proof.
  intros Hn Hr. pose proof (make_number_text m d Hn) as Hmk.
  unfold dec_text.
  set (ip := N_digits (Z.abs_N m / 10 ^ N.of_nat d)) in *.
  set (fp := match d with
             | O => ""
             | S _ => frac_digits d (Z.abs_N m mod 10 ^ N.of_nat d) ""
             end) in *.
  assert (Htail : match d with
                  | O => ""
                  | S _ => String "." (frac_digits d (Z.abs_N m mod 10 ^ N.of_nat d) "")
                  end = match fp with "" => "" | _ => String "." fp end).
  { subst fp. destruct d as [|d]; [reflexivity|].
    destruct (frac_digits_head d (Z.abs_N m mod 10 ^ N.of_nat (S d)))
      as (c & r & ->). reflexivity. }
  rewrite Htail, !append_assoc, <- Hmk.
  apply parse_number_parts.
  - apply N_digits_only.
  - subst ip. destruct (N_digits_head (Z.abs_N m / 10 ^ N.of_nat d))
      as (c & r & -> & _). discriminate.
  - apply leading_zero_digits.
  - subst fp. destruct d; [reflexivity | apply frac_digits_only; reflexivity].
  - exact Hr.
Qed.

(* ================================================================== *)
(** * Strings survive the round trip *)

Lemma parse_chars_quote_char (c : ascii) (t : string) :
  parse_chars (quote_char c +:+ t)
  = '(u, rest) ← parse_chars t; Some (String c u, rest).
Proof. destruct c as [[] [] [] [] [] [] [] []]; reflexivity. Qed.

Lemma parse_chars_quote_body (s rest : string) :
  parse_chars (quote_body s +:+ rest) = Some (s, rest).
Proof.
  induction s as [|c s IH]; [reflexivity|].
  cbn [quote_body]. rewrite append_assoc, parse_chars_quote_char, IH.
  reflexivity.
Qed.

(* ================================================================== *)
(** * Values survive the round trip *)

Lemma sequence_render (l : list value) :
  Forall (fun v => json_value v = true → ser v = Normal (Some (render v))) l →
  forallb json_value l = true →
  sequence (map ser l) = Normal (map (fun v => Some (render v)) l).
Proof.
  induction 1 as [|v l Hv _ IH]; [reflexivity|]. simpl.
  intros [Hj Hl]%andb_true_iff. rewrite (Hv Hj), (IH Hl). reflexivity.
Qed.

Lemma sequence_render_members (l : list (string * value)) :
  Forall (fun kv => json_value (snd kv) = true →
                    ser (snd kv) = Normal (Some (render (snd kv)))) l →
  forallb (fun kv => json_value (snd kv)) l = true →
  sequence (map (fun kv => ser (snd kv)) l)
  = Normal (map (fun kv => Some (render (snd kv))) l).
Proof.
  induction 1 as [|v l Hv _ IH]; [reflexivity|]. simpl.
  intros [Hj Hl]%andb_true_iff. rewrite (Hv Hj), (IH Hl). reflexivity.
Qed.

Lemma member_texts (l : list (string * value)) :
  omap member_text (zip (map fst l) (map (fun kv => Some (render (snd kv))) l))
  = map (fun kv => quote (fst kv) +:+ String ":" (render (snd kv))) l.
Proof.
  induction l as [|[k v] l IH]; [reflexivity|].
  cbn [map zip zip_with]. cbn [omap list_omap member_text fst snd].
  f_equal. exact IH.
Qed.

Lemma ser_render (v : value) :
  json_value v = true → ser v = Normal (Some (render v)).
Proof.
  induction v as [| |b|n|z|s|l IH|l IH] using value_ind; simpl; intros Hj;
    try discriminate; try reflexivity.
  - destruct b; reflexivity.
  - rewrite (sequence_render l IH Hj), map_map. reflexivity.
  - apply andb_true_iff in Hj as [Hj _].
    rewrite (sequence_render_members l IH Hj), member_texts. reflexivity.
Qed.

Lemma val_end_num_end (s : string) : val_end s = true → num_end s = true.
Proof.
  destruct s as [|c r]; [reflexivity|].
  destruct c as [[] [] [] [] [] [] [] []]; simpl; intros H;
    try discriminate H; reflexivity.
Qed.

Lemma value_start_plain (c : ascii) :
  value_start c = true →
  is_ws c = false ∧ Ascii.eqb c "]" = false ∧ Ascii.eqb c "}" = false.
Proof.
  destruct c as [[] [] [] [] [] [] [] []]; simpl; intros H;
    try discriminate H; auto.
Qed.

Lemma dec_text_head (m : Z) (d : nat) :
  ∃ c r, dec_text m d = String c r ∧
         (is_digit c || Ascii.eqb c "-") = true.
Proof.
  unfold dec_text. destruct (m <? 0).
  - eexists _, _. split; reflexivity.
  - destruct (N_digits_head (Z.abs_N m / 10 ^ N.of_nat d)) as (c & r & E & _).
    pose proof (N_digits_only (Z.abs_N m / 10 ^ N.of_nat d)) as Hd.
    rewrite E in *. simpl in Hd. apply andb_true_iff in Hd as [Hc _].
    eexists c, _. split; [reflexivity|]. now rewrite Hc.
Qed.

Lemma render_head (v : value) :
  json_value v = true → ∃ c r, render v = String c r ∧ value_start c = true.
Proof.
  destruct v as [| |b|n|z|s|l|l]; simpl; intros Hj; try discriminate;
    try (eexists _, _; split; reflexivity).
  - destruct b; eexists _, _; split; reflexivity.
  - destruct n as [| | |m d]; try discriminate.
    destruct (dec_text_head m d) as (c & r & E & Hc). exists c, r.
    split; [exact E|]. unfold value_start.
    apply orb_true_iff in Hc as [-> | ->]; [reflexivity|].
    now rewrite orb_true_r.
Qed.

Lemma parse_value_number (f : nat) (c : ascii) (r : string) :
  (is_digit c || Ascii.eqb c "-") = true →
  parse_value (S f) (String c r)
  = match parse_number (String c r) with
    | Some (n, r') => POk (VNum n) r'
    | None => PErr
    end.
Proof.
  destruct c as [[] [] [] [] [] [] [] []]; simpl; intros H;
    try discriminate H; reflexivity.
Qed.

Lemma items_text_length (close : ascii) (ts : list string) :
  (length ts ≤ String.length (items_text close ts))%nat ∧
  Forall (fun t => (String.length t < String.length (items_text close ts))%nat) ts.
Proof.
  induction ts as [|t ts [IH1 IH2]]; [split; [simpl; lia | constructor]|].
  destruct ts as [|t' ts].
  - cbn [items_text]. rewrite length_append. simpl. split; [lia|].
    constructor; [lia | constructor].
  - cbn [items_text] in *. rewrite length_append.
    cbn [String.length length] in *. split; [lia|].
    constructor; [lia|]. eapply Forall_impl; [exact IH2|].
    cbn beta. intros; lia.
Qed.

Lemma parse_elems_items (pv : string → pres value) (vs : list value)
    (rest : string) (f : nat) :
  Forall (fun v => ∀ r, val_end r = true → pv (render v +:+ r) = POk v r) vs →
  vs ≠ [] → (length vs ≤ f)%nat →
  parse_elems pv f (items_text "]" (map render vs) +:+ rest) = POk vs rest.
Proof.
  intros Hall. revert f. induction Hall as [|v vs Hv _ IH]; [congruence|].
  intros f _ Hf. destruct f as [|f]; [simpl in Hf; lia|].
  destruct vs as [|v' vs].
  - cbn [map items_text parse_elems]. rewrite append_assoc.
    rewrite Hv by reflexivity. reflexivity.
  - cbn [map items_text parse_elems]. rewrite append_assoc.
    rewrite Hv by reflexivity.
    cbn [String.append skip_ws is_ws]. simpl (eat "," _).
    cbv iota beta. rewrite IH; [reflexivity | congruence | simpl in *; lia].
Qed.

Lemma parse_members_items (pv : string → pres value)
    (ms : list (string * value)) (rest : string) (f : nat) :
  Forall (fun kv => ∀ r, val_end r = true →
                         pv (render (snd kv) +:+ r) = POk (snd kv) r) ms →
  ms ≠ [] → (length ms ≤ f)%nat →
  parse_members pv f
    (items_text "}"
       (map (fun kv => quote (fst kv) +:+ String ":" (render (snd kv))) ms)
     +:+ rest)
  = POk ms rest.
Proof.
  intros Hall. revert f. induction Hall as [|[k v] ms Hv _ IH]; [congruence|].
  intros f _ Hf. destruct f as [|f]; [simpl in Hf; lia|].
  assert (Hstep : ∀ tail,
    match eat dquote (skip_ws ((quote k +:+ String ":" (render v)) +:+ tail)) with
    | Some r =>
        match parse_chars r with
        | Some (k', r1) =>
            match eat ":" (skip_ws r1) with
            | Some r2 => Some (k', r2)
            | None => None
            end
        | None => None
        end
    | None => None
    end = Some (k, render v +:+ tail)).
  { intros tail. unfold quote. cbn [String.append skip_ws].
    change (is_ws dquote) with false. cbv iota.
    rewrite eat_same, !append_assoc, parse_chars_quote_body.
    reflexivity. }
  simpl snd in Hv. simpl fst in *.
  destruct ms as [|kv' ms].
  - cbn [map items_text parse_members fst snd]. rewrite append_assoc.
    specialize (Hstep (String "}" rest)). cbn [String.append] in Hstep |- *.
    destruct (eat dquote _) as [r|]; [|discriminate Hstep].
    destruct (parse_chars r) as [[k' r1]|]; [|discriminate Hstep].
    destruct (eat ":" (skip_ws r1)) as [r2|]; [|discriminate Hstep].
    injection Hstep as -> ->. rewrite Hv by reflexivity. reflexivity.
  - cbn [map items_text parse_members fst snd]. rewrite append_assoc.
    set (tail := items_text "}" _ +:+ rest) in *.
    specialize (Hstep (String "," tail)). cbn [String.append] in Hstep |- *.
    destruct (eat dquote _) as [r|]; [|discriminate Hstep].
    destruct (parse_chars r) as [[k' r1]|]; [|discriminate Hstep].
    destruct (eat ":" (skip_ws r1)) as [r2|]; [|discriminate Hstep].
    injection Hstep as -> ->. rewrite Hv by reflexivity.
    cbn [skip_ws is_ws]. simpl (eat "," _). cbv iota beta.
    subst tail. rewrite IH; [reflexivity | congruence | simpl in *; lia].
Qed.

Lemma obj_set_fresh {A : Type} (k : string) (v : A) (l : list (string * A)) :
  k ∉ map fst l → obj_set k v l = l ++ [(k, v)].
Proof.
  induction l as [|[k' v'] l IH]; [reflexivity|]. simpl. intros Hk.
  destruct (String.eqb_spec k k') as [->|Hne].
  - exfalso. apply Hk. left.
  - rewrite IH; [reflexivity|]. intros Hin. apply Hk. now right.
Qed.

Lemma build_object_fresh (ms acc : list (string * value)) :
  NoDup (map fst (acc ++ ms)) →
  fold_left (fun o kv => obj_set (fst kv) (snd kv) o) ms acc = acc ++ ms.
Proof.
  revert acc. induction ms as [|[k v] ms IH]; intros acc Hnd.
  - simpl. now rewrite app_nil_r.
  - cbn [fold_left fst snd]. rewrite obj_set_fresh.
    + rewrite IH; rewrite <- app_assoc; [reflexivity | exact Hnd].
    + rewrite map_app in Hnd. apply NoDup_app in Hnd as (_ & Hd & _).
      intros Hin. apply (Hd k Hin). left.
Qed.

Lemma build_object_nodup (ms : list (string * value)) :
  NoDup (map fst ms) → build_object ms = VObj ms.
Proof. intros H. unfold build_object. now rewrite build_object_fresh. Qed.

Lemma parse_value_array (f : nat) (r : string) :
  parse_value (S f) (String "[" r)
  = match eat "]" (skip_ws r) with
    | Some r' => POk (VArr []) r'
    | None =>
        match parse_elems (parse_value f) f r with
        | POk vs r' => POk (VArr vs) r'
        | PErr => PErr
        | PFuel => PFuel
        end
    end.
Proof. reflexivity. Qed.

Lemma parse_value_object (f : nat) (r : string) :
  parse_value (S f) (String "{" r)
  = match eat "}" (skip_ws r) with
    | Some r' => POk (VObj []) r'
    | None =>
        match parse_members (parse_value f) f r with
        | POk ms r' => POk (build_object ms) r'
        | PErr => PErr
        | PFuel => PFuel
        end
    end.
Proof. reflexivity. Qed.

Lemma parse_value_string (f : nat) (r : string) :
  parse_value (S f) (String dquote r)
  = match parse_chars r with
    | Some (t, r') => POk (VStr t) r'
    | None => PErr
    end.
Proof. reflexivity. Qed.

Lemma parse_render (v : value) :
  json_value v = true →
  ∀ f rest, (String.length (render v) < f)%nat → val_end rest = true →
            parse_value f (render v +:+ rest) = POk v rest.
Proof.
  induction v as [| |b|n|z|s|l IH|l IH] using value_ind; intros Hj f rest Hf Hr;
    try discriminate Hj; (destruct f as [|f]; [lia|]).
  - reflexivity.
  - destruct b; reflexivity.
  - destruct n as [| | |m d]; try discriminate Hj.
    cbn [render ser_number].
    destruct (dec_text_head m d) as (c & r & E & Hc).
    pose proof (parse_number_text m d rest Hj (val_end_num_end rest Hr)) as Hp.
    rewrite E in *. cbn [String.append] in *.
    rewrite (parse_value_number f c _ Hc), Hp. reflexivity.
  - cbn [render quote String.append].
    rewrite parse_value_string, parse_chars_quote_body. reflexivity.
  - cbn [render] in *. cbn [String.length] in Hf.
    cbn [String.append]. rewrite parse_value_array.
    destruct l as [|v l]; [reflexivity|].
    cbn [json_value forallb] in Hj. apply andb_true_iff in Hj as [Hv Hl].
    destruct (render_head v Hv) as (c & r & E & Hc).
    destruct (value_start_plain c Hc) as (Hws & Hc1 & _).
    pose proof (items_text_length "]" (map render (v :: l))) as [Hlen Hall].
    rewrite length_map in Hlen.
    assert (Hgo : parse_elems (parse_value f) f
                    (items_text "]" (map render (v :: l)) +:+ rest)
                  = POk (v :: l) rest).
    { apply parse_elems_items; [|congruence|lia].
      rewrite Forall_forall in IH. rewrite Forall_forall in Hall.
      apply Forall_forall. intros x Hx r0 Hr'.
      apply IH; [exact Hx| | |exact Hr'].
      - apply elem_of_cons in Hx as [->|Hx]; [exact Hv|].
        rewrite forallb_forall in Hl. apply Hl. now apply list_elem_of_In.
      - assert (Hin : render x ∈ map render (v :: l)).
        { apply list_elem_of_fmap. exists x. split; [reflexivity | exact Hx]. }
        specialize (Hall (render x) Hin). lia. }
    rewrite Hgo.
    assert (Hhead : ∃ r', items_text "]" (map render (v :: l)) +:+ rest
                          = String c r').
    { cbn [map items_text]. rewrite E. destruct (map render l); eexists; reflexivity. }
    destruct Hhead as (r' & ->). cbn [skip_ws]. rewrite Hws. cbn [eat].
    rewrite Hc1. reflexivity.
  - cbn [render] in *. cbn [String.length] in Hf.
    cbn [String.append]. rewrite parse_value_object.
    destruct l as [|kv l]; [reflexivity|].
    cbn [json_value] in Hj. apply andb_true_iff in Hj as [Hj Hnd].
    apply bool_decide_eq_true in Hnd.
    set (mt := fun kv : string * value =>
                 quote (fst kv) +:+ String ":" (render (snd kv))) in *.
    pose proof (items_text_length "}" (map mt (kv :: l))) as [Hlen Hall].
    rewrite length_map in Hlen.
    assert (Hgo : parse_members (parse_value f) f
                    (items_text "}" (map mt (kv :: l)) +:+ rest)
                  = POk (kv :: l) rest).
    { apply parse_members_items; [|congruence|lia].
      rewrite Forall_forall in IH. rewrite Forall_forall in Hall.
      apply Forall_forall. intros x Hx r0 Hr'.
      apply IH; [exact Hx| | |exact Hr'].
      - rewrite forallb_forall in Hj. apply (Hj x). now apply list_elem_of_In.
      - assert (Hin : mt x ∈ map mt (kv :: l)).
        { apply list_elem_of_fmap. exists x. split; [reflexivity | exact Hx]. }
        specialize (Hall (mt x) Hin). subst mt. cbn beta in Hall. rewrite length_append in Hall.
        cbn [String.length] in Hall. lia. }
    rewrite Hgo, (build_object_nodup _ Hnd).
    assert (Hhead : ∃ r', items_text "}" (map mt (kv :: l)) +:+ rest
                          = String dquote r').
    { cbn [map items_text]. subst mt. cbn beta. unfold quote.
      destruct (map _ l); eexists; reflexivity. }
    destruct Hhead as (r' & ->). cbn [skip_ws].
    change (is_ws dquote) with false. cbv iota. cbn [eat].
    change (Ascii.eqb dquote "}") with false. reflexivity.
Qed.

(** [JSON.parse] inverts [JSON.stringify] on JSON values. *)
Lemma JSON_parse_stringify (v : value) :
  json_value v = true →
  JSON.stringify v = Normal (Some (render v)) ∧
  JSON.parse (render v) = Normal v.
Proof.
  intros Hj. split; [apply ser_render, Hj|]. unfold JSON.parse.
  pose proof (parse_render v Hj (S (String.length (render v))) ""
                ltac:(lia) eq_refl) as H.
  rewrite append_nil_r in H. rewrite H. reflexivity.
Qed.

(* ================================================================== *)
(** * What the parser consumes and produces *)

Lemma skip_ws_length (s : string) :
  (String.length (skip_ws s) ≤ String.length s)%nat.
Proof.
  induction s as [|c s IH]; simpl; [lia|].
  destruct (is_ws c); simpl; lia.
Qed.

Lemma eat_length (c : ascii) (s r : string) :
  eat c s = Some r → String.length s = S (String.length r).
Proof.
  destruct s as [|c' s]; simpl; [discriminate|].
  destruct (Ascii.eqb c' c); [|discriminate]. now intros [= ->].
Qed.

Lemma strip_prefix_length (p s r : string) :
  strip_prefix p s = Some r →
  String.length s = (String.length p + String.length r)%nat.
Proof.
  revert s. induction p as [|a p IH]; intros s; simpl.
  - now intros [= ->].
  - destruct s as [|b s]; [discriminate|].
    destruct (Ascii.eqb a b); [|discriminate].
    intros H. simpl. now rewrite (IH _ H).
Qed.

Lemma scan_digits_length (s ds rest : string) :
  scan_digits s = (ds, rest) →
  String.length s = (String.length ds + String.length rest)%nat.
Proof.
  revert ds rest. induction s as [|c s IH]; simpl; intros ds rest.
  - now intros [= <- <-].
  - destruct (is_digit c).
    + destruct (scan_digits s) as [ds' rest'] eqn:E. intros [= <- <-].
      simpl. now rewrite (IH _ _ eq_refl).
    + now intros [= <- <-].
Qed.

Lemma scan_fraction_length (s fp rest : string) :
  scan_fraction s = Some (fp, rest) →
  (String.length rest ≤ String.length s)%nat.
Proof.
  unfold scan_fraction. destruct (eat "." s) as [r|] eqn:E.
  - destruct (scan_digits r) as [ds rest'] eqn:Es.
    apply eat_length in E. apply scan_digits_length in Es.
    destruct ds; [discriminate|]. intros [= <- <-]. lia.
  - intros [= <- <-]. lia.
Qed.

Lemma scan_exponent_length (s : string) (e : Z) (rest : string) :
  scan_exponent s = Some (e, rest) →
  (String.length rest ≤ String.length s)%nat.
Proof.
  unfold scan_exponent. destruct s as [|c r]; [intros [= <- <-]; lia|].
  destruct (Ascii.eqb c "e" || Ascii.eqb c "E"); [|intros [= <- <-]; lia].
  assert (Hsign : ∀ neg r1,
            match eat "+" r, eat "-" r with
            | Some r', _ => (false, r')
            | None, Some r' => (true, r')
            | None, None => (false, r)
            end = (neg, r1) →
            (String.length r1 ≤ String.length r)%nat).
  { intros neg r1. destruct (eat "+" r) as [r'|] eqn:E1.
    - apply eat_length in E1. intros [= <- <-]. lia.
    - destruct (eat "-" r) as [r'|] eqn:E2.
      + apply eat_length in E2. intros [= <- <-]. lia.
      + intros [= <- <-]. lia. }
  destruct (match eat "+" r, eat "-" r with
            | Some r', _ => (false, r')
            | None, Some r' => (true, r')
            | None, None => (false, r)
            end) as [neg r1] eqn:Es.
  specialize (Hsign _ _ eq_refl).
  destruct (scan_digits r1) as [ds rest'] eqn:Ed.
  apply scan_digits_length in Ed. destruct ds; [discriminate|].
  intros [= <- <-]. simpl. lia.
Qed.

Lemma norm_is_normal (m : Z) (d : nat) : normal (norm m d) = true.
Proof.
  revert m. induction d as [|d IH]; intros m; [reflexivity|]. simpl.
  destruct (m mod 10 =? 0) eqn:E; [apply IH|]. simpl. now rewrite E.
Qed.

Lemma make_number_normal (neg : bool) (ip fp : string) (e : Z) :
  normal (make_number neg ip fp e) = true.
Proof. unfold make_number. destruct (0 <=? e); apply norm_is_normal. Qed.

Lemma parse_number_sound (s : string) (n : number) (rest : string) :
  parse_number s = Some (n, rest) →
  normal n = true ∧ (String.length rest < String.length s)%nat.
Proof.
  unfold parse_number.
  destruct (match eat "-" s with
            | Some r => (true, r)
            | None => (false, s)
            end) as [neg s1] eqn:Eneg.
  assert (Hs1 : (String.length s1 ≤ String.length s)%nat).
  { destruct (eat "-" s) as [r|] eqn:E; injection Eneg as <- <-; [|lia].
    apply eat_length in E. lia. }
  destruct (scan_digits s1) as [ip s2] eqn:Eip.
  apply scan_digits_length in Eip.
  destruct ip as [|c ip]; [discriminate|].
  destruct (leading_zero (String c ip)); [discriminate|].
  destruct (scan_fraction s2) as [[fp s3]|] eqn:Efp; [|discriminate].
  apply scan_fraction_length in Efp. cbn [mbind option_bind].
  destruct (scan_exponent s3) as [[e s4]|] eqn:Ee; [|discriminate].
  apply scan_exponent_length in Ee. cbn [mbind option_bind].
  intros [= <- <-]. split; [apply make_number_normal|].
  simpl in Eip. lia.
Qed.

Lemma parse_chars_length (s t rest : string) :
  parse_chars s = Some (t, rest) →
  (String.length rest < String.length s)%nat.
Proof.
  remember (String.length s) as n eqn:Hn. revert s t rest Hn.
  induction n as [n IH] using lt_wf_ind. intros s t rest -> H.
  destruct s as [|c r]; [discriminate|]. cbn [parse_chars] in H.
  destruct (Ascii.eqb c dquote); [injection H as <- <-; simpl; lia|].
  destruct (Ascii.eqb c backslash).
  - destruct r as [|e r']; [discriminate|].
    destruct (Ascii.eqb e "u").
    + destruct r' as [|h1 [|h2 [|h3 [|h4 r'']]]]; try discriminate.
      destruct (hex4 h1 h2 h3 h4); [|discriminate]. cbn [mbind option_bind] in H.
      destruct (parse_chars r'') as [[t' rest']|] eqn:E; [|discriminate].
      injection H as <- <-.
      pose proof (IH (String.length r'') ltac:(simpl; lia) r'' t' rest' eq_refl E).
      simpl. lia.
    + destruct (unescape e); [|discriminate]. cbn [mbind option_bind] in H.
      destruct (parse_chars r') as [[t' rest']|] eqn:E; [|discriminate].
      injection H as <- <-.
      pose proof (IH (String.length r') ltac:(simpl; lia) r' t' rest' eq_refl E).
      simpl. lia.
  - destruct (N_of_ascii c <? 32)%N; [discriminate|].
    destruct (parse_chars r) as [[t' rest']|] eqn:E; [|discriminate].
    cbn [mbind option_bind] in H. injection H as <- <-.
    pose proof (IH (String.length r) ltac:(simpl; lia) r t' rest' eq_refl E).
    simpl. lia.
Qed.

Section Items.

(** An item parser that never runs out of fuel on a text shorter than
    [bound], always consumes something, and produces JSON values. *)
Variable pv : string → pres value.
Variable bound : nat.
Hypothesis pv_fuel :
  ∀ s, (String.length s < bound)%nat → pv s ≠ PFuel.
Hypothesis pv_sound :
  ∀ s v r, pv s = POk v r →
           json_value v = true ∧ (String.length r < String.length s)%nat.

Lemma parse_elems_sound (f : nat) (s : string) :
  ((String.length s < f)%nat → (String.length s < bound)%nat →
   parse_elems pv f s ≠ PFuel) ∧
  (∀ vs r, parse_elems pv f s = POk vs r →
           forallb json_value vs = true ∧
           (String.length r < String.length s)%nat).
Proof using pv_fuel pv_sound.
  revert s. induction f as [|f IH]; intros s.
  { split; [simpl; lia | discriminate]. }
  cbn [parse_elems]. destruct (pv s) as [v r| |] eqn:Ev.
  - destruct (pv_sound _ _ _ Ev) as [Hj Hlen].
    pose proof (skip_ws_length r) as Hws.
    destruct (eat "," (skip_ws r)) as [r'|] eqn:E1.
    + apply eat_length in E1. destruct (IH r') as [IH1 IH2]. split.
      * intros H1 H2. destruct (parse_elems pv f r') eqn:E; try discriminate.
        exfalso. apply IH1; [lia | lia | reflexivity].
      * intros vs r2. destruct (parse_elems pv f r') as [vs' r3| |] eqn:E;
          try discriminate. intros [= <- <-].
        destruct (IH2 _ _ eq_refl) as [Hvs Hr]. simpl. rewrite Hj, Hvs.
        split; [reflexivity | lia].
    + destruct (eat "]" (skip_ws r)) as [r'|] eqn:E2.
      * apply eat_length in E2. split; [discriminate|].
        intros vs r2 [= <- <-]. simpl. rewrite Hj. split; [reflexivity | lia].
      * split; discriminate.
  - split; discriminate.
  - split; [|discriminate]. intros _ H. exfalso. exact (pv_fuel s H Ev).
Qed.

Lemma parse_members_sound (f : nat) (s : string) :
  ((String.length s < f)%nat → (String.length s < bound)%nat →
   parse_members pv f s ≠ PFuel) ∧
  (∀ ms r, parse_members pv f s = POk ms r →
           forallb (fun kv => json_value (snd kv)) ms = true ∧
           (String.length r < String.length s)%nat).
Proof using pv_fuel pv_sound.
  revert s. induction f as [|f IH]; intros s.
  { split; [simpl; lia | discriminate]. }
  cbn [parse_members]. pose proof (skip_ws_length s) as Hws0.
  destruct (eat dquote (skip_ws s)) as [r|] eqn:E0; [|split; discriminate].
  apply eat_length in E0.
  destruct (parse_chars r) as [[k r1]|] eqn:Ek; [|split; discriminate].
  apply parse_chars_length in Ek. pose proof (skip_ws_length r1) as Hws1.
  destruct (eat ":" (skip_ws r1)) as [r2|] eqn:E1; [|split; discriminate].
  apply eat_length in E1.
  destruct (pv r2) as [v r3| |] eqn:Ev.
  - destruct (pv_sound _ _ _ Ev) as [Hj Hlen].
    pose proof (skip_ws_length r3) as Hws3.
    destruct (eat "," (skip_ws r3)) as [r4|] eqn:E2.
    + apply eat_length in E2. destruct (IH r4) as [IH1 IH2]. split.
      * intros H1 H2. destruct (parse_members pv f r4) eqn:E; try discriminate.
        exfalso. apply IH1; [lia | lia | reflexivity].
      * intros ms r5. destruct (parse_members pv f r4) as [ms' r6| |] eqn:E;
          try discriminate. intros [= <- <-].
        destruct (IH2 _ _ eq_refl) as [Hms Hr]. simpl. rewrite Hj, Hms.
        split; [reflexivity | lia].
    + destruct (eat "}" (skip_ws r3)) as [r4|] eqn:E3.
      * apply eat_length in E3. split; [discriminate|].
        intros ms r5 [= <- <-]. simpl. rewrite Hj. split; [reflexivity | lia].
      * split; discriminate.
  - split; discriminate.
  - split; [|discriminate]. intros _ H. exfalso. apply (pv_fuel r2); [lia | exact Ev].
Qed.

End Items.

Lemma obj_set_keys {A : Type} (k x : string) (v : A) (l : list (string * A)) :
  x ∈ map fst (obj_set k v l) → x = k ∨ x ∈ map fst l.
Proof.
  induction l as [|[k' v'] l IH]; simpl.
  - intros [->|[]%elem_of_nil]%elem_of_cons. now left.
  - destruct (String.eqb_spec k k') as [->|Hne]; simpl.
    + intros H. now right.
    + intros [->|H]%elem_of_cons; [right; left|].
      destruct (IH H) as [->|H']; [now left | right; now right].
Qed.

Lemma obj_set_nodup {A : Type} (k : string) (v : A) (l : list (string * A)) :
  NoDup (map fst l) → NoDup (map fst (obj_set k v l)).
Proof.
  induction l as [|[k' v'] l IH]; simpl; intros Hnd.
  - apply NoDup_singleton.
  - apply NoDup_cons in Hnd as [Hk' Hnd].
    destruct (String.eqb_spec k k') as [->|Hne]; simpl.
    + apply NoDup_cons. split; assumption.
    + apply NoDup_cons. split; [|apply IH, Hnd].
      intros [->|H]%obj_set_keys; [congruence | contradiction].
Qed.

Lemma obj_set_json (k : string) (v : value) (l : list (string * value)) :
  json_value v = true →
  forallb (fun kv => json_value (snd kv)) l = true →
  forallb (fun kv => json_value (snd kv)) (obj_set k v l) = true.
Proof.
  intros Hv. induction l as [|[k' v'] l IH]; simpl.
  - now rewrite Hv.
  - intros [H1 H2]%andb_true_iff. destruct (String.eqb k k'); simpl.
    + now rewrite Hv, H2.
    + now rewrite H1, (IH H2).
Qed.

Lemma build_object_json (ms : list (string * value)) :
  forallb (fun kv => json_value (snd kv)) ms = true →
  json_value (build_object ms) = true.
Proof.
  unfold build_object.
  assert (H : ∀ acc,
            forallb (fun kv => json_value (snd kv)) acc = true →
            NoDup (map fst acc) →
            forallb (fun kv => json_value (snd kv)) ms = true →
            json_value
              (VObj (fold_left (fun o kv => obj_set (fst kv) (snd kv) o) ms acc))
            = true).
  { induction ms as [|[k v] ms IH]; intros acc Hacc Hnd Hms.
    - simpl. rewrite Hacc. now apply bool_decide_eq_true.
    - simpl in Hms. apply andb_true_iff in Hms as [Hv Hms].
      cbn [fold_left fst snd]. apply IH.
      + apply obj_set_json; assumption.
      + apply obj_set_nodup, Hnd.
      + exact Hms. }
  intros Hms. apply H; [reflexivity | apply NoDup_nil_2 | exact Hms].
Qed.

(** With fuel beyond the length of the text the parser never runs out
    of it; a parsed value is a JSON value, and parsing it consumed
    something. *)
Lemma parse_value_sound (f : nat) (s : string) :
  ((String.length s < f)%nat → parse_value f s ≠ PFuel) ∧
  (∀ v r, parse_value f s = POk v r →
          json_value v = true ∧ (String.length r < String.length s)%nat).
Proof.
  revert s. induction f as [|f IH]; intros s.
  { split; [lia | discriminate]. }
  cbn [parse_value]. pose proof (skip_ws_length s) as Hws.
  destruct (skip_ws s) as [|c r0]; [split; discriminate|].
  cbn [String.length] in Hws.
  destruct (Ascii.eqb c "n").
  { destruct (strip_prefix "ull" r0) as [r'|] eqn:E; [|split; discriminate].
    apply strip_prefix_length in E. split; [discriminate|].
    intros v r [= <- <-]. split; [reflexivity | lia]. }
  destruct (Ascii.eqb c "t").
  { destruct (strip_prefix "rue" r0) as [r'|] eqn:E; [|split; discriminate].
    apply strip_prefix_length in E. split; [discriminate|].
    intros v r [= <- <-]. split; [reflexivity | lia]. }
  destruct (Ascii.eqb c "f").
  { destruct (strip_prefix "alse" r0) as [r'|] eqn:E; [|split; discriminate].
    apply strip_prefix_length in E. split; [discriminate|].
    intros v r [= <- <-]. split; [reflexivity | lia]. }
  destruct (Ascii.eqb c dquote).
  { destruct (parse_chars r0) as [[t r']|] eqn:E; [|split; discriminate].
    apply parse_chars_length in E. split; [discriminate|].
    intros v r [= <- <-]. split; [reflexivity | lia]. }
  assert (Hfuel : ∀ s', (String.length s' < f)%nat → parse_value f s' ≠ PFuel)
    by (intros s'; apply IH).
  assert (Hsound : ∀ s' v r, parse_value f s' = POk v r →
                             json_value v = true ∧
                             (String.length r < String.length s')%nat)
    by (intros s'; apply IH).
  destruct (Ascii.eqb c "[").
  { pose proof (skip_ws_length r0) as Hws0.
    destruct (eat "]" (skip_ws r0)) as [r'|] eqn:E.
    - apply eat_length in E. split; [discriminate|].
      intros v r [= <- <-]. split; [reflexivity | lia].
    - destruct (parse_elems_sound (parse_value f) f Hfuel Hsound f r0)
        as [H1 H2].
      destruct (parse_elems (parse_value f) f r0) as [vs r'| |] eqn:Ep.
      + destruct (H2 _ _ eq_refl) as [Hj Hlen]. split; [discriminate|].
        intros v r [= <- <-]. split; [exact Hj | lia].
      + split; discriminate.
      + split; [|discriminate]. intros Hf _. apply H1; [lia | lia | reflexivity]. }
  destruct (Ascii.eqb c "{").
  { pose proof (skip_ws_length r0) as Hws0.
    destruct (eat "}" (skip_ws r0)) as [r'|] eqn:E.
    - apply eat_length in E. split; [discriminate|].
      intros v r [= <- <-]. split; [reflexivity | lia].
    - destruct (parse_members_sound (parse_value f) f Hfuel Hsound f r0)
        as [H1 H2].
      destruct (parse_members (parse_value f) f r0) as [ms r'| |] eqn:Ep.
      + destruct (H2 _ _ eq_refl) as [Hj Hlen]. split; [discriminate|].
        intros v r [= <- <-]. split; [apply build_object_json, Hj | lia].
      + split; discriminate.
      + split; [|discriminate]. intros Hf _. apply H1; [lia | lia | reflexivity]. }
  destruct (parse_number (String c r0)) as [[n r']|] eqn:E; [|split; discriminate].
  apply parse_number_sound in E as [Hn Hlen]. cbn [String.length] in Hlen.
  split; [discriminate|]. intros v r [= <- <-]. split; [exact Hn | lia].
Qed.

(** [JSON.parse] never fails for lack of fuel. *)
Lemma JSON_parse_fuel (text : string) :
  parse_value (S (String.length text)) text ≠ PFuel.
Proof. apply parse_value_sound. lia. Qed.

(** Whatever [JSON.parse] returns is a JSON value. *)
Lemma JSON_parse_json (text : string) (v : value) :
  JSON.parse text = Normal v → json_value v = true.
Proof.
  unfold JSON.parse.
  destruct (parse_value (S (String.length text)) text) as [v' r| |] eqn:E;
    try discriminate.
  destruct (skip_ws r); [|discriminate]. intros [= <-].
  apply (parse_value_sound _ _) in E. apply E.
Qed.

(* ================================================================== *)
(** * The substrate *)

Ltac unfold_api :=
  unfold CacheManager.set, CacheManager.get, CacheManager.remove,
    CacheManager.isAvailable, CacheManager.clear, CacheManager.getStats;
  unfold localStorage.getItem, localStorage.setItem, localStorage.removeItem,
    localStorage.keys, console.warn, console.log, console.print;
  unfold try_catch, bind, ret, lift, update_items; cbv beta.

Ltac unfold_ops := unfold_api; unfold access, advance; cbv beta.

Lemma reliable_not_faulting (w : world) : reliable w → ¬ faulting w.
Proof.
  unfold reliable, faulting. intros H [fs E]. rewrite E in H.
  inversion H; discriminate.
Qed.

Lemma reliable_advance (w : world) : reliable w → reliable (advance w).
Proof.
  unfold reliable, advance. simpl. destruct (faults w) as [|b fs]; simpl.
  - intros _. constructor.
  - now inversion 1.
Qed.

Lemma access_ok (w : world) : ¬ faulting w → access w = (Normal tt, advance w).
Proof.
  unfold access, faulting. destruct (faults w) as [|[] fs]; try reflexivity.
  intros H. exfalso. apply H. eauto.
Qed.

Lemma access_fault (w : world) :
  faulting w → access w = (Throw DOMException, advance w).
Proof. unfold access. intros [fs ->]. reflexivity. Qed.

Lemma faulting_dec (w : world) : faulting w ∨ ¬ faulting w.
Proof.
  unfold faulting. destruct (faults w) as [|[] fs]; eauto;
    right; intros [fs' E]; discriminate.
Qed.

Lemma stringify_object (l : list (string * value)) :
  (∃ text, JSON.stringify (VObj l) = Normal (Some text)) ∨
  (∃ e, JSON.stringify (VObj l) = Throw e).
Proof.
  unfold JSON.stringify. cbn [ser].
  destruct (sequence _) as [os|e]; [left | right]; eauto.
Qed.

Lemma remove_spec (key : string) (w : world) :
  ∃ w', CacheManager.remove key w = (Normal tt, w') ∧
        faults w' = tail (faults w) ∧
        (¬ faulting w → items w' = delete (cache_key key) (items w)
                        ∧ console_out w' = console_out w) ∧
        (faulting w → items w' = items w).
Proof.
  unfold_ops. destruct w as [m fs out]. unfold faulting. simpl.
  destruct fs as [|[] fs]; simpl; eexists; (split; [reflexivity|]); simpl;
    (split; [reflexivity|]); split; intros H; auto;
    solve [ exfalso; apply H; eauto | destruct H as [? [=]] ].
Qed.

(* ================================================================== *)
(** * set *)

(** [set] either writes the whole record and returns [true], or leaves
    the substrate as it was and returns [false]; the latter exactly when
    serialization throws or the write faults. *)
Lemma set_spec (now : Z) (key : string) (data ttl : value) (w : world) :
  (∃ text w',
      JSON.stringify (make_entry now data ttl) = Normal (Some text) ∧
      ¬ faulting w ∧
      CacheManager.set now key data ttl w = (Normal true, w') ∧
      items w' = <[cache_key key := text]> (items w) ∧
      faults w' = tail (faults w)) ∨
  (∃ w',
      ((∃ e, JSON.stringify (make_entry now data ttl) = Throw e) ∨ faulting w) ∧
      CacheManager.set now key data ttl w = (Normal false, w') ∧
      items w' = items w).
Proof.
  unfold CacheManager.set, make_entry.
  destruct (stringify_object
              [("data", data); ("timestamp", VNum (Int now)); ("ttl", ttl)])
    as [[text E]|[e E]].
  - destruct (faulting_dec w) as [Hf|Hf].
    + right. unfold_api. rewrite E, (access_fault w Hf). eexists.
      split; [now right|]. split; reflexivity.
    + left. unfold_api. rewrite E, (access_ok w Hf). eexists text, _.
      repeat split; [exact Hf | reflexivity..].
  - right. unfold_api. rewrite E. eexists.
    split; [left; eauto|]. split; reflexivity.
Qed.

(** C3.  A failing serialization or storage write makes [set] return
    [false] without throwing and leaves the substrate untouched;
    otherwise the new record is fully written and [set] returns [true]. *)
Theorem set_all_or_nothing (now : Z) (key : string) (data ttl : value)
    (w : world) :
  let entry := make_entry now data ttl in
  let '(r, w') := CacheManager.set now key data ttl w in
  (((∃ e, JSON.stringify entry = Throw e) ∨ faulting w) ∧
   r = Normal false ∧ items w' = items w) ∨
  (∃ text, JSON.stringify entry = Normal (Some text) ∧ ¬ faulting w ∧
           r = Normal true ∧
           items w' = <[cache_key key := text]> (items w)).
Proof.
  cbv zeta.
  destruct (set_spec now key data ttl w)
    as [(text & w' & E & Hf & -> & Hi & _)|(w' & Hc & -> & Hi)].
  - right. eauto.
  - left. auto.
Qed.

(** Serialization does fail for some payloads: a BigInt anywhere in the
    data makes [JSON.stringify] throw. *)
Example set_bigint_fails :
  CacheManager.set 5 "k" (VArr [VBigInt 1]) (VNum (Int 1000))
    (World {[ "cache_k" := "old" ]} [] [])
  = (Normal false,
     World {[ "cache_k" := "old" ]} [] [Warn "Failed to cache data:" TypeError]).
Proof. reflexivity. Qed.

(** A faulting write leaves the previous record in place. *)
Example set_quota_fails :
  CacheManager.set 5 "k" (VNum (Int 7)) (VNum (Int 1000))
    (World {[ "cache_k" := "old" ]} [true] [])
  = (Normal false,
     World {[ "cache_k" := "old" ]} []
       [Warn "Failed to cache data:" DOMException]).
Proof. reflexivity. Qed.

(* ================================================================== *)
(** * get *)

Lemma get_miss (now : Z) (key : string) (w : world) :
  ¬ faulting w →
  items w !! cache_key key = None ∨ items w !! cache_key key = Some "" →
  CacheManager.get now key w = (Normal VNull, advance w).
Proof.
  intros Hf Hm. unfold_api. rewrite (access_ok w Hf). cbn [items advance].
  destruct Hm as [-> | ->]; reflexivity.
Qed.

Lemma get_read (now : Z) (key text : string) (w : world) :
  ¬ faulting w → items w !! cache_key key = Some text → text ≠ "" →
  CacheManager.get now key w
  = match JSON.parse text with
    | Throw e => get_recover key e (advance w)
    | Normal entry =>
        match expired now entry with
        | Throw e => get_recover key e (advance w)
        | Normal true => (CacheManager.remove key ;; ret VNull) (advance w)
        | Normal false =>
            match get_prop entry "data" with
            | Normal d => (Normal d, advance w)
            | Throw e => get_recover key e (advance w)
            end
        end
    end.
Proof.
  intros Hf Hm Hne. unfold CacheManager.get, get_recover.
  unfold try_catch at 1. unfold bind at 1. unfold localStorage.getItem.
  unfold bind at 1. rewrite (access_ok w Hf). cbn [items advance].
  rewrite Hm. destruct text as [|c r]; [contradiction|].
  unfold bind at 1, lift at 1. destruct (JSON.parse (String c r)) as [entry|e];
    [|reflexivity].
  unfold bind at 1, lift at 1. destruct (expired now entry) as [[]|e];
    [| |reflexivity].
  - unfold CacheManager.remove, try_catch, bind, ret.
    destruct (localStorage.removeItem _ _) as [[] ?]; [reflexivity|].
    unfold console.warn, console.print. reflexivity.
  - unfold lift. destruct (get_prop entry "data"); reflexivity.
Qed.

Lemma get_recover_spec (key : string) (e : error) (w : world) :
  ∃ w', get_recover key e w = (Normal VNull, w') ∧
        faults w' = tail (faults w) ∧
        (¬ faulting w → items w' = delete (cache_key key) (items w)) ∧
        (faulting w → items w' = items w).
Proof.
  unfold get_recover, bind, ret, console.warn, console.print.
  set (w0 := World (items w) (faults w) _).
  destruct (remove_spec key w0) as (w' & E & Hfs & Hok & Hbad).
  rewrite E. exists w'. split; [reflexivity|]. split; [exact Hfs|].
  split; intros H; [apply Hok | apply Hbad]; exact H.
Qed.

Lemma get_evict_spec (key : string) (w : world) :
  ∃ w', (CacheManager.remove key ;; ret VNull) w = (Normal VNull, w') ∧
        faults w' = tail (faults w) ∧
        (¬ faulting w → items w' = delete (cache_key key) (items w)) ∧
        (faulting w → items w' = items w).
Proof.
  unfold bind, ret.
  destruct (remove_spec key w) as (w' & E & Hfs & Hok & Hbad).
  rewrite E. exists w'. split; [reflexivity|]. split; [exact Hfs|].
  split; intros H; [apply Hok | apply Hbad]; exact H.
Qed.

(* ================================================================== *)
(** * Expiry *)

Lemma num_sub_int (a b : Z) : num_sub (Int a) (Int b) = Int (a - b).
Proof.
  unfold num_sub, Int. cbn [b64 dec_sub Nat.add norm]. f_equal.
  change (10 ^ Z.of_nat 0) with 1. lia.
Qed.

Lemma num_lt_int (a b : Z) : num_lt (Int a) (Int b) = (a <? b).
Proof.
  unfold num_lt, Int. cbn [b64 dec_lt]. change (10 ^ Z.of_nat 0) with 1.
  f_equal; lia.
Qed.

(** On a record written by [set] with an integer [ttl], the test is
    [now - timestamp > ttl]. *)
Lemma expired_entry (now ts t : Z) (data : value) :
  expired now (make_entry ts data (VNum (Int t))) = Normal (t <? now - ts).
Proof.
  unfold expired, make_entry. cbn [get_prop assoc String.eqb Ascii.eqb Bool.eqb].
  cbn [default from_option id minus to_number greater].
  now rewrite num_sub_int, num_lt_int.
Qed.

Lemma make_entry_json (now t : Z) (data : value) :
  json_value data = true →
  json_value (make_entry now data (VNum (Int t))) = true.
Proof.
  intros H. cbn [make_entry json_value forallb snd]. rewrite H. reflexivity.
Qed.

Lemma render_object_nonempty (l : list (string * value)) :
  render (VObj l) ≠ "".
Proof. discriminate. Qed.

(** What [set] stores for a JSON payload and an integer [ttl], and how
    it reads back. *)
Lemma stored_entry (now t : Z) (data : value) :
  json_value data = true →
  let entry := make_entry now data (VNum (Int t)) in
  JSON.stringify entry = Normal (Some (render entry)) ∧
  JSON.parse (render entry) = Normal entry ∧
  render entry ≠ "".
Proof.
  intros H entry.
  destruct (JSON_parse_stringify entry (make_entry_json now t data H)) as [E1 E2].
  repeat split; [exact E1 | exact E2 | apply render_object_nonempty].
Qed.

(** Reading a record written by [set], on a substrate that works. *)
Lemma get_stored (now now' t : Z) (key : string) (data : value) (w : world) :
  json_value data = true → reliable w →
  items w !! cache_key key
  = Some (render (make_entry now data (VNum (Int t)))) →
  (now' - now ≤ t →
   CacheManager.get now' key w = (Normal data, advance w)) ∧
  (t < now' - now →
   ∃ w', CacheManager.get now' key w = (Normal VNull, w') ∧
         items w' = delete (cache_key key) (items w) ∧
         reliable w').
Proof.
  intros Hj Hrel Hm. destruct (stored_entry now t data Hj) as (_ & Hp & Hne).
  pose proof (get_read now' key _ w (reliable_not_faulting w Hrel) Hm Hne) as Hg.
  rewrite Hp, expired_entry in Hg. split; intros Ht.
  - destruct (Z.ltb_spec t (now' - now)); [lia|]. exact Hg.
  - destruct (Z.ltb_spec t (now' - now)); [|lia].
    destruct (get_evict_spec key (advance w)) as (w' & E & Hfs & Hok & _).
    exists w'. rewrite Hg. split; [exact E|]. split.
    + apply Hok, reliable_not_faulting, reliable_advance, Hrel.
    + unfold reliable in *. rewrite Hfs. cbn [advance faults].
      destruct (faults w) as [|b [|b' fs]]; simpl; try constructor.
      inversion Hrel as [|? ? _ H2]. now inversion H2.
Qed.

(* ================================================================== *)
(** * getStats *)

Lemma count_spec (now : Z) (acc : nat * nat * nat) (key : string) (w : world) :
  (¬ faulting w →
   CacheManager.count now acc key w
   = (Normal (CacheManager.tally now acc (items w !! key)), advance w)) ∧
  (faulting w →
   CacheManager.count now acc key w = (Throw DOMException, advance w)).
Proof.
  unfold CacheManager.count, localStorage.getItem, bind, ret.
  split; intros H; [rewrite (access_ok w H) | rewrite (access_fault w H)];
    reflexivity.
Qed.

Lemma fold_count_items (now : Z) (ks : list string) (acc : nat * nat * nat)
    (w : world) :
  items (snd (fold_m (CacheManager.count now) ks acc w)) = items w ∧
  console_out (snd (fold_m (CacheManager.count now) ks acc w)) = console_out w.
Proof.
  revert acc w. induction ks as [|key ks IH]; intros acc w; [split; reflexivity|].
  cbn [fold_m]. unfold bind.
  destruct (count_spec now acc key w) as [Hok Hbad].
  destruct (faulting_dec w) as [Hf|Hf].
  - rewrite (Hbad Hf). split; reflexivity.
  - rewrite (Hok Hf). destruct (IH (CacheManager.tally now acc (items w !! key))
                                  (advance w)) as [-> ->].
    split; reflexivity.
Qed.

Lemma fold_count_reliable (now : Z) (ks : list string)
    (acc : nat * nat * nat) (w : world) :
  reliable w →
  ∃ w', fold_m (CacheManager.count now) ks acc w
        = (Normal (fold_left
                     (fun a key => CacheManager.tally now a (items w !! key))
                     ks acc), w') ∧
        items w' = items w ∧ console_out w' = console_out w ∧ reliable w'.
Proof.
  revert acc w. induction ks as [|key ks IH]; intros acc w Hrel.
  - exists w. repeat split; auto.
  - cbn [fold_m fold_left]. unfold bind.
    destruct (count_spec now acc key w) as [Hok _].
    rewrite (Hok (reliable_not_faulting w Hrel)).
    destruct (IH (CacheManager.tally now acc (items w !! key)) (advance w)
                (reliable_advance w Hrel)) as (w' & E & Hi & Hc & Hr).
    exists w'. rewrite E. repeat split; assumption.
Qed.

Lemma fold_tally (now : Z) (m : gmap string string) (ks : list string)
    (s v e : nat) :
  fold_left (fun a key => CacheManager.tally now a (m !! key)) ks (s, v, e)
  = ((s + sum_list (map (fun key => from_option js_length 0 (m !! key)) ks),
      v + length (filter (fun key => CacheManager.classify now (m !! key)
                                     = Some false) ks),
      e + length (filter (fun key => CacheManager.classify now (m !! key)
                                     = Some true) ks)))%nat.
Proof.
  revert s v e. induction ks as [|key ks IH]; intros s v e.
  - simpl. rewrite !pair_equal_spec. lia.
  - cbn [fold_left map sum_list]. unfold CacheManager.tally at 2.
    rewrite !filter_cons.
    destruct (CacheManager.classify now (m !! key)) as [[]|] eqn:E;
      rewrite IH; repeat case_decide; try congruence;
      cbn [length]; unfold id; rewrite !pair_equal_spec; lia.
Qed.

Lemma getStats_reliable (now : Z) (w : world) :
  reliable w →
  ∃ st w',
    CacheManager.getStats now w = (Normal (Some st), w') ∧
    items w' = items w ∧ reliable w' ∧
    totalEntries st = length (cache_keys (items w)) ∧
    validEntries st
    = length (filter (fun key => CacheManager.classify now (items w !! key)
                                 = Some false) (cache_keys (items w))) ∧
    expiredEntries st
    = length (filter (fun key => CacheManager.classify now (items w !! key)
                                 = Some true) (cache_keys (items w))) ∧
    totalSizeBytes st
    = sum_list (map (fun key => from_option js_length 0%nat (items w !! key))
                  (cache_keys (items w))).
Proof.
  intros Hrel. unfold CacheManager.getStats, try_catch.
  unfold bind at 1. unfold localStorage.keys, bind at 1.
  rewrite (access_ok w (reliable_not_faulting w Hrel)). cbn [items advance].
  fold (cache_keys (items w)). unfold bind.
  destruct (fold_count_reliable now (cache_keys (items w)) (0, 0, 0)%nat
              (advance w) (reliable_advance w Hrel))
    as (w' & E & Hi & _ & Hr).
  rewrite E. cbn [items advance] in *. rewrite fold_tally.
  unfold ret. eexists _, w'. split; [reflexivity|].
  repeat split; auto.
Qed.




Lemma getStats_any (now : Z) (w : world) :
  ∃ o w', CacheManager.getStats now w = (Normal o, w') ∧
          items w' = items w ∧
          (faulting w → o = None).
Proof.
  unfold CacheManager.getStats, try_catch.
  unfold bind at 1. unfold localStorage.keys, bind at 1.
  destruct (faulting_dec w) as [Hf|Hf].
  - rewrite (access_fault w Hf). unfold bind, console.warn, console.print, ret.
    eexists _, _. split; [reflexivity|]. split; [reflexivity | auto].
  - rewrite (access_ok w Hf). cbn [items advance].
    set (ks := filter _ _). unfold bind at 1.
    pose proof (fold_count_items now ks (0, 0, 0)%nat (advance w)) as [Hi _].
    destruct (fold_m _ ks _ (advance w)) as [[[[s v] e]|err] w'].
    + unfold ret. eexists _, w'. split; [reflexivity|].
      split; [exact Hi | contradiction].
    + unfold bind, console.warn, console.print, ret.
      eexists _, _. split; [reflexivity|]. split; [exact Hi | contradiction].
Qed.

(* ================================================================== *)
(** * clear *)

Lemma for_each_sweep (ks : list string) (w : world) :
  reliable w →
  ∃ w', for_each ks
          (fun key => if is_cache_key key then localStorage.removeItem key
                      else ret tt) w
        = (Normal tt, w') ∧
        items w' = fold_left sweep ks (items w) ∧
        console_out w' = console_out w ∧ reliable w'.
Proof.
  revert w. induction ks as [|key ks IH]; intros w Hrel.
  - exists w. repeat split; auto.
  - cbn [for_each fold_left]. unfold bind at 1. unfold sweep at 2.
    destruct (is_cache_key key).
    + unfold localStorage.removeItem, bind, update_items.
      rewrite (access_ok w (reliable_not_faulting w Hrel)).
      cbn [items advance faults console_out].
      set (w1 := World (delete key (items w)) _ _).
      destruct (IH w1) as (w' & E & Hi & Hc & Hr).
      { apply (reliable_advance w Hrel). }
      fold (bind (A := unit) (B := unit)) in E.
      exists w'. split; [exact E|]. repeat split; assumption.
    + unfold ret. destruct (IH w Hrel) as (w' & E & Hi & Hc & Hr).
      exists w'. split; [exact E|]. repeat split; assumption.
Qed.

Lemma sweep_lookup (ks : list string) (m : gmap string string) (key : string) :
  fold_left sweep ks m !! key
  = if is_cache_key key && bool_decide (key ∈ ks) then None else m !! key.
Proof.
  revert m. induction ks as [|k ks IH]; intros m.
  - cbn [fold_left]. rewrite bool_decide_eq_false_2 by apply not_elem_of_nil.
    now rewrite andb_false_r.
  - cbn [fold_left]. rewrite IH. unfold sweep.
    destruct (is_cache_key key) eqn:Ek; cbn [andb].
    + destruct (decide (key ∈ ks)) as [Hin|Hin].
      * rewrite !bool_decide_eq_true_2; [reflexivity | now right | exact Hin].
      * rewrite (bool_decide_eq_false_2 _ Hin).
        destruct (decide (key = k)) as [->|Hne].
        -- rewrite Ek, lookup_delete_eq.
           rewrite bool_decide_eq_true_2 by left. reflexivity.
        -- rewrite bool_decide_eq_false_2.
           ++ destruct (is_cache_key k); [|reflexivity].
              apply lookup_delete_ne. congruence.
           ++ intros [?|?]%elem_of_cons; contradiction.
    + destruct (is_cache_key k) eqn:Ek'; [|reflexivity].
      apply lookup_delete_ne. intros ->. congruence.
Qed.

Lemma elem_of_keys (m : gmap string string) (key : string) :
  key ∈ map fst (map_to_list m) ↔ is_Some (m !! key).
Proof.
  rewrite list_elem_of_fmap. split.
  - intros ([k v] & -> & H). apply elem_of_map_to_list in H. now exists v.
  - intros [v H]. exists (key, v). split; [reflexivity|].
    now apply elem_of_map_to_list.
Qed.

Lemma clear_reliable (w : world) :
  reliable w →
  ∃ w', CacheManager.clear w = (Normal tt, w') ∧ reliable w' ∧
        ∀ key, items w' !! key
               = if is_cache_key key then None else items w !! key.
Proof.
  intros Hrel. unfold CacheManager.clear, try_catch.
  unfold bind at 1. unfold localStorage.keys, bind at 1.
  rewrite (access_ok w (reliable_not_faulting w Hrel)). cbn [items advance].
  unfold bind at 1.
  destruct (for_each_sweep (map fst (map_to_list (items w))) (advance w)
              (reliable_advance w Hrel)) as (w' & E & Hi & Hc & Hr).
  rewrite E. unfold console.log, console.print.
  eexists. split; [reflexivity|]. cbn [items faults]. split; [exact Hr|].
  intros key. rewrite Hi. cbn [items advance]. rewrite sweep_lookup.
  destruct (is_cache_key key); [|reflexivity]. cbn [andb].
  case_bool_decide as Hin; [reflexivity|].
  rewrite elem_of_keys in Hin. rewrite <- eq_None_not_Some in Hin.
  now rewrite Hin.
Qed.

Lemma cache_keys_spec (m : gmap string string) (key : string) :
  key ∈ cache_keys m ↔ is_cache_key key = true ∧ is_Some (m !! key).
Proof. unfold cache_keys. now rewrite list_elem_of_filter, elem_of_keys. Qed.

Lemma cache_keys_none (m : gmap string string) :
  (∀ key, is_cache_key key = true → m !! key = None) → cache_keys m = [].
Proof.
  intros H. destruct (cache_keys m) as [|key ks] eqn:E; [reflexivity|].
  assert (Hin : key ∈ cache_keys m) by (rewrite E; left).
  apply cache_keys_spec in Hin as [Hk [v Hv]]. rewrite (H key Hk) in Hv.
  discriminate.
Qed.

Lemma removeItem_spec (key : string) (w : world) :
  (¬ faulting w →
   localStorage.removeItem key w
   = (Normal tt,
      World (delete key (items w)) (tail (faults w)) (console_out w))) ∧
  (faulting w →
   localStorage.removeItem key w = (Throw DOMException, advance w)).
Proof.
  unfold localStorage.removeItem, bind, update_items.
  split; intros H; [rewrite (access_ok w H) | rewrite (access_fault w H)];
    reflexivity.
Qed.

Lemma for_each_sweep_any (ks : list string) (w : world) (key : string) :
  let w' := snd (for_each ks
                   (fun key => if is_cache_key key
                               then localStorage.removeItem key
                               else ret tt) w) in
  items w' !! key = items w !! key ∨
  (is_cache_key key = true ∧ items w' !! key = None).
Proof.
  cbv zeta. revert w. induction ks as [|k ks IH]; intros w; [now left|].
  cbn [for_each]. unfold bind.
  destruct (is_cache_key k) eqn:Ek.
  - destruct (removeItem_spec k w) as [Hok Hbad].
    destruct (faulting_dec w) as [Hf|Hf].
    + rewrite (Hbad Hf). now left.
    + rewrite (Hok Hf).
      set (w1 := World (delete k (items w)) _ _).
      destruct (IH w1) as [IH1|IH1]; [|right; exact IH1].
      rewrite IH1. subst w1. cbn [items].
      destruct (decide (k = key)) as [<-|Hne].
      * right. split; [exact Ek|]. apply lookup_delete_eq.
      * left. now apply lookup_delete_ne.
  - unfold ret at 1 3. apply IH.
Qed.

Lemma clear_items (w : world) :
  (faulting w → items (snd (CacheManager.clear w)) = items w) ∧
  (¬ faulting w →
   items (snd (CacheManager.clear w))
   = items (snd (for_each (map fst (map_to_list (items w)))
                   (fun key => if is_cache_key key
                               then localStorage.removeItem key
                               else ret tt) (advance w)))).
Proof.
  split; intros Hf; unfold CacheManager.clear, try_catch;
    unfold bind at 1; unfold localStorage.keys, bind at 1.
  - rewrite (access_fault w Hf). reflexivity.
  - rewrite (access_ok w Hf). cbn [items advance]. unfold bind at 1.
    destruct (for_each _ _ _) as [[[]|e] w']; reflexivity.
Qed.

(** Whatever the substrate does, [clear] changes no key outside the
    namespace and creates none. *)
Lemma clear_any (w : world) (key : string) :
  items (snd (CacheManager.clear w)) !! key = items w !! key ∨
  (is_cache_key key = true ∧ items (snd (CacheManager.clear w)) !! key = None).
Proof.
  destruct (clear_items w) as [Hbad Hok].
  destruct (faulting_dec w) as [Hf|Hf].
  - rewrite (Hbad Hf). now left.
  - rewrite (Hok Hf).
    apply (for_each_sweep_any (map fst (map_to_list (items w))) (advance w) key).
Qed.

(** C6.  [clear] deletes only keys that carry the [cache_] prefix: every
    other key keeps its value, whatever the substrate does.  On a
    substrate that works it deletes all of them, and a following
    [getStats] reports no entry. *)
Theorem clear_removes_namespace_only (now : Z) (w : world) :
  (∀ key, is_cache_key key = false →
          items (snd (CacheManager.clear w)) !! key = items w !! key) ∧
  (reliable w →
   ∃ w',
     CacheManager.clear w = (Normal tt, w') ∧
     (∀ key, is_cache_key key = true → items w' !! key = None) ∧
     (∀ key, is_cache_key key = false → items w' !! key = items w !! key) ∧
     ∃ st w'',
       CacheManager.getStats now w' = (Normal (Some st), w'') ∧
       totalEntries st = 0%nat).
Proof.
  split.
  { intros key Hk. destruct (clear_any w key) as [H|[H _]]; [exact H|].
    congruence. }
  intros Hrel. destruct (clear_reliable w Hrel) as (w' & E & Hr & Hl).
  exists w'. split; [exact E|]. split; [|split].
  - intros key Hk. now rewrite Hl, Hk.
  - intros key Hk. now rewrite Hl, Hk.
  - destruct (getStats_reliable now w' Hr) as (st & w'' & Es & _ & _ & Ht & _).
    exists st, w''. split; [exact Es|]. rewrite Ht, cache_keys_none; [reflexivity|].
    intros key Hk. now rewrite Hl, Hk.
Qed.

Lemma clear_removes_namespace_only_witness :
  let w := World {[ "cache_a" := q "{'data':1,'timestamp':1000,'ttl':1000}";
                    "cache_b" := q "{'data':2,'timestamp':1000,'ttl':1000}";
                    "other" := "x" ]} [] [] in
  ∃ w', CacheManager.clear w = (Normal tt, w') ∧
        items w' !! "cache_a" = None ∧ items w' !! "cache_b" = None ∧
        items w' !! "other" = Some "x".
Proof.
  cbv zeta.
  destruct (clear_removes_namespace_only 1500
              (World {[ "cache_a" := q "{'data':1,'timestamp':1000,'ttl':1000}";
                        "cache_b" := q "{'data':2,'timestamp':1000,'ttl':1000}";
                        "other" := "x" ]} [] [])) as [_ H].
  destruct H as (w' & E & Hin & Hout & _); [constructor|].
  exists w'. split; [exact E|].
  split; [apply Hin; reflexivity|]. split; [apply Hin; reflexivity|].
  rewrite Hout; reflexivity.
Defined.

(* ================================================================== *)
(** * Round trip and expiry of a cached entry *)

(** What a successful [set] of a JSON payload with an integer [ttl]
    leaves under the namespaced key. *)
Lemma set_stores (now t : Z) (key : string) (data : value) (w w1 : world) :
  json_value data = true →
  CacheManager.set now key data (VNum (Int t)) w = (Normal true, w1) →
  items w1 !! cache_key key
  = Some (render (make_entry now data (VNum (Int t)))).
Proof.
  intros Hj Hset. destruct (stored_entry now t data Hj) as (Hs & _ & _).
  destruct (set_spec now key data (VNum (Int t)) w)
    as [(text & w' & E & _ & Hset' & Hi & _)|(w' & _ & Hset' & _)].
  - rewrite Hset in Hset'. injection Hset' as <-.
    rewrite Hs in E. injection E as <-. rewrite Hi. apply lookup_insert_eq.
  - rewrite Hset in Hset'. discriminate.
Qed.

(** C1.  After a successful [set(k, v, t)] of a JSON value [v] with
    [t > 0], a [get(k)] issued while no more than [t] milliseconds have
    passed returns [v] itself. *)
Theorem set_then_get (now now' t : Z) (key : string) (data : value)
    (w w1 : world) :
  json_value data = true → 0 < t →
  CacheManager.set now key data (VNum (Int t)) w = (Normal true, w1) →
  reliable w1 → now' - now ≤ t →
  CacheManager.get now' key w1 = (Normal data, advance w1).
Proof.
  intros Hj _ Hset Hrel Ht.
  apply (get_stored now now' t key data w1 Hj Hrel); [|exact Ht].
  exact (set_stores now t key data w w1 Hj Hset).
Qed.

(** C2.  An entry written by [set(k, v, t)] is returned by [get(k)] as long
    as [now - timestamp <= t], the instant [now - timestamp = t]
    included; once [now - timestamp > t], [get(k)] deletes the record and
    returns [null], and [getStats] afterwards does not count [k] among
    its valid entries. *)
Theorem entry_expires_after_ttl (now now' t : Z) (key : string) (data : value)
    (w w1 : world) :
  json_value data = true →
  CacheManager.set now key data (VNum (Int t)) w = (Normal true, w1) →
  reliable w1 →
  (now' - now ≤ t →
   CacheManager.get now' key w1 = (Normal data, advance w1)) ∧
  CacheManager.get (now + t) key w1 = (Normal data, advance w1) ∧
  (t < now' - now →
   ∃ w2,
     CacheManager.get now' key w1 = (Normal VNull, w2) ∧
     items w2 = delete (cache_key key) (items w1) ∧
     ∀ later, ∃ st w3,
       CacheManager.getStats later w2 = (Normal (Some st), w3) ∧
       validEntries st = length (valid_keys later (items w2)) ∧
       cache_key key ∉ valid_keys later (items w2)).
Proof.
  intros Hj Hset Hrel.
  pose proof (set_stores now t key data w w1 Hj Hset) as Hm.
  split; [|split].
  - apply (get_stored now now' t key data w1 Hj Hrel Hm).
  - apply (get_stored now (now + t) t key data w1 Hj Hrel Hm). lia.
  - intros Ht.
    destruct (get_stored now now' t key data w1 Hj Hrel Hm) as [_ H].
    destruct (H Ht) as (w2 & Hg & Hi & Hr2).
    exists w2. split; [exact Hg|]. split; [exact Hi|]. intros later.
    destruct (getStats_reliable later w2 Hr2)
      as (st & w3 & Es & _ & _ & _ & Hv & _).
    exists st, w3. split; [exact Es|]. split; [exact Hv|].
    unfold valid_keys. rewrite list_elem_of_filter, cache_keys_spec.
    intros (_ & _ & [v Hl]). rewrite Hi, lookup_delete_eq in Hl. discriminate.
Qed.

(** C10.  [set] checks neither its key nor its [ttl]: whenever the record
    serializes and the write does not fault it returns [true], the
    record is under the key itself prefixed with [cache_], the empty key
    included, and no other key has changed.  A record with a negative
    [ttl] is expired for any later [get], which deletes it and returns
    [null]; one with [ttl] zero is still returned by a [get] at the same
    instant. *)
Theorem set_does_not_validate (now : Z) (key : string) (data ttl : value)
    (text : string) (w : world) :
  JSON.stringify (make_entry now data ttl) = Normal (Some text) →
  ¬ faulting w →
  ∃ w1,
    CacheManager.set now key data ttl w = (Normal true, w1) ∧
    items w1 = <["cache_" +:+ key := text]> (items w) ∧
    (∀ t now', ttl = VNum (Int t) → json_value data = true → reliable w1 →
               t < 0 → now ≤ now' →
               ∃ w2, CacheManager.get now' key w1 = (Normal VNull, w2) ∧
                     items w2 = delete ("cache_" +:+ key) (items w1)) ∧
    (ttl = VNum (Int 0) → json_value data = true → reliable w1 →
     CacheManager.get now key w1 = (Normal data, advance w1)).
Proof.
  intros E Hf.
  destruct (set_spec now key data ttl w)
    as [(text' & w1 & E' & _ & Hset & Hi & _)|(w1 & [[e E']|Hf'] & _)];
    [|congruence|contradiction].
  rewrite E in E'. injection E' as <-.
  exists w1. split; [exact Hset|]. split; [exact Hi|].
  split.
  - intros t now' -> Hj Hrel Ht Hnow.
    pose proof (set_stores now t key data w w1 Hj Hset) as Hm.
    destruct (get_stored now now' t key data w1 Hj Hrel Hm) as [_ H].
    destruct (H ltac:(lia)) as (w2 & Hg & Hi2 & _). eauto.
  - intros -> Hj Hrel.
    pose proof (set_stores now 0 key data w w1 Hj Hset) as Hm.
    apply (get_stored now now 0 key data w1 Hj Hrel Hm). lia.
Qed.

Lemma set_then_get_witness :
  let data := VObj [("tempF", VNum (Int 72))] in
  let w1 := snd (CacheManager.set 1000 "weather-current" data (VNum (Int 5000))
                   (World ∅ [] [])) in
  CacheManager.get 6000 "weather-current" w1 = (Normal data, advance w1).
Proof.
  cbv zeta.
  apply (set_then_get 1000 6000 5000 "weather-current"
           (VObj [("tempF", VNum (Int 72))]) (World ∅ [] [])).
  - reflexivity.
  - lia.
  - vm_compute. reflexivity.
  - unfold reliable. vm_compute. constructor.
  - lia.
Defined.

Lemma entry_expires_after_ttl_witness :
  let data := VObj [("tempF", VNum (Int 72))] in
  let w1 := snd (CacheManager.set 1000 "weather-current" data (VNum (Int 5000))
                   (World ∅ [] [])) in
  CacheManager.get 6000 "weather-current" w1 = (Normal data, advance w1) ∧
  ∃ w2, CacheManager.get 6001 "weather-current" w1 = (Normal VNull, w2) ∧
        items w2 = delete (cache_key "weather-current") (items w1).
Proof.
  cbv zeta.
  destruct (entry_expires_after_ttl 1000 6001 5000 "weather-current"
              (VObj [("tempF", VNum (Int 72))]) (World ∅ [] [])
              (snd (CacheManager.set 1000 "weather-current"
                      (VObj [("tempF", VNum (Int 72))]) (VNum (Int 5000))
                      (World ∅ [] [])))) as (_ & Hat & Hafter).
  - reflexivity.
  - vm_compute. reflexivity.
  - unfold reliable. vm_compute. constructor.
  - split; [exact Hat|].
    destruct (Hafter ltac:(lia)) as (w2 & Hg & Hi & _). exists w2. auto.
Defined.

Lemma set_does_not_validate_witness :
  let w := World {[ "cache_b" := "kept" ]} [] [] in
  (∃ w1 w2,
     CacheManager.set 1000 "" (VNum (Int 7)) (VNum (Int (-1))) w
     = (Normal true, w1) ∧
     items w1 = {[ "cache_" := q "{'data':7,'timestamp':1000,'ttl':-1}";
                   "cache_b" := "kept" ]} ∧
     CacheManager.get 1000 "" w1 = (Normal VNull, w2) ∧
     items w2 = {[ "cache_b" := "kept" ]}) ∧
  (∃ w1,
     CacheManager.set 1000 "a" (VNum (Int 7)) (VNum (Int 0)) w
     = (Normal true, w1) ∧
     items w1 = {[ "cache_a" := q "{'data':7,'timestamp':1000,'ttl':0}";
                   "cache_b" := "kept" ]} ∧
     CacheManager.get 1000 "a" w1 = (Normal (VNum (Int 7)), advance w1)).
Proof.
  cbv zeta. split.
  - destruct (set_does_not_validate 1000 "" (VNum (Int 7)) (VNum (Int (-1)))
                (q "{'data':7,'timestamp':1000,'ttl':-1}")
                (World {[ "cache_b" := "kept" ]} [] []))
      as (w1 & Hset & Hi & Hneg & _).
    + reflexivity.
    + intros [fs E]. discriminate E.
    + assert (Hrel : reliable w1).
      { vm_compute in Hset. injection Hset as <-. constructor. }
      destruct (Hneg (-1) 1000 eq_refl eq_refl Hrel ltac:(lia) ltac:(lia))
        as (w2 & Hg & Hi2).
      exists w1, w2. split; [exact Hset|]. split; [rewrite Hi; reflexivity|].
      split; [exact Hg|]. rewrite Hi2, Hi, delete_insert_eq.
      now apply delete_id.
  - destruct (set_does_not_validate 1000 "a" (VNum (Int 7)) (VNum (Int 0))
                (q "{'data':7,'timestamp':1000,'ttl':0}")
                (World {[ "cache_b" := "kept" ]} [] []))
      as (w1 & Hset & Hi & _ & Hzero).
    + reflexivity.
    + intros [fs E]. discriminate E.
    + assert (Hrel : reliable w1).
      { vm_compute in Hset. injection Hset as <-. constructor. }
      exists w1. split; [exact Hset|]. split; [rewrite Hi; reflexivity|].
      exact (Hzero eq_refl eq_refl Hrel).
Defined.

(* ================================================================== *)
(** * Records that do not parse, or not to an entry *)

Lemma parse_empty : JSON.parse "" = Throw SyntaxError.
Proof. reflexivity. Qed.

(** C4, as amended.  When the stored record does not parse, [get]
    returns [null] and never throws; it deletes the record unless the
    record is the empty string, which it takes for a missing one and
    leaves in place. *)
Theorem get_evicts_unparsable (now : Z) (key text : string) (e : error)
    (w : world) :
  reliable w →
  items w !! cache_key key = Some text →
  JSON.parse text = Throw e →
  ∃ w',
    CacheManager.get now key w = (Normal VNull, w') ∧
    items w' = match text with
               | EmptyString => items w
               | _ => delete (cache_key key) (items w)
               end.
Proof.
  intros Hrel Hm Hp. pose proof (reliable_not_faulting w Hrel) as Hf.
  destruct text as [|c r].
  - exists (advance w). split; [|reflexivity]. apply get_miss; auto.
  - rewrite (get_read now key _ w Hf Hm ltac:(discriminate)), Hp.
    destruct (get_recover_spec key e (advance w)) as (w' & E & _ & Hok & _).
    exists w'. split; [exact E|].
    apply Hok, reliable_not_faulting, reliable_advance, Hrel.
Qed.

Lemma get_evicts_unparsable_witness :
  ∃ w',
    CacheManager.get 5 "x" (World {[ "cache_x" := q "{'data':" ]} [] [])
    = (Normal VNull, w') ∧
    items w' = delete "cache_x" {[ "cache_x" := q "{'data':" ]}.
Proof.
  destruct (get_evicts_unparsable 5 "x" (q "{'data':") SyntaxError
              (World {[ "cache_x" := q "{'data':" ]} [] []))
    as (w' & Hg & Hi).
  - constructor.
  - reflexivity.
  - reflexivity.
  - exists w'. split; [exact Hg | exact Hi].
Defined.

(** C4 fails as stated on an empty record: it does not parse, yet [get]
    leaves it where it is. *)
Lemma empty_record_survives_get :
  let w := World {[ "cache_x" := "" ]} [] [] in
  reliable w ∧
  items w !! cache_key "x" = Some "" ∧
  JSON.parse "" = Throw SyntaxError ∧
  CacheManager.get 5 "x" w = (Normal VNull, w) ∧
  ¬ (∃ w', CacheManager.get 5 "x" w = (Normal VNull, w') ∧
           items w' !! cache_key "x" = None).
Proof.
  cbv zeta. split; [constructor|]. split; [reflexivity|].
  split; [reflexivity|]. split; [reflexivity|].
  intros (w' & Hg & Hl).
  change (CacheManager.get 5 "x" (World {[ "cache_x" := "" ]} [] []))
    with (Normal VNull, World {[ "cache_x" := "" ]} [] []) in Hg.
  injection Hg as <-. discriminate Hl.
Qed.

(** A property of a JSON value other than [null] reads without
    throwing, as [undefined] or as a JSON value. *)
Lemma get_prop_json (entry : value) (p : string) :
  json_value entry = true → entry ≠ VNull →
  ∃ x, get_prop entry p = Normal x ∧
       (x = VUndefined ∨ json_value x = true).
Proof.
  destruct entry as [| |b|n|z|s|l|l]; intros Hj Hn;
    try discriminate Hj; try contradiction;
    try (exists VUndefined; split; [reflexivity | now left]).
  cbn [get_prop]. cbn [json_value] in Hj. apply andb_true_iff in Hj as [Hj _].
  clear Hn. induction l as [|[k v] l IH]; cbn [assoc].
  - exists VUndefined. split; [reflexivity | now left].
  - cbn [forallb snd] in Hj. apply andb_true_iff in Hj as [Hv Hl].
    destruct (String.eqb p k); [|apply IH, Hl].
    exists v. split; [reflexivity | now right].
Qed.

Lemma to_string_spec (v : value) :
  (unprintable v = true → to_string v = Throw TypeError) ∧
  (unprintable v = false → ∃ s, to_string v = Normal s).
Proof.
  induction v as [| |b|n|z|s|l IH|l IH] using value_ind;
    try (split; [discriminate | intros _; eexists; reflexivity]).
  - split; [discriminate|]. intros _. destruct b; eexists; reflexivity.
  - cbn [to_string unprintable].
    set (f := fun e => match e with
                       | VUndefined | VNull => Normal ""
                       | _ => to_string e
                       end).
    assert (H : (existsb (fun e => unprintable e) l = true →
                 sequence (map f l) = Throw TypeError) ∧
                (existsb (fun e => unprintable e) l = false →
                 ∃ ts, sequence (map f l) = Normal ts)).
    { induction IH as [|x r [Hx1 Hx2] _ [IH1 IH2]]; cbn [existsb map sequence].
      - split; [discriminate | eauto].
      - destruct (unprintable x) eqn:Ex; cbn [orb].
        + split; [|discriminate]. intros _.
          assert (Hf : f x = to_string x) by (destruct x; try discriminate Ex; reflexivity).
          now rewrite Hf, (Hx1 eq_refl).
        + destruct (Hx2 eq_refl) as [t Ht].
          assert (Hf : ∃ t', f x = Normal t') by (destruct x; cbn [f]; eauto).
          destruct Hf as [t' ->]. split.
          * intros Hr. now rewrite (IH1 Hr).
          * intros Hr. destruct (IH2 Hr) as [ts ->]. eauto. }
    destruct H as [H1 H2]. split.
    + intros Hu. now rewrite (H1 Hu).
    + intros Hu. destruct (H2 Hu) as [ts ->]. eauto.
  - cbn [to_string unprintable]. destruct (assoc "toString" l);
      split; try discriminate; eauto.
Qed.

Lemma to_number_unprintable (x : value) :
  unprintable x = true → to_number x = Throw TypeError.
Proof.
  intros Hu. destruct (to_string_spec x) as [H _].
  destruct x; try discriminate Hu; cbn [to_number]; now rewrite (H Hu).
Qed.

Lemma to_number_json (x : value) :
  x = VUndefined ∨ json_value x = true → unprintable x = false →
  ∃ y, to_number x = Normal y.
Proof.
  intros [->|Hj] Hu; [eexists; reflexivity|].
  destruct (to_string_spec x) as [_ H]. destruct (H Hu) as [s Hs].
  destruct x as [| |[]|n|z|s'|l|l]; try discriminate Hj;
    cbn [to_number]; rewrite ?Hs; eexists; reflexivity.
Qed.

Lemma num_lt_nan_r (a : number) : num_lt a NaN = false.
Proof. unfold num_lt. cbn [b64]. now destruct (b64 a). Qed.

Lemma num_sub_nan_r (a : number) : num_sub a NaN = NaN.
Proof. unfold num_sub. cbn [b64]. now destruct (b64 a). Qed.

Lemma greater_json (a : number) (x : value) :
  x = VUndefined ∨ json_value x = true → unprintable x = false →
  ∃ y, to_number x = Normal y ∧ greater a x = Normal (num_lt y a).
Proof.
  intros H Hu. destruct (to_number_json x H Hu) as [y Hy]. exists y.
  split; [exact Hy|]. unfold greater. rewrite Hy.
  destruct x; try reflexivity. discriminate Hy.
Qed.

Lemma greater_unprintable (a : number) (x : value) :
  unprintable x = true → greater a x = Throw TypeError.
Proof.
  intros Hu. unfold greater. rewrite (to_number_unprintable x Hu).
  now destruct x.
Qed.

(** The expiry test on a parsed record other than [null]: it throws
    exactly when the conversion of the [timestamp] or of the [ttl]
    does. *)
Lemma expired_json (now : Z) (entry : value) :
  json_value entry = true → entry ≠ VNull →
  ∃ ts ttl,
    get_prop entry "timestamp" = Normal ts ∧
    get_prop entry "ttl" = Normal ttl ∧
    (unprintable ts = true ∨ unprintable ttl = true →
     expired now entry = Throw TypeError) ∧
    (unprintable ts = false → unprintable ttl = false →
     ∃ y z, to_number ts = Normal y ∧ to_number ttl = Normal z ∧
            expired now entry = Normal (num_lt z (num_sub (Int now) y))).
Proof.
  intros Hj Hn.
  destruct (get_prop_json entry "timestamp" Hj Hn) as (ts & Ets & Hts).
  destruct (get_prop_json entry "ttl" Hj Hn) as (ttl & Ettl & Httl).
  exists ts, ttl. split; [exact Ets|]. split; [exact Ettl|].
  unfold expired, minus. rewrite Ets. split.
  - intros Hu. destruct (unprintable ts) eqn:Eu.
    + now rewrite (to_number_unprintable ts Eu).
    + destruct Hu as [Hu|Hu]; [discriminate|].
      destruct (to_number_json ts Hts Eu) as [y ->]. rewrite Ettl.
      apply greater_unprintable, Hu.
  - intros Hu1 Hu2. destruct (to_number_json ts Hts Hu1) as [y Hy].
    destruct (greater_json (num_sub (Int now) y) ttl Httl Hu2)
      as (z & Hz & Hg).
    exists y, z. rewrite Hy, Ettl, Hg. auto.
Qed.

(** A record without [timestamp] or without [ttl] never tests as
    expired when the test does not throw: the comparison has a [NaN]
    operand. *)
Lemma expired_missing_field (now : Z) (entry ts ttl : value) :
  json_value entry = true → entry ≠ VNull →
  get_prop entry "timestamp" = Normal ts →
  get_prop entry "ttl" = Normal ttl →
  ts = VUndefined ∨ ttl = VUndefined →
  expired now entry
  = if unprintable ts || unprintable ttl then Throw TypeError
    else Normal false.
Proof.
  intros Hj Hn Ets Ettl Hmiss.
  destruct (expired_json now entry Hj Hn)
    as (ts' & ttl' & Ets' & Ettl' & Hthrow & Hok).
  rewrite Ets in Ets'. injection Ets' as <-.
  rewrite Ettl in Ettl'. injection Ettl' as <-.
  destruct (unprintable ts) eqn:E1; [apply Hthrow; now left|].
  destruct (unprintable ttl) eqn:E2; [apply Hthrow; now right|].
  destruct (Hok eq_refl eq_refl) as (y & z & Hy & Hz & ->). cbn [orb].
  destruct Hmiss as [->| ->].
  - injection Hy as <-. now rewrite num_sub_nan_r, num_lt_nan_r.
  - injection Hz as <-. reflexivity.
Qed.

(** C5, as amended.  A stored record that parses is judged by the
    expiry test alone: no shape is checked.  A record that parses to
    [null] makes the property read throw, so [get] deletes it and
    returns [null].  Of the other records without a [timestamp] or a
    [ttl] field (an object missing one, or a number, string, boolean or
    array), [get] deletes those whose other field throws when the test
    converts it, an object with an own property [toString] or an array
    holding one, and returns [null]; every other one it keeps as it is,
    returning its [data] property, [undefined] when there is none. *)
Theorem get_misshapen_record (now : Z) (key text : string) (entry : value)
    (w : world) :
  reliable w →
  items w !! cache_key key = Some text →
  JSON.parse text = Normal entry →
  (entry = VNull →
   ∃ w', CacheManager.get now key w = (Normal VNull, w') ∧
         items w' = delete (cache_key key) (items w)) ∧
  (entry ≠ VNull →
   ∀ ts ttl,
     get_prop entry "timestamp" = Normal ts →
     get_prop entry "ttl" = Normal ttl →
     ts = VUndefined ∨ ttl = VUndefined →
     (unprintable ts || unprintable ttl = true →
      ∃ w', CacheManager.get now key w = (Normal VNull, w') ∧
            items w' = delete (cache_key key) (items w)) ∧
     (unprintable ts || unprintable ttl = false →
      ∃ d, get_prop entry "data" = Normal d ∧
           CacheManager.get now key w = (Normal d, advance w))).
Proof.
  intros Hrel Hm Hp. pose proof (reliable_not_faulting w Hrel) as Hf.
  assert (Hne : text ≠ "") by (intros ->; discriminate Hp).
  pose proof (get_read now key text w Hf Hm Hne) as Hg. rewrite Hp in Hg.
  assert (Hevict : ∃ w', get_recover key TypeError (advance w)
                         = (Normal VNull, w') ∧
                         items w' = delete (cache_key key) (items w)).
  { destruct (get_recover_spec key TypeError (advance w))
      as (w' & E & _ & Hok & _).
    exists w'. split; [exact E|].
    apply Hok, reliable_not_faulting, reliable_advance, Hrel. }
  split.
  - intros ->. cbn in Hg. now rewrite Hg.
  - intros Hn ts ttl Ets Ettl Hmiss.
    pose proof (JSON_parse_json text entry Hp) as Hj.
    rewrite (expired_missing_field now entry ts ttl Hj Hn Ets Ettl Hmiss) in Hg.
    split; intros Hu; rewrite Hu in Hg.
    + now rewrite Hg.
    + destruct (get_prop_json entry "data" Hj Hn) as (d & Ed & _).
      exists d. split; [exact Ed|]. now rewrite Ed in Hg.
Qed.

Lemma get_misshapen_record_witness :
  let served := World {[ "cache_x" := q "{'data':1}" ]} [] [] in
  let evicted :=
    World {[ "cache_x" := q "{'data':1,'ttl':{'toString':1}}" ]} [] [] in
  CacheManager.get 5 "x" served = (Normal (VNum (Int 1)), advance served) ∧
  ∃ w', CacheManager.get 5 "x" evicted = (Normal VNull, w') ∧
        items w' = delete (cache_key "x") (items evicted).
Proof.
  cbv zeta. split.
  - destruct (get_misshapen_record 5 "x" (q "{'data':1}")
                (VObj [("data", VNum (Int 1))])
                (World {[ "cache_x" := q "{'data':1}" ]} [] [])) as [_ H].
    + constructor.
    + reflexivity.
    + reflexivity.
    + destruct (H ltac:(discriminate) VUndefined VUndefined eq_refl eq_refl
                  (or_introl eq_refl)) as [_ Hs].
      destruct (Hs eq_refl) as (d & Ed & Hg). injection Ed as <-. exact Hg.
  - destruct (get_misshapen_record 5 "x"
                (q "{'data':1,'ttl':{'toString':1}}")
                (VObj [("data", VNum (Int 1));
                       ("ttl", VObj [("toString", VNum (Int 1))])])
                (World {[ "cache_x" := q "{'data':1,'ttl':{'toString':1}}" ]}
                   [] [])) as [_ H].
    + constructor.
    + reflexivity.
    + reflexivity.
    + destruct (H ltac:(discriminate) VUndefined
                  (VObj [("toString", VNum (Int 1))]) eq_refl eq_refl
                  (or_introl eq_refl)) as [He _].
      exact (He eq_refl).
Defined.

(** C5 fails as stated on a record with a [data] field only: [get]
    returns the data and keeps the record. *)
Lemma record_without_timestamp_is_served :
  let text := q "{'data':1}" in
  let w := World {[ "cache_x" := text ]} [] [] in
  reliable w ∧
  items w !! cache_key "x" = Some text ∧
  JSON.parse text = Normal (VObj [("data", VNum (Int 1))]) ∧
  CacheManager.get 5 "x" w = (Normal (VNum (Int 1)), w) ∧
  ¬ (∃ w', CacheManager.get 5 "x" w = (Normal VNull, w') ∧
           items w' !! cache_key "x" = None).
Proof.
  cbv zeta. split; [constructor|]. split; [reflexivity|].
  split; [reflexivity|]. split; [reflexivity|].
  intros (w' & Hg & _).
  change (CacheManager.get 5 "x" (World {[ "cache_x" := q "{'data':1}" ]} [] []))
    with (Normal (VNum (Int 1)), World {[ "cache_x" := q "{'data':1}" ]} [] [])
    in Hg.
  discriminate Hg.
Qed.

(* ================================================================== *)
(** * No fault escapes *)

Lemma try_catch_total {A : Type} (body : M A) (handler : error → M A) :
  (∀ e w, ∃ a w', handler e w = (Normal a, w')) →
  ∀ w, ∃ a w', try_catch body handler w = (Normal a, w').
Proof.
  intros H w. unfold try_catch. destruct (body w) as [[a|e] w']; eauto.
Qed.

Lemma get_total (now : Z) (key : string) (w : world) :
  ∃ v w', CacheManager.get now key w = (Normal v, w').
Proof.
  unfold CacheManager.get. apply try_catch_total. intros e w0.
  destruct (get_recover_spec key e w0) as (w' & E & _). eauto.
Qed.

Lemma get_faulting (now : Z) (key : string) (w : world) :
  faulting w → ∃ w', CacheManager.get now key w = (Normal VNull, w').
Proof.
  intros Hf. unfold CacheManager.get, try_catch. unfold bind at 1.
  unfold localStorage.getItem, bind at 1. rewrite (access_fault w Hf).
  destruct (get_recover_spec key DOMException (advance w)) as (w' & E & _).
  exists w'. exact E.
Qed.

Lemma isAvailable_spec (w : world) :
  ∃ b w',
    CacheManager.isAvailable w = (Normal b, w') ∧
    (b = true ↔ ¬ fault_within 2 w) ∧
    (b = true → items w' = delete "__cache_test__" (items w)) ∧
    (faulting w → b = false ∧ items w' = items w).
Proof.
  unfold CacheManager.isAvailable, try_catch, bind, ret,
    localStorage.setItem, localStorage.removeItem, update_items, bind, access,
    advance, faulting, fault_within.
  destruct w as [m fs out]. cbn [items faults console_out].
  destruct fs as [|[] [|[] fs]]; cbn [items faults console_out tail take];
    eexists _, _; (split; [reflexivity|]); cbn [items];
    (split;
     [ rewrite ?Exists_cons, ?Exists_nil; split;
       [ intros Hb; try discriminate Hb; intuition discriminate
       | intros Hn; try reflexivity; exfalso; apply Hn; auto ]
     | split;
       [ intros Hb; try discriminate Hb; apply delete_insert_eq
       | intros [fs' Hfs]; try discriminate Hfs; auto ] ]).
Qed.

(** C7.  No operation of the cache throws, whatever the arguments and
    whatever the substrate does: [set] answers [false] when serialization
    throws or the write faults, [get] answers [null] when the read faults
    or the record does not parse, [getStats] answers [null] when the
    enumeration faults, [isAvailable] answers [false] when the probe
    faults, and [remove] and [clear] complete silently. *)
Theorem cache_never_throws :
  (∀ now key data ttl w,
      ∃ b w', CacheManager.set now key data ttl w = (Normal b, w') ∧
              ((∃ e, JSON.stringify (make_entry now data ttl) = Throw e) ∨
               faulting w → b = false)) ∧
  (∀ now key w,
      ∃ v w', CacheManager.get now key w = (Normal v, w') ∧
              (faulting w → v = VNull) ∧
              (∀ text e, items w !! cache_key key = Some text →
                         JSON.parse text = Throw e → v = VNull)) ∧
  (∀ key w, ∃ w', CacheManager.remove key w = (Normal tt, w')) ∧
  (∀ w, ∃ w', CacheManager.clear w = (Normal tt, w')) ∧
  (∀ now w,
      ∃ o w', CacheManager.getStats now w = (Normal o, w') ∧
              (faulting w → o = None)) ∧
  (∀ w,
      ∃ b w', CacheManager.isAvailable w = (Normal b, w') ∧
              (faulting w → b = false)).
Proof.
  repeat split.
  - intros now key data ttl w.
    destruct (set_spec now key data ttl w)
      as [(text & w' & E & Hf & Hset & _)|(w' & Hc & Hset & _)].
    + exists true, w'. split; [exact Hset|].
      intros [[e E']|Hf']; [congruence | contradiction].
    + exists false, w'. auto.
  - intros now key w. destruct (faulting_dec w) as [Hf|Hf].
    + destruct (get_faulting now key w Hf) as (w' & E).
      exists VNull, w'. auto.
    + destruct (get_total now key w) as (v & w' & E). exists v, w'.
      split; [exact E|]. split; [contradiction|]. intros text e Hm Hp.
      destruct text as [|c r].
      * rewrite (get_miss now key w Hf (or_intror Hm)) in E. congruence.
      * rewrite (get_read now key _ w Hf Hm ltac:(discriminate)), Hp in E.
        destruct (get_recover_spec key e (advance w)) as (w0 & E0 & _).
        congruence.
  - intros key w. destruct (remove_spec key w) as (w' & E & _). eauto.
  - intros w. unfold CacheManager.clear.
    destruct (try_catch_total
                (keys <- localStorage.keys ;;
                 for_each keys
                   (fun key => if is_cache_key key
                               then localStorage.removeItem key else ret tt) ;;
                 console.log "Cache cleared")
                (fun error => console.warn "Failed to clear cache:" error)
                ltac:(intros e w0; eexists _, _; reflexivity) w)
      as ([] & w' & E).
    exists w'. exact E.
  - intros now w. destruct (getStats_any now w) as (o & w' & E & _ & Hf).
    exists o, w'. auto.
  - intros w. destruct (isAvailable_spec w) as (b & w' & E & _ & _ & Hf).
    exists b, w'. split; [exact E|]. intros H. apply Hf, H.
Qed.

(* ================================================================== *)
(** * isAvailable *)

(** C9, as amended.  [isAvailable] writes the probe key and deletes it
    again, and returns [true] exactly when neither access faults.  When
    it returns [true] the probe key is gone and every other key is as
    before; when the probe write faults it returns [false] and the
    substrate is as it was. *)
Theorem isAvailable_probe (w : world) :
  ∃ b w',
    CacheManager.isAvailable w = (Normal b, w') ∧
    (b = true ↔ ¬ fault_within 2 w) ∧
    (b = true →
     items w' !! "__cache_test__" = None ∧
     ∀ key, key ≠ "__cache_test__" → items w' !! key = items w !! key) ∧
    (faulting w → b = false ∧ items w' = items w).
Proof.
  destruct (isAvailable_spec w) as (b & w' & E & Hiff & Hok & Hbad).
  exists b, w'. split; [exact E|]. split; [exact Hiff|]. split; [|exact Hbad].
  intros Hb. rewrite (Hok Hb). split; [apply lookup_delete_eq|].
  intros key Hne. apply lookup_delete_ne. congruence.
Qed.

(** C9 fails as stated when the write of the probe succeeds and its
    deletion faults: [isAvailable] returns [false] and the probe key
    stays behind. *)
Lemma probe_key_left_behind :
  let w := World ∅ [false; true] [] in
  ∃ w',
    CacheManager.isAvailable w = (Normal false, w') ∧
    items w !! "__cache_test__" = None ∧
    items w' !! "__cache_test__" = Some "__cache_test__".
Proof. cbv zeta. eexists. repeat split. Qed.

(* ================================================================== *)
(** * getStats as a diagnostic pass *)


Lemma classify_entry (now ts t : Z) (data : value) :
  json_value data = true →
  CacheManager.classify now
    (Some (render (make_entry ts data (VNum (Int t)))))
  = Some (t <? now - ts).
Proof.
  intros Hj. destruct (stored_entry ts t data Hj) as (_ & Hp & _).
  unfold CacheManager.classify. cbn [default from_option id].
  now rewrite Hp, expired_entry.
Qed.





(* ================================================================== *)
(** * Scenarios *)

(** [set("weather-current", {tempF: 72}, 5000)] at time 1000: the value
    is served up to time 6000 and gone at 6001. *)
Example weather_scenario :
  let data := VObj [("tempF", VNum (Int 72))] in
  let w1 := snd (CacheManager.set 1000 "weather-current" data (VNum (Int 5000))
                   (World ∅ [] [])) in
  items w1 !! "cache_weather-current"
  = Some (q "{'data':{'tempF':72},'timestamp':1000,'ttl':5000}") ∧
  fst (CacheManager.get 6000 "weather-current" w1) = Normal data ∧
  CacheManager.get 6001 "weather-current" w1
  = (Normal VNull, World ∅ [] []).
Proof. cbv zeta. repeat split. Qed.

(** [set("a", 1, 1000)], [set("b", 2, 1000)], [clear()]: both entries are
    gone, a foreign key is not, and [getStats] counts nothing. *)
Example clear_scenario :
  let w0 := World {[ "theme" := "dark" ]} [] [] in
  let w1 := snd (CacheManager.set 1000 "a" (VNum (Int 1)) (VNum (Int 1000)) w0) in
  let w2 := snd (CacheManager.set 1000 "b" (VNum (Int 2)) (VNum (Int 1000)) w1) in
  let w3 := snd (CacheManager.clear w2) in
  fst (CacheManager.get 1001 "a" w3) = Normal VNull ∧
  fst (CacheManager.get 1001 "b" w3) = Normal VNull ∧
  items w3 = {[ "theme" := "dark" ]} ∧
  fst (CacheManager.getStats 1001 w3)
  = Normal (Some {| totalEntries := 0; validEntries := 0; expiredEntries := 0;
                    totalSizeBytes := 0; totalSizeKB := "0.00" |}).
Proof. cbv zeta. vm_compute. repeat split. Qed.

(** An infinite [ttl] is not an integer duration: [JSON.stringify]
    renders it as [null], which the expiry test reads as zero, so the
    entry is served at the instant of the write only. *)
Example infinite_ttl_scenario :
  let w1 := snd (CacheManager.set 1000 "k" (VNum (Int 7)) (VNum PInf)
                   (World ∅ [] [])) in
  items w1 !! "cache_k" = Some (q "{'data':7,'timestamp':1000,'ttl':null}") ∧
  fst (CacheManager.get 1000 "k" w1) = Normal (VNum (Int 7)) ∧
  fst (CacheManager.get 1001 "k" w1) = Normal VNull.
Proof. cbv zeta. repeat split. Qed.

(** Records written by hand.  The difference [1 - 0.7] is taken in
    binary64 and exceeds [0.3], so the first record is expired at time
    1.  The [timestamp] of the second is the text of 5 behind a no-break
    space, which the conversion to a number strips: the record is
    expired at time 6.  The [timestamp] of the third has a property
    [toString] of its own, so its conversion throws: [get] deletes the
    record, and [getStats] counts it neither as valid nor as expired. *)
Example handwritten_records_scenario :
  let fraction := q "{'data':1,'timestamp':0.7,'ttl':0.3}" in
  let spaced := q "{'data':1,'timestamp':'" +:+ String "194" (String "160" "5")
                +:+ q "','ttl':0}" in
  let odd := q "{'data':1,'timestamp':{'toString':1},'ttl':5}" in
  CacheManager.get 1 "x" (World {[ "cache_x" := fraction ]} [] [])
  = (Normal VNull, World ∅ [] []) ∧
  CacheManager.get 6 "x" (World {[ "cache_x" := spaced ]} [] [])
  = (Normal VNull, World ∅ [] []) ∧
  fst (CacheManager.get 5 "x" (World {[ "cache_x" := spaced ]} [] []))
  = Normal (VNum (Int 1)) ∧
  (∃ out, CacheManager.get 6 "x" (World {[ "cache_x" := odd ]} [] [])
          = (Normal VNull, World ∅ [] out)) ∧
  (∃ st, fst (CacheManager.getStats 6 (World {[ "cache_x" := odd ]} [] []))
         = Normal (Some st) ∧
         totalEntries st = 1%nat ∧ validEntries st = 0%nat ∧
         expiredEntries st = 0%nat).
Proof.
  cbv zeta. vm_compute. repeat split; eexists; repeat split.
Qed.

(* ================================================================== *)
(** * The cache: how its operations compose *)

Lemma cache_key_inj (k k' : string) : cache_key k = cache_key k' → k = k'.
Proof. unfold cache_key. intros H. now simplify_eq. Qed.

Lemma cache_key_namespaced (k : string) : is_cache_key (cache_key k) = true.
Proof. unfold is_cache_key, cache_key. destruct k; reflexivity. Qed.

Lemma cache_key_not_probe (k : string) : cache_key k ≠ "__cache_test__".
Proof. unfold cache_key. discriminate. Qed.

Lemma get_fault_eq (now : Z) (key : string) (w : world) :
  faulting w →
  CacheManager.get now key w = get_recover key DOMException (advance w).
Proof.
  intros Hf. unfold CacheManager.get, try_catch. unfold bind at 1.
  unfold localStorage.getItem, bind at 1. rewrite (access_fault w Hf).
  reflexivity.
Qed.

(** What any call of [get] can do to the stored items: nothing, or
    delete the record of its own key. *)
Lemma get_items (now : Z) (key : string) (w : world) :
  items (snd (CacheManager.get now key w)) = items w ∨
  items (snd (CacheManager.get now key w)) = delete (cache_key key) (items w).
Proof.
  destruct (faulting_dec w) as [Hf|Hf].
  - rewrite (get_fault_eq now key w Hf).
    destruct (get_recover_spec key DOMException (advance w))
      as (w' & E & _ & Hok & Hbad).
    rewrite E. cbn [snd].
    destruct (faulting_dec (advance w)) as [Hf'|Hf'];
      [left; apply (Hbad Hf') | right; apply (Hok Hf')].
  - destruct (items w !! cache_key key) as [text|] eqn:Hm.
    + destruct text as [|c r].
      * rewrite (get_miss now key w Hf (or_intror Hm)). now left.
      * rewrite (get_read now key _ w Hf Hm ltac:(discriminate)).
        assert (Hrec : ∀ e,
                  items (snd (get_recover key e (advance w))) = items w ∨
                  items (snd (get_recover key e (advance w)))
                  = delete (cache_key key) (items w)).
        { intros e. destruct (get_recover_spec key e (advance w))
            as (w' & E & _ & Hok & Hbad). rewrite E. cbn [snd].
          destruct (faulting_dec (advance w)) as [Hf'|Hf'];
            [left; apply (Hbad Hf') | right; apply (Hok Hf')]. }
        destruct (JSON.parse (String c r)) as [entry|e]; [|apply Hrec].
        destruct (expired now entry) as [[]|e]; [| |apply Hrec].
        -- destruct (get_evict_spec key (advance w))
             as (w' & E & _ & Hok & Hbad). rewrite E. cbn [snd].
           destruct (faulting_dec (advance w)) as [Hf'|Hf'];
             [left; apply (Hbad Hf') | right; apply (Hok Hf')].
        -- destruct (get_prop entry "data"); [now left | apply Hrec].
    + rewrite (get_miss now key w Hf (or_introl Hm)). now left.
Qed.

Lemma set_items (now : Z) (key : string) (data ttl : value) (w : world) :
  items (snd (CacheManager.set now key data ttl w)) = items w ∨
  ∃ text, items (snd (CacheManager.set now key data ttl w))
          = <[cache_key key := text]> (items w).
Proof.
  destruct (set_spec now key data ttl w)
    as [(text & w' & _ & _ & -> & Hi & _)|(w' & _ & -> & Hi)]; cbn [snd];
    [right; eauto | now left].
Qed.

Lemma remove_items (key : string) (w : world) :
  items (snd (CacheManager.remove key w)) = items w ∨
  items (snd (CacheManager.remove key w)) = delete (cache_key key) (items w).
Proof.
  destruct (remove_spec key w) as (w' & -> & _ & Hok & Hbad). cbn [snd].
  destruct (faulting_dec w) as [Hf|Hf];
    [left; apply (Hbad Hf) | right; apply (Hok Hf)].
Qed.

Lemma isAvailable_items (w : world) (k : string) :
  k ≠ "__cache_test__" →
  items (snd (CacheManager.isAvailable w)) !! k = items w !! k.
Proof.
  intros Hk.
  unfold CacheManager.isAvailable, try_catch, bind, ret,
    localStorage.setItem, localStorage.removeItem, update_items, bind, access,
    advance.
  destruct w as [m fs out]. cbn [items faults console_out].
  destruct fs as [|[] [|[] fs]]; cbn [items faults console_out tail snd];
    rewrite ?lookup_delete_ne, ?lookup_insert_ne by congruence; reflexivity.
Qed.

Lemma getStats_items (now : Z) (w : world) :
  items (snd (CacheManager.getStats now w)) = items w.
Proof.
  destruct (getStats_any now w) as (o & w' & -> & Hi & _). exact Hi.
Qed.

(** X1.  On a substrate that works, [remove(k)] followed by [get(k)]
    returns [null] whatever was stored under [k], and all that has
    changed is that the record of [k] is gone. *)
Theorem remove_then_get (now : Z) (key : string) (w : world) :
  reliable w →
  ∃ w1 w2,
    CacheManager.remove key w = (Normal tt, w1) ∧
    CacheManager.get now key w1 = (Normal VNull, w2) ∧
    items w2 = delete (cache_key key) (items w).
Proof.
  intros Hrel. pose proof (reliable_not_faulting w Hrel) as Hf.
  destruct (remove_spec key w) as (w1 & E & Hfs & Hok & _).
  destruct (Hok Hf) as [Hi _].
  assert (Hrel1 : reliable w1).
  { unfold reliable in *. rewrite Hfs. destruct (faults w) as [|b fs];
      [constructor | now inversion Hrel]. }
  exists w1, (advance w1). split; [exact E|]. split; [|cbn; exact Hi].
  apply get_miss; [apply reliable_not_faulting, Hrel1|].
  left. rewrite Hi. apply lookup_delete_eq.
Qed.

Lemma remove_then_get_witness :
  ∃ w1 w2,
    CacheManager.remove "a"
      (World {[ "cache_a" := q "{'data':1,'timestamp':0,'ttl':9}" ]} [] [])
    = (Normal tt, w1) ∧
    CacheManager.get 5 "a" w1 = (Normal VNull, w2) ∧
    items w2 = delete (cache_key "a")
                 {[ "cache_a" := q "{'data':1,'timestamp':0,'ttl':9}" ]}.
Proof.
  destruct (remove_then_get 5 "a"
              (World {[ "cache_a" := q "{'data':1,'timestamp':0,'ttl':9}" ]}
                 [] [])) as (w1 & w2 & H).
  - constructor.
  - exists w1, w2. exact H.
Defined.

(** X2.  [get(k)] on a key that has no record returns [null] and leaves
    every stored item as it is, whatever the substrate does. *)
Theorem get_missing_key (now : Z) (key : string) (w : world) :
  items w !! cache_key key = None →
  ∃ w', CacheManager.get now key w = (Normal VNull, w') ∧
        items w' = items w.
Proof.
  intros Hm.
  assert (Hi : items (snd (CacheManager.get now key w)) = items w).
  { destruct (get_items now key w) as [H|H]; [exact H|].
    rewrite H. apply delete_id, Hm. }
  destruct (faulting_dec w) as [Hf|Hf].
  - destruct (get_faulting now key w Hf) as (w' & E). exists w'.
    rewrite E in Hi. auto.
  - exists (advance w). split; [|reflexivity].
    apply get_miss; [exact Hf | now left].
Qed.

Lemma get_missing_key_witness :
  ∃ w', CacheManager.get 5 "a" (World {[ "theme" := "dark" ]} [true; true] [])
        = (Normal VNull, w') ∧
        items w' = {[ "theme" := "dark" ]}.
Proof.
  destruct (get_missing_key 5 "a" (World {[ "theme" := "dark" ]} [true; true] []))
    as (w' & H).
  - reflexivity.
  - exists w'. exact H.
Defined.

(** X3.  No operation of the cache alters a key that does not carry the
    [cache_] prefix, whatever the arguments and whatever the substrate
    does; the one exception is [isAvailable], which may alter its probe
    key and nothing else. *)
Theorem foreign_keys_untouched (now : Z) (key : string) (data ttl : value)
    (w : world) (k : string) :
  is_cache_key k = false →
  items (snd (CacheManager.set now key data ttl w)) !! k = items w !! k ∧
  items (snd (CacheManager.get now key w)) !! k = items w !! k ∧
  items (snd (CacheManager.remove key w)) !! k = items w !! k ∧
  items (snd (CacheManager.clear w)) !! k = items w !! k ∧
  items (snd (CacheManager.getStats now w)) !! k = items w !! k ∧
  (k ≠ "__cache_test__" →
   items (snd (CacheManager.isAvailable w)) !! k = items w !! k).
Proof.
  intros Hk.
  assert (Hne : k ≠ cache_key key).
  { intros ->. rewrite cache_key_namespaced in Hk. discriminate. }
  repeat split.
  - destruct (set_items now key data ttl w) as [->|[text ->]]; [reflexivity|].
    apply lookup_insert_ne. congruence.
  - destruct (get_items now key w) as [->| ->]; [reflexivity|].
    apply lookup_delete_ne. congruence.
  - destruct (remove_items key w) as [->| ->]; [reflexivity|].
    apply lookup_delete_ne. congruence.
  - destruct (clear_any w k) as [H|[H _]]; [exact H | congruence].
  - now rewrite getStats_items.
  - apply isAvailable_items.
Qed.

Lemma foreign_keys_untouched_witness :
  items (snd (CacheManager.clear
                (World {[ "theme" := "dark"; "cache_a" := "1" ]} [false; true] [])))
    !! "theme" = Some "dark".
Proof.
  destruct (foreign_keys_untouched 5 "a" VNull VNull
              (World {[ "theme" := "dark"; "cache_a" := "1" ]} [false; true] [])
              "theme") as (_ & _ & _ & H & _).
  - reflexivity.
  - rewrite H. reflexivity.
Defined.

Lemma other_call_keeps (key : string) (w w' : world) :
  other_call key w w' →
  items w' !! cache_key key = items w !! cache_key key.
Proof.
  intros [now key' data ttl w0 Hne|now key' w0 Hne|key' w0 Hne|now w0|w0].
  - destruct (set_items now key' data ttl w0) as [->|[text ->]]; [reflexivity|].
    apply lookup_insert_ne. intros H. apply Hne, cache_key_inj, H.
  - destruct (get_items now key' w0) as [->| ->]; [reflexivity|].
    apply lookup_delete_ne. intros H. apply Hne, cache_key_inj, H.
  - destruct (remove_items key' w0) as [->| ->]; [reflexivity|].
    apply lookup_delete_ne. intros H. apply Hne, cache_key_inj, H.
  - now rewrite getStats_items.
  - apply isAvailable_items, cache_key_not_probe.
Qed.

(** X4.  Entries under different keys do not interfere: after a
    successful [set(k, v, t)], any sequence of [set], [get] and [remove]
    on other keys, of [getStats] and of [isAvailable], whether they fault
    or not, leaves the record of [k] in place, and a [get(k)] within the
    [ttl] still returns [v]. *)
Theorem entry_isolated (now now' t : Z) (key : string) (data : value)
    (w w1 w2 : world) :
  json_value data = true →
  CacheManager.set now key data (VNum (Int t)) w = (Normal true, w1) →
  rtc (other_call key) w1 w2 →
  reliable w2 → now' - now ≤ t →
  CacheManager.get now' key w2 = (Normal data, advance w2).
Proof.
  intros Hj Hset Hcalls Hrel Ht.
  apply (get_stored now now' t key data w2 Hj Hrel); [|exact Ht].
  rewrite <- (set_stores now t key data w w1 Hj Hset).
  clear Hset Hrel. induction Hcalls as [|wa wb wc Hstep _ IH]; [reflexivity|].
  rewrite IH. apply other_call_keeps, Hstep.
Qed.

Lemma entry_isolated_witness :
  let w1 := snd (CacheManager.set 1000 "a" (VNum (Int 1)) (VNum (Int 50))
                   (World ∅ [] [])) in
  let w2 := snd (CacheManager.remove "b"
                   (snd (CacheManager.set 1001 "b" (VStr "x") (VNum (Int 5)) w1)))
  in
  CacheManager.get 1010 "a" w2 = (Normal (VNum (Int 1)), advance w2).
Proof.
  cbv zeta.
  apply (entry_isolated 1000 1010 50 "a" (VNum (Int 1)) (World ∅ [] [])
           (snd (CacheManager.set 1000 "a" (VNum (Int 1)) (VNum (Int 50))
                   (World ∅ [] [])))).
  - reflexivity.
  - vm_compute. reflexivity.
  - eapply rtc_l; [apply (other_set "a" 1001 "b" (VStr "x") (VNum (Int 5)));
                   discriminate|].
    eapply rtc_l; [apply (other_remove "a" "b"); discriminate|].
    apply rtc_refl.
  - unfold reliable. vm_compute. constructor.
  - lia.
Defined.

(** X5.  [getStats] judges a record written by [set] by the same test as
    [get], and does not evict: asked at time [now'], it counts the key
    as valid when [now' - timestamp <= ttl] and as expired otherwise, and
    in both cases the record stays in the substrate. *)
Theorem stats_of_stored_entry (now now' t : Z) (key : string) (data : value)
    (w w1 : world) :
  json_value data = true →
  CacheManager.set now key data (VNum (Int t)) w = (Normal true, w1) →
  reliable w1 →
  ∃ st w2,
    CacheManager.getStats now' w1 = (Normal (Some st), w2) ∧
    items w2 !! cache_key key
    = Some (render (make_entry now data (VNum (Int t)))) ∧
    validEntries st = length (valid_keys now' (items w1)) ∧
    expiredEntries st = length (expired_keys now' (items w1)) ∧
    (cache_key key ∈ valid_keys now' (items w1) ↔ now' - now ≤ t) ∧
    (cache_key key ∈ expired_keys now' (items w1) ↔ t < now' - now).
Proof.
  intros Hj Hset Hrel.
  pose proof (set_stores now t key data w w1 Hj Hset) as Hm.
  destruct (getStats_reliable now' w1 Hrel)
    as (st & w2 & E & Hi & _ & _ & Hv & He & _).
  exists st, w2. split; [exact E|]. split; [now rewrite Hi|].
  split; [exact Hv|]. split; [exact He|].
  assert (Hin : cache_key key ∈ cache_keys (items w1)).
  { apply cache_keys_spec. split; [apply cache_key_namespaced | eauto]. }
  unfold valid_keys, expired_keys. rewrite !list_elem_of_filter, Hm.
  rewrite (classify_entry now' now t data Hj).
  destruct (Z.ltb_spec t (now' - now)); split; split;
    intros; try lia; intuition congruence.
Qed.

Lemma stats_of_stored_entry_witness :
  let w1 := snd (CacheManager.set 1000 "a" (VNum (Int 1)) (VNum (Int 50))
                   (World ∅ [] [])) in
  ∃ st w2,
    CacheManager.getStats 1051 w1 = (Normal (Some st), w2) ∧
    expiredEntries st = length (expired_keys 1051 (items w1)) ∧
    cache_key "a" ∈ expired_keys 1051 (items w1).
Proof.
  cbv zeta.
  destruct (stats_of_stored_entry 1000 1051 50 "a" (VNum (Int 1))
              (World ∅ [] [])
              (snd (CacheManager.set 1000 "a" (VNum (Int 1)) (VNum (Int 50))
                      (World ∅ [] []))))
    as (st & w2 & E & _ & _ & He & _ & Hexp).
  - reflexivity.
  - vm_compute. reflexivity.
  - unfold reliable. vm_compute. constructor.
  - exists st, w2. split; [exact E|]. split; [exact He|]. apply Hexp. lia.
Defined.

Lemma getStats_reliable_size (now : Z) (w : world) :
  reliable w →
  ∃ st w',
    CacheManager.getStats now w = (Normal (Some st), w') ∧
    totalSizeKB st = kb_to_fixed (totalSizeBytes st).
Proof.
  intros Hrel. unfold CacheManager.getStats, try_catch.
  unfold bind at 1. unfold localStorage.keys, bind at 1.
  rewrite (access_ok w (reliable_not_faulting w Hrel)). cbn [items advance].
  fold (cache_keys (items w)). unfold bind.
  destruct (fold_count_reliable now (cache_keys (items w)) (0, 0, 0)%nat
              (advance w) (reliable_advance w Hrel))
    as (w' & E & _).
  rewrite E. cbn [items advance] in *. rewrite fold_tally.
  unfold ret. eexists _, w'. split; reflexivity.
Qed.

Lemma kb_to_fixed_nearest (size : nat) :
  ∃ n : Z,
    kb_to_fixed size = dec_text n 2 ∧
    100 * Z.of_nat size - 512 < 1024 * n ≤ 100 * Z.of_nat size + 512.
Proof.
  set (k := ((N.of_nat size * 100 + 512) / 1024)%N).
  exists (Z.of_N k). split.
  - unfold kb_to_fixed, dec_text. fold k.
    rewrite (proj2 (Z.ltb_ge _ _)) by lia. rewrite Zabs2N.id. reflexivity.
  - pose proof (N.div_mod (N.of_nat size * 100 + 512) 1024 ltac:(lia)) as Hd.
    pose proof (N.mod_lt (N.of_nat size * 100 + 512) 1024 ltac:(lia)) as Hm.
    fold k in Hd. set (r := ((N.of_nat size * 100 + 512) mod 1024)%N) in *.
    clearbody k r. lia.
Qed.

(** X6.  On a substrate that works, [totalSizeBytes] is the sum of the
    lengths, in UTF-16 code units, of the records stored under
    namespaced keys, key names and foreign records left out, and
    [totalSizeKB] is the decimal with two fraction digits of the
    hundredth nearest to that size over 1024, the upper one on a tie. *)
Theorem stats_sizes (now : Z) (w : world) :
  reliable w →
  ∃ st w' (n : Z),
    CacheManager.getStats now w = (Normal (Some st), w') ∧
    totalSizeBytes st
    = sum_list (map (fun key => from_option js_length 0%nat (items w !! key))
                  (cache_keys (items w))) ∧
    totalSizeKB st = dec_text n 2 ∧
    100 * Z.of_nat (totalSizeBytes st) - 512 < 1024 * n
      ≤ 100 * Z.of_nat (totalSizeBytes st) + 512.
Proof.
  intros Hrel.
  destruct (getStats_reliable now w Hrel)
    as (st & w' & E & _ & _ & _ & _ & _ & Hs).
  destruct (getStats_reliable_size now w Hrel) as (st' & w'' & E' & Hkb).
  rewrite E in E'. injection E' as <- <-.
  destruct (kb_to_fixed_nearest (totalSizeBytes st)) as (n & Hn & Hb).
  exists st, w', n. rewrite Hkb. auto.
Qed.

Lemma stats_sizes_witness :
  ∃ st w' (n : Z),
    CacheManager.getStats 5
      (World {[ "cache_a" := String "195" (String "169" "2345");
                "cache_b" := "678"; "theme" := "dark" ]}
         [] [])
    = (Normal (Some st), w') ∧
    totalSizeBytes st = 8%nat ∧ totalSizeKB st = dec_text n 2.
Proof.
  destruct (stats_sizes 5
              (World {[ "cache_a" := String "195" (String "169" "2345");
                        "cache_b" := "678"; "theme" := "dark" ]} [] []))
    as (st & w' & n & E & Hs & Hkb & _).
  - constructor.
  - exists st, w', n. split; [exact E|]. split; [|exact Hkb].
    rewrite Hs. reflexivity.
Defined.

(** X7.  On a substrate that works, after [clear()] every [get] returns
    [null] and changes nothing, and a second [clear()] changes
    nothing. *)
Theorem clear_then_get (w : world) :
  reliable w →
  ∃ w1,
    CacheManager.clear w = (Normal tt, w1) ∧
    (∀ now key, ∃ w2, CacheManager.get now key w1 = (Normal VNull, w2) ∧
                      items w2 = items w1) ∧
    items (snd (CacheManager.clear w1)) = items w1.
Proof.
  intros Hrel. destruct (clear_reliable w Hrel) as (w1 & E & Hr1 & Hl).
  exists w1. split; [exact E|]. split.
  - intros now key. exists (advance w1). split; [|reflexivity].
    apply get_miss; [apply reliable_not_faulting, Hr1|].
    left. now rewrite Hl, cache_key_namespaced.
  - destruct (clear_reliable w1 Hr1) as (w2 & E2 & _ & Hl2).
    rewrite E2. cbn [snd]. apply map_eq. intros k. rewrite Hl2, Hl.
    now destruct (is_cache_key k).
Qed.

Lemma clear_then_get_witness :
  ∃ w1,
    CacheManager.clear
      (World {[ "cache_a" := q "{'data':1,'timestamp':0,'ttl':9}";
                "theme" := "dark" ]} [] [])
    = (Normal tt, w1) ∧
    ∃ w2, CacheManager.get 5 "a" w1 = (Normal VNull, w2).
Proof.
  destruct (clear_then_get
              (World {[ "cache_a" := q "{'data':1,'timestamp':0,'ttl':9}";
                        "theme" := "dark" ]} [] []))
    as (w1 & E & Hg & _).
  - constructor.
  - exists w1. split; [exact E|]. destruct (Hg 5 "a") as (w2 & H & _). eauto.
Defined.

(* ================================================================== *)
(** * The cache: what happens when the script is loaded *)






(* ================================================================== *)
(** * The clock *)

Lemma forallb_seqZ (P : Z → bool) (lo len z : Z) :
  forallb P (seqZ lo len) = true → lo ≤ z < lo + len → P z = true.
Proof.
  intros H Hz. rewrite forallb_forall in H. apply H.
  apply list_elem_of_In, elem_of_seqZ. lia.
Qed.

Lemma pad_two_digits (n : Z) :
  0 ≤ n < 100 → padStart 2 "0" (number_to_string (Int n)) = two_digits n.
Proof.
  intros Hn.
  apply (forallb_seqZ
           (fun n => bool_decide (padStart 2 "0" (number_to_string (Int n))
                                  = two_digits n)) 0 100 n) in Hn.
  - now apply bool_decide_eq_true in Hn.
  - vm_compute. reflexivity.
Qed.

Lemma digit_char_inj (a b : N) :
  (a < 10)%N → (b < 10)%N → digit_char a = digit_char b → a = b.
Proof.
  intros Ha Hb H. rewrite <- (digit_of_char a Ha), <- (digit_of_char b Hb).
  now rewrite H.
Qed.

Lemma two_digits_inj (a b : Z) :
  0 ≤ a < 100 → 0 ≤ b < 100 → two_digits a = two_digits b → a = b.
Proof.
  intros Ha Hb H. unfold two_digits in H. injection H as H1 H2.
  pose proof (Z.div_mod a 10 ltac:(lia)) as Da.
  pose proof (Z.div_mod b 10 ltac:(lia)) as Db.
  pose proof (Z.mod_pos_bound a 10 ltac:(lia)) as Ma.
  pose proof (Z.mod_pos_bound b 10 ltac:(lia)) as Mb.
  apply digit_char_inj in H1; [|lia..]. apply digit_char_inj in H2; [|lia..].
  lia.
Qed.

Lemma hour12_range (h : Z) : 0 ≤ h < 24 → 1 ≤ hour12 h ≤ 12.
Proof.
  intros H. unfold hour12. pose proof (Z.mod_pos_bound h 12 ltac:(lia)).
  destruct (Z.eqb_spec (h mod 12) 0); lia.
Qed.

Lemma time_text_shape (now : local_time) :
  valid_time now →
  time_text now
  = two_digits (hour12 (getHours now)) +:+ ":" +:+
    two_digits (getMinutes now) +:+ ":" +:+
    two_digits (getSeconds now) +:+
    (if getHours now <? 12 then " AM" else " PM").
Proof.
  intros (Hh & Hm & Hs). unfold time_text.
  rewrite (pad_two_digits (getMinutes now)), (pad_two_digits (getSeconds now))
    by lia.
  assert (Hrem : (if Z.rem (getHours now) 12 =? 0 then 12
                  else Z.rem (getHours now) 12) = hour12 (getHours now)).
  { unfold hour12. now rewrite Z.rem_mod_nonneg by lia. }
  rewrite Hrem, pad_two_digits by (pose proof (hour12_range _ Hh); lia).
  destruct (Z.leb_spec 12 (getHours now)), (Z.ltb_spec (getHours now) 12);
    try lia; reflexivity.
Qed.

(** X9.  For a valid time, [updateTimeDisplay] writes into an existing
    [timeDisplay] element a text of exactly eleven characters: the hour
    of a twelve-hour clock, between 01 and 12, then minutes and seconds,
    each on two digits, then AM before noon and PM from noon on.  It
    changes no other element, and does nothing on a page without the
    element. *)
Theorem clock_text_shape (now : local_time) (page : gmap string string) :
  valid_time now →
  let text := two_digits (hour12 (getHours now)) +:+ ":" +:+
              two_digits (getMinutes now) +:+ ":" +:+
              two_digits (getSeconds now) +:+
              (if getHours now <? 12 then " AM" else " PM") in
  1 ≤ hour12 (getHours now) ≤ 12 ∧
  String.length text = 11%nat ∧
  (is_Some (page !! "timeDisplay") →
   updateTimeDisplay now page = <["timeDisplay" := text]> page) ∧
  (page !! "timeDisplay" = None → updateTimeDisplay now page = page).
Proof.
  intros Hv. cbv zeta. pose proof (time_text_shape now Hv) as Ht.
  destruct Hv as (Hh & _). split; [apply hour12_range, Hh|]. split.
  - destruct (getHours now <? 12); reflexivity.
  - unfold updateTimeDisplay. split.
    + intros [old ->]. now rewrite Ht.
    + now intros ->.
Qed.

Lemma clock_text_shape_witness :
  updateTimeDisplay (LocalTime 0 5 9) {[ "timeDisplay" := "--" ]}
  = {[ "timeDisplay" := "12:05:09 AM" ]}.
Proof.
  destruct (clock_text_shape (LocalTime 0 5 9) {[ "timeDisplay" := "--" ]})
    as (_ & _ & H & _).
  - unfold valid_time. cbn. lia.
  - rewrite H by (eexists; reflexivity). vm_compute. reflexivity.
Defined.

Lemma two_digits_app (a b : Z) (r r' : string) :
  0 ≤ a < 100 → 0 ≤ b < 100 →
  two_digits a +:+ r = two_digits b +:+ r' → a = b ∧ r = r'.
Proof.
  intros Ha Hb H. unfold two_digits in H. cbn [String.append] in H.
  injection H as H1 H2 H. split; [|exact H].
  apply two_digits_inj; [lia | lia|]. unfold two_digits. now rewrite H1, H2.
Qed.

Lemma colon_inv (x y : string) : ":" +:+ x = ":" +:+ y → x = y.
Proof. intros H. change (String ":" x = String ":" y) in H. now injection H. Qed.

(** X10.  The clock never shows the same text for two different valid
    times of the day. *)
Theorem clock_text_injective (a b : local_time) :
  valid_time a → valid_time b → time_text a = time_text b → a = b.
Proof.
  intros Ha Hb H.
  rewrite (time_text_shape a Ha), (time_text_shape b Hb) in H.
  destruct Ha as (Hha & Hma & Hsa), Hb as (Hhb & Hmb & Hsb).
  pose proof (hour12_range _ Hha) as Hra.
  pose proof (hour12_range _ Hhb) as Hrb.
  apply two_digits_app in H as [Hh12 H]; [|lia..].
  apply colon_inv in H.
  apply two_digits_app in H as [Hm H]; [|lia..].
  apply colon_inv in H.
  apply two_digits_app in H as [Hs H]; [|lia..].
  assert (Hh : getHours a = getHours b).
  { unfold hour12 in Hh12.
    pose proof (Z.div_mod (getHours a) 12 ltac:(lia)).
    pose proof (Z.div_mod (getHours b) 12 ltac:(lia)).
    pose proof (Z.mod_pos_bound (getHours a) 12 ltac:(lia)).
    pose proof (Z.mod_pos_bound (getHours b) 12 ltac:(lia)).
    destruct (Z.ltb_spec (getHours a) 12), (Z.ltb_spec (getHours b) 12);
      try discriminate H;
      destruct (Z.eqb_spec (getHours a mod 12) 0),
               (Z.eqb_spec (getHours b mod 12) 0); lia. }
  destruct a, b. cbn in *. congruence.
Qed.

Lemma clock_text_injective_witness :
  LocalTime 13 5 9 = LocalTime 13 5 9.
Proof.
  apply (clock_text_injective (LocalTime 13 5 9) (LocalTime 13 5 9));
    [unfold valid_time; cbn; lia | unfold valid_time; cbn; lia | reflexivity].
Defined.

(* ================================================================== *)
(** * The slideshow *)

#[local] Set Warnings "-clear-no-such-hyp".

Lemma foldl_remove_fields (tok : string) (l : list nat) (p : document) :
  let p' := foldl (classList_remove tok) p l in
  container p' = container p ∧ timers p' = timers p ∧
  issued p' = issued p ∧ CONFIG p' = CONFIG p ∧
  length (classes p') = length (classes p).
Proof.
  revert p. induction l as [|node l IH]; intros p; cbn; [done|].
  destruct (IH (classList_remove tok p node)) as (-> & -> & -> & -> & ->).
  cbn. now rewrite length_alter.
Qed.

Lemma foldl_remove_classes (tok : string) (l : list nat) (p : document)
    (node : nat) :
  classes_of (foldl (classList_remove tok) p l) node
  = if decide (node ∈ l) then classes_of p node ∖ {[tok]}
    else classes_of p node.
Proof.
  revert p. induction l as [|x l IH]; intros p; cbn.
  - destruct (decide (node ∈ [])) as [H|H]; [inversion H|done].
  - rewrite IH. unfold classes_of at 1 2, classList_remove, set_classes. cbn.
    destruct (decide (x = node)) as [->|Hne].
    + rewrite list_lookup_alter_eq. fold (classes_of p node).
      rewrite (decide_True (P := node ∈ node :: l)) by left.
      unfold classes_of. clear IH.
      destruct (classes p !! node) as [c|]; cbn;
        destruct (decide (node ∈ l)) as [_|_]; set_solver.
    + rewrite list_lookup_alter_ne by done. fold (classes_of p node).
      destruct (decide (node ∈ l)) as [H|H].
      * now rewrite decide_True by now right.
      * rewrite decide_False; [done|]. intros H'. apply elem_of_cons in H'.
        destruct H'; congruence.
Qed.

Lemma add_classes (tok : string) (p : document) (node0 node : nat) :
  (node0 < length (classes p))%nat →
  classes_of (classList_add tok p node0) node
  = if decide (node = node0) then classes_of p node ∪ {[tok]}
    else classes_of p node.
Proof.
  intros Hlt. unfold classes_of, classList_add, set_classes. cbn.
  destruct (decide (node = node0)) as [->|Hne].
  - rewrite list_lookup_alter_eq.
    destruct (lookup_lt_is_Some_2 (classes p) node0 Hlt) as [c ->]. done.
  - now rewrite list_lookup_alter_ne.
Qed.

Lemma querySelectorAll_spec (cls : string) (p : document) (node : nat) :
  node ∈ querySelectorAll cls p ↔ cls ∈ classes_of p node.
Proof.
  unfold querySelectorAll. rewrite list_elem_of_filter, elem_of_seq.
  split; [tauto|]. intros H. split; [done|]. split; [lia|]. cbn.
  unfold classes_of in H. destruct (classes p !! node) eqn:E; [|set_solver].
  now apply lookup_lt_Some in E.
Qed.

Lemma querySelectorAll_valid (cls : string) (p : document) (node : nat) :
  node ∈ querySelectorAll cls p → (node < length (classes p))%nat.
Proof.
  unfold querySelectorAll. rewrite list_elem_of_filter, elem_of_seq. lia.
Qed.

Lemma querySelectorAll_NoDup (cls : string) (p : document) :
  NoDup (querySelectorAll cls p).
Proof. apply NoDup_filter, NoDup_seq. Qed.

Lemma querySelectorAll_ext (cls : string) (p p' : document) :
  length (classes p') = length (classes p) →
  (∀ node, cls ∈ classes_of p' node ↔ cls ∈ classes_of p node) →
  querySelectorAll cls p' = querySelectorAll cls p.
Proof.
  intros Hlen H. unfold querySelectorAll. rewrite Hlen.
  apply list_filter_iff. intros node. apply H.
Qed.

Lemma target_range (n index : Z) : 0 < n → 0 ≤ target n index < n.
Proof.
  intros Hn. unfold target.
  destruct (Z.leb_spec n index), (Z.ltb_spec index 0); lia.
Qed.

Lemma showSlide_ok (index : Z) (v : vars) (p : document) :
  slides v ≠ [] → NoDup (slides v) →
  (∀ node, node ∈ slides v → (node < length (classes p))%nat) →
  ∃ p',
    Slideshow.showSlide index (v, p)
    = (Normal tt,
       (Vars (target (Z.of_nat (length (slides v))) index) (slides v)
          (slideshowInterval v), p')) ∧
    one_active
      (Vars (target (Z.of_nat (length (slides v))) index) (slides v)
         (slideshowInterval v), p') ∧
    (∀ node tok, tok ≠ "active" →
       tok ∈ classes_of p' node ↔ tok ∈ classes_of p node) ∧
    (∀ node, node ∉ slides v → classes_of p' node = classes_of p node) ∧
    length (classes p') = length (classes p) ∧
    container p' = container p ∧ timers p' = timers p ∧
    issued p' = issued p ∧ CONFIG p' = CONFIG p.
Proof.
  intros Hne Hnd Hval.
  set (n := Z.of_nat (length (slides v))).
  assert (Hn : 0 < n) by (destruct (slides v); [done | subst n; cbn; lia]).
  pose proof (target_range n index Hn) as Hr.
  destruct (lookup_lt_is_Some_2 (slides v) (Z.to_nat (target n index)))
    as [node0 Hnode0]; [subst n; lia|].
  set (p1 := foldl (classList_remove "active") p (slides v)).
  destruct (foldl_remove_fields "active" (slides v) p)
    as (Hc & Ht & Hi & Hg & Hlen). fold p1 in Hc, Ht, Hi, Hg, Hlen.
  assert (Hv0 : (node0 < length (classes p1))%nat).
  { rewrite Hlen. apply Hval. eapply list_elem_of_lookup_2, Hnode0. }
  exists (classList_add "active" p1 node0). split; [|split; [|split; [|split]]].
  - unfold Slideshow.showSlide. fold n. fold (target n index). fold p1.
    unfold js_index. cbn [slides].
    destruct (Z.ltb_spec (target n index) 0); [lia|]. now rewrite Hnode0.
  - intros i node Hi'. cbn [fst snd slides currentSlide] in *.
    rewrite add_classes by done. subst p1. rewrite foldl_remove_classes.
    rewrite (decide_True (P := node ∈ slides v))
      by (eapply list_elem_of_lookup_2, Hi').
    destruct (decide (node = node0)) as [->|Hne'].
    + pose proof (NoDup_lookup _ _ _ _ Hnd Hi' Hnode0). split; [lia|set_solver].
    + split; [set_solver|]. intros E. destruct Hne'.
      rewrite <- E, Nat2Z.id in Hnode0. congruence.
  - intros node tok Htok. rewrite add_classes by done. subst p1.
    rewrite foldl_remove_classes.
    destruct (decide (node = node0)), (decide (node ∈ slides v)); set_solver.
  - intros node Hnot. rewrite add_classes by done. subst p1.
    rewrite foldl_remove_classes.
    rewrite (decide_False (P := node ∈ slides v)) by done.
    rewrite decide_False; [done|]. intros ->. destruct Hnot.
    eapply list_elem_of_lookup_2, Hnode0.
  - cbn. rewrite length_alter. tauto.
Qed.

Lemma shown_ext (v v' : vars) (p p' : document) :
  currentSlide v' = currentSlide v → slides v' = slides v →
  classes p' = classes p → shown (v, p) → shown (v', p').
Proof.
  unfold shown, one_active, querySelectorAll, classes_of. cbn.
  now intros -> -> ->.
Qed.

Lemma showSlide_query (index : Z) (v : vars) (p : document) :
  slides v = querySelectorAll "slide" p → slides v ≠ [] →
  ∃ p',
    Slideshow.showSlide index (v, p)
    = (Normal tt,
       (Vars (target (Z.of_nat (length (slides v))) index) (slides v)
          (slideshowInterval v), p')) ∧
    shown (Vars (target (Z.of_nat (length (slides v))) index) (slides v)
             (slideshowInterval v), p') ∧
    container p' = container p ∧ timers p' = timers p ∧
    issued p' = issued p ∧ CONFIG p' = CONFIG p.
Proof.
  intros Hq Hne.
  destruct (showSlide_ok index v p Hne) as (p' & E & Hact & Htok & _ & Hlen & H).
  - rewrite Hq. apply querySelectorAll_NoDup.
  - intros node. rewrite Hq. apply querySelectorAll_valid.
  - exists p'. split; [exact E|]. split; [|exact H].
    split; cbn [fst snd slides currentSlide].
    + rewrite Hq. symmetry. apply querySelectorAll_ext; [done|].
      intros node. now apply Htok.
    + intros _. split; [|exact Hact]. apply target_range.
      destruct (slides v); [done|cbn; lia].
Qed.

Lemma showSlide_empty (index : Z) (v : vars) (p : document) :
  slides v = [] →
  Slideshow.showSlide index (v, p)
  = (Throw TypeError, (Vars (target 0 index) [] (slideshowInterval v), p)).
Proof.
  intros E. unfold Slideshow.showSlide. rewrite E. cbn [length foldl slides].
  change (Z.of_nat 0) with 0. fold (target 0 index).
  unfold js_index. destruct (target 0 index <? 0); [done|].
  now rewrite lookup_nil.
Qed.

Lemma showSlide_shown (index : Z) (t : tab) :
  shown t → shown (snd (Slideshow.showSlide index t)).
Proof.
  destruct t as [v p]. intros [Hq Hs]. cbn [fst snd] in *.
  destruct (decide (slides v = [])) as [E|Hne].
  - rewrite showSlide_empty by done. split; cbn; [now rewrite <- Hq|done].
  - destruct (showSlide_query index v p Hq Hne) as (p' & -> & H & _). exact H.
Qed.

Lemma configured_normal (config : value) (p : string) (dflt : value) :
  ∃ d, configured config p dflt = Normal d.
Proof.
  unfold configured. destruct (truthy config) eqn:E; [|eauto].
  destruct config; try discriminate E; cbn; eauto.
Qed.

Lemma initSlideshow_spec (v : vars) (p : document) :
  let s := querySelectorAll "slide" p in
  (s = [] ∧
   Slideshow.initSlideshow (v, p)
   = (Normal tt, (Vars (currentSlide v) [] (slideshowInterval v), p))) ∨
  (s ≠ [] ∧ ∃ p' d,
     configured (CONFIG p) "SLIDESHOW_INTERVAL" Slideshow.DEFAULT_INTERVAL_MS
     = Normal d ∧
     Slideshow.initSlideshow (v, p)
     = (Normal tt,
        (Vars 0 s (Some (S (issued p))),
         Document (classes p') (container p)
           (<[S (issued p) := d]> (timers p)) (S (issued p)) (CONFIG p))) ∧
     shown (Vars 0 s None, p')).
Proof.
  intros s. unfold Slideshow.initSlideshow. cbn [slides]. fold s.
  destruct (decide (s = [])) as [E|Hne].
  - left. split; [done|]. now rewrite E.
  - right. split; [done|].
    destruct (Nat.ltb_spec 0 (length s)) as [_|H];
      [|destruct s; [done|cbn in H; lia]].
    destruct (showSlide_query 0
                (Vars (currentSlide v) s (slideshowInterval v)) p eq_refl Hne)
      as (p' & E & Hs & Hc & Ht & Hi & Hg).
    cbn [slides slideshowInterval] in E, Hs. rewrite E.
    assert (Ht0 : target (Z.of_nat (length s)) 0 = 0).
    { unfold target. destruct (Z.leb_spec (Z.of_nat (length s)) 0); [lia|done]. }
    rewrite Ht0 in *. rewrite Hg.
    destruct (configured_normal (CONFIG p) "SLIDESHOW_INTERVAL"
                Slideshow.DEFAULT_INTERVAL_MS) as [d Hd].
    exists p', d. split; [done|]. rewrite Hd. unfold setInterval.
    cbn [currentSlide slides]. rewrite Hc, Ht, Hi, Hg. split; [done|].
    eapply shown_ext, Hs; done.
Qed.

Lemma showSlide_frame (index : Z) (v : vars) (p : document) :
  let t' := snd (Slideshow.showSlide index (v, p)) in
  slides (fst t') = slides v ∧
  slideshowInterval (fst t') = slideshowInterval v ∧
  container (snd t') = container p ∧ timers (snd t') = timers p ∧
  issued (snd t') = issued p ∧ CONFIG (snd t') = CONFIG p.
Proof.
  destruct (foldl_remove_fields "active" (slides v) p) as (Hc & Ht & Hi & Hg & _).
  unfold Slideshow.showSlide. cbn [slides].
  destruct (js_index _ _); cbn; tauto.
Qed.

Lemma showSlide_timed (index : Z) (t : tab) :
  timed t → timed (snd (Slideshow.showSlide index t)).
Proof.
  destruct t as [v p].
  destruct (showSlide_frame index v p) as (Hs & Hi & _ & Ht & _ & Hg).
  unfold timed. cbn [fst snd] in *. now rewrite Hs, Hi, Ht, Hg.
Qed.

Lemma display_shown (d : string) (v : vars) (p : document) :
  shown (v, p) → shown (v, set_display d p).
Proof.
  apply shown_ext; try done. unfold set_display. now destruct (container p).
Qed.

Lemma display_timed (d : string) (v : vars) (p : document) :
  timed (v, p) → timed (v, set_display d p).
Proof.
  unfold timed, set_display. cbn [fst snd]. now destruct (container p).
Qed.

Lemma stopSlideshow_shown (t : tab) :
  shown t → shown (Slideshow.stopSlideshow t).
Proof.
  destruct t as [v p]. unfold Slideshow.stopSlideshow.
  destruct (slideshowInterval v) as [h|]; [|done].
  destruct (0 <? h)%nat; [|done]. now apply shown_ext.
Qed.

Lemma stopSlideshow_timed (t : tab) :
  timed t →
  slideshowInterval (fst (Slideshow.stopSlideshow t)) = None ∧
  timers (snd (Slideshow.stopSlideshow t)) = ∅.
Proof.
  destruct t as [v p]. unfold timed, Slideshow.stopSlideshow. cbn [fst snd].
  destruct (slideshowInterval v) as [h|] eqn:E; [|cbn; now rewrite E].
  intros (Hh & _ & d & _ & Ht). apply Nat.ltb_lt in Hh. rewrite Hh. cbn.
  split; [done|]. rewrite Ht. apply delete_singleton_eq.
Qed.

Lemma initSlideshow_shown (t : tab) : shown (snd (Slideshow.initSlideshow t)).
Proof.
  destruct t as [v p].
  destruct (initSlideshow_spec v p) as [[E ->]|(Hne & p' & d & _ & -> & Hs)].
  - split; cbn; [now rewrite E|done].
  - revert Hs. now apply shown_ext.
Qed.

Lemma initSlideshow_timed (t : tab) :
  slideshowInterval (fst t) = None → timers (snd t) = ∅ →
  timed (snd (Slideshow.initSlideshow t)).
Proof.
  destruct t as [v p]. cbn [fst snd]. intros Hi Ht.
  destruct (initSlideshow_spec v p) as [[E ->]|(Hne & p' & d & Hd & -> & Hs)];
    unfold timed; cbn [fst snd slideshowInterval slides timers CONFIG].
  - now rewrite Hi.
  - split; [lia|]. split; [done|]. exists d. split; [done|].
    rewrite Ht. apply insert_empty.
Qed.

Lemma restartSlideshow_timed (t : tab) :
  timed t → timed (snd (Slideshow.restartSlideshow t)).
Proof.
  intros H. apply stopSlideshow_timed in H as [Hi Ht].
  now apply initSlideshow_timed.
Qed.

Lemma api_call_shown (t t' : tab) : api_call t t' → shown t → shown t'.
Proof.
  intros [[v p]|[v p]|[v p]|[v p]|[v p]] H.
  - now apply showSlide_shown.
  - now apply showSlide_shown.
  - apply initSlideshow_shown.
  - now apply stopSlideshow_shown, display_shown.
  - apply initSlideshow_shown.
Qed.

Lemma api_call_timed (t t' : tab) : api_call t t' → timed t → timed t'.
Proof.
  intros [[v p]|[v p]|[v p]|[v p]|[v p]] H.
  - now apply showSlide_timed.
  - now apply showSlide_timed.
  - now apply restartSlideshow_timed, display_timed.
  - apply (display_timed "none"), stopSlideshow_timed in H as [Hi Ht].
    unfold Slideshow.hide, timed. cbn [snd]. now rewrite Hi.
  - now apply restartSlideshow_timed.
Qed.

Lemma showSlide_leaked (h : nat) (d : value) (index : Z) (t : tab) :
  leaked h d t → leaked h d (snd (Slideshow.showSlide index t)).
Proof.
  destruct t as [v p].
  destruct (showSlide_frame index v p) as (_ & Hi & _ & Ht & Hn & _).
  unfold leaked. cbn [fst snd] in *. now rewrite Hi, Ht, Hn.
Qed.

Lemma display_leaked (h : nat) (d : value) (s : string) (v : vars)
    (p : document) :
  leaked h d (v, p) → leaked h d (v, set_display s p).
Proof.
  unfold leaked, set_display. cbn [fst snd]. now destruct (container p).
Qed.

Lemma stopSlideshow_leaked (h : nat) (d : value) (t : tab) :
  leaked h d t → leaked h d (Slideshow.stopSlideshow t).
Proof.
  destruct t as [v p]. unfold leaked, Slideshow.stopSlideshow. cbn [fst snd].
  intros (Ht & Hi & Hne).
  destruct (slideshowInterval v) as [h'|] eqn:E; [|cbn; now rewrite E].
  destruct (0 <? h')%nat; [|cbn; now rewrite E]. cbn.
  split; [|done]. rewrite lookup_delete_ne; [done|]. congruence.
Qed.

Lemma initSlideshow_leaked (h : nat) (d : value) (t : tab) :
  leaked h d t → leaked h d (snd (Slideshow.initSlideshow t)).
Proof.
  destruct t as [v p]. intros (Ht & Hi & Hne). cbn [fst snd] in *.
  destruct (initSlideshow_spec v p) as [[E ->]|(_ & p' & d' & _ & -> & _)];
    unfold leaked; cbn [fst snd slideshowInterval timers issued].
  - done.
  - split; [|split; [lia|]].
    + rewrite lookup_insert_ne; [done|lia].
    + intros [= E]. lia.
Qed.

Lemma any_call_leaked (h : nat) (d : value) (t t' : tab) :
  any_call t t' → leaked h d t → leaked h d t'.
Proof.
  intros [? ? [[v p]|[v p]|[v p]|[v p]|[v p]]|[v p]] H.
  - now apply showSlide_leaked.
  - now apply showSlide_leaked.
  - now apply initSlideshow_leaked, stopSlideshow_leaked, display_leaked.
  - now apply stopSlideshow_leaked, display_leaked.
  - now apply initSlideshow_leaked, stopSlideshow_leaked.
  - now apply initSlideshow_leaked.
Qed.

Lemma any_call_shown (t t' : tab) : any_call t t' → shown t → shown t'.
Proof.
  intros [? ? Hc|[v p]] H; [now apply (api_call_shown _ _ Hc)|].
  apply initSlideshow_shown.
Qed.

Lemma reachable_shown (t0 t : tab) :
  rtc any_call (snd (Slideshow.initSlideshow t0)) t → shown t.
Proof.
  intros H. eapply (rtc_ind_r (fun t => shown t)); [| |exact H].
  - apply initSlideshow_shown.
  - intros y z _ Hc IH. now apply (any_call_shown _ _ Hc).
Qed.

Lemma reachable_timed (p0 : document) (t : tab) :
  timers p0 = ∅ →
  rtc api_call (snd (Slideshow.initSlideshow (vars0, p0))) t → timed t.
Proof.
  intros H0 H. eapply (rtc_ind_r (fun t => timed t)); [| |exact H].
  - now apply initSlideshow_timed.
  - intros y z _ Hc IH. now apply (api_call_timed _ _ Hc).
Qed.

Lemma shown_slides (t : tab) :
  shown t → slides (fst t) ≠ [] →
  ∀ index, ∃ p',
    Slideshow.showSlide index t
    = (Normal tt,
       (Vars (target (Z.of_nat (length (slides (fst t)))) index)
          (slides (fst t)) (slideshowInterval (fst t)), p')) ∧
    shown (Vars (target (Z.of_nat (length (slides (fst t)))) index)
             (slides (fst t)) (slideshowInterval (fst t)), p').
Proof.
  destruct t as [v p]. intros [Hq _] Hne index. cbn [fst snd] in *.
  destruct (showSlide_query index v p Hq Hne) as (p' & E & H & _). eauto.
Qed.

(** X11.  On a list of distinct slide elements of the page that is not
    empty, [showSlide index] returns normally.  The current slide becomes
    [index] if that is a position of the list, the first slide if [index]
    is past the end, the last one if [index] is negative.  Afterwards a
    slide carries the class active exactly when it is the current one;
    no other class of any element has changed, and the elements that are
    no slides are as they were. *)
Theorem showSlide_marks_one_slide (index : Z) (v : vars) (p : document) :
  slides v ≠ [] → NoDup (slides v) →
  (∀ node, node ∈ slides v → (node < length (classes p))%nat) →
  let n := Z.of_nat (length (slides v)) in
  let t' := snd (Slideshow.showSlide index (v, p)) in
  fst (Slideshow.showSlide index (v, p)) = Normal tt ∧
  currentSlide (fst t')
  = (if n <=? index then 0 else if index <? 0 then n - 1 else index) ∧
  0 ≤ currentSlide (fst t') < n ∧
  one_active t' ∧
  (∀ node tok, tok ≠ "active" →
     tok ∈ classes_of (snd t') node ↔ tok ∈ classes_of p node) ∧
  (∀ node, node ∉ slides v → classes_of (snd t') node = classes_of p node).
Proof.
  intros Hne Hnd Hval n t'. subst t'.
  destruct (showSlide_ok index v p Hne Hnd Hval)
    as (p' & -> & Hact & Htok & Hout & _).
  cbn [fst snd currentSlide]. fold n.
  split; [done|]. split; [done|]. split; [|done].
  apply target_range. subst n. destruct (slides v); [done|cbn; lia].
Qed.

(** X12.  On a page with slides, in every state reached from a run of
    [initSlideshow] by calls of the exported functions and further runs
    of [initSlideshow]: [next] moves from slide [c] of [n] to slide
    [(c + 1) mod n], [previous] to slide [(c - 1) mod n], and each of the
    two undoes the other. *)
Theorem next_previous_cycle (t0 t : tab) :
  rtc any_call (snd (Slideshow.initSlideshow t0)) t →
  slides (fst t) ≠ [] →
  let n := Z.of_nat (length (slides (fst t))) in
  let c := currentSlide (fst t) in
  let after_next := snd (Slideshow.nextSlide t) in
  let after_previous := snd (Slideshow.previousSlide t) in
  currentSlide (fst after_next) = (c + 1) mod n ∧
  currentSlide (fst after_previous) = (c - 1) mod n ∧
  currentSlide (fst (snd (Slideshow.previousSlide after_next))) = c ∧
  currentSlide (fst (snd (Slideshow.nextSlide after_previous))) = c.
Proof.
  intros Hr Hne. cbv zeta. apply reachable_shown in Hr as Hs.
  pose proof Hs as [_ Hc]. destruct (Hc Hne) as [Hrange _]. clear Hc.
  set (n := Z.of_nat (length (slides (fst t)))) in *.
  set (c := currentSlide (fst t)) in *.
  unfold Slideshow.nextSlide, Slideshow.previousSlide.
  destruct (shown_slides t Hs Hne (c + 1)) as (p1 & E1 & Hs1).
  destruct (shown_slides t Hs Hne (c - 1)) as (p2 & E2 & Hs2).
  fold n in E1, E2, Hs1, Hs2. fold c. rewrite E1, E2. cbn [fst snd currentSlide].
  destruct (shown_slides _ Hs1 Hne (target n (c + 1) - 1)) as (p3 & E3 & _).
  destruct (shown_slides _ Hs2 Hne (target n (c - 1) + 1)) as (p4 & E4 & _).
  cbn [fst snd slides slideshowInterval] in E3, E4. fold n in E3, E4.
  rewrite E3, E4. cbn [fst snd currentSlide]. unfold target.
  assert (Hn1 : (c + 1) mod n = if n <=? c + 1 then 0 else c + 1).
  { destruct (Z.leb_spec n (c + 1)).
    - replace (c + 1) with n by lia. apply Z.mod_same. lia.
    - apply Z.mod_small. lia. }
  assert (Hp1 : (c - 1) mod n = if c - 1 <? 0 then n - 1 else c - 1).
  { destruct (Z.ltb_spec (c - 1) 0).
    - replace (c - 1) with (-1) by lia.
      symmetry. apply (Z.mod_unique_pos _ _ (-1)); lia.
    - apply Z.mod_small. lia. }
  rewrite Hn1, Hp1.
  repeat match goal with
  | |- context [Z.leb ?a ?b] => destruct (Z.leb_spec a b)
  | |- context [Z.ltb ?a ?b] => destruct (Z.ltb_spec a b)
  end; lia.
Qed.

Lemma showSlide_marks_one_slide_witness :
  currentSlide (fst (snd (Slideshow.showSlide 3
                            (Vars 0 [1; 2; 4]%nat None, demo_page)))) = 0.
Proof.
  refine (proj1 (proj2 (showSlide_marks_one_slide 3
                          (Vars 0 [1; 2; 4]%nat None) demo_page _ _ _))).
  - discriminate.
  - cbn. repeat (apply NoDup_cons; split; [rewrite ?elem_of_cons, elem_of_nil; lia|]).
    apply NoDup_nil_2.
  - intros node H. cbn in *. rewrite ?elem_of_cons, elem_of_nil in H. lia.
Defined.

Lemma next_previous_cycle_witness :
  currentSlide (fst (snd (Slideshow.nextSlide
     (snd (Slideshow.initSlideshow (vars0, demo_page)))))) = (0 + 1) mod 3.
Proof.
  refine (proj1 (next_previous_cycle (vars0, demo_page)
                   (snd (Slideshow.initSlideshow (vars0, demo_page)))
                   _ _)).
  - apply rtc_refl.
  - vm_compute. discriminate.
Defined.

(** X13.  While the module has no slides, which is the case until
    [initSlideshow] has run and on a page without slide elements, [next]
    and [previous] throw a TypeError.  They leave the page as it is, but
    not the current slide: [next] sets it to 0 from a position that is
    not negative, [previous] to -1 from a position that is not
    positive. *)
Theorem empty_slideshow_throws (v : vars) (p : document) :
  slides v = [] →
  fst (Slideshow.nextSlide (v, p)) = Throw TypeError ∧
  fst (Slideshow.previousSlide (v, p)) = Throw TypeError ∧
  snd (snd (Slideshow.nextSlide (v, p))) = p ∧
  snd (snd (Slideshow.previousSlide (v, p))) = p ∧
  (0 ≤ currentSlide v →
   currentSlide (fst (snd (Slideshow.nextSlide (v, p)))) = 0) ∧
  (currentSlide v ≤ 0 →
   currentSlide (fst (snd (Slideshow.previousSlide (v, p)))) = -1).
Proof.
  intros E. unfold Slideshow.nextSlide, Slideshow.previousSlide. cbn [fst].
  rewrite !showSlide_empty by done. cbn [fst snd currentSlide].
  repeat split; intros H; unfold target.
  - destruct (Z.leb_spec 0 (currentSlide v + 1)); [done|lia].
  - destruct (Z.leb_spec 0 (currentSlide v - 1)); [lia|].
    destruct (Z.ltb_spec (currentSlide v - 1) 0); [done|lia].
Qed.

Lemma empty_slideshow_throws_witness :
  fst (Slideshow.nextSlide (vars0, demo_page)) = Throw TypeError.
Proof.
  exact (proj1 (empty_slideshow_throws vars0 demo_page eq_refl)).
Defined.

(** X14.  In every state reached from a run of [initSlideshow] by calls
    of the exported functions and further runs of [initSlideshow], the
    slides of the module are the slide elements of the page in document
    order and, if there are any, the current slide is one of them and a
    slide is marked active exactly when it is the current one. *)
Theorem current_slide_is_the_active_one (t0 t : tab) :
  rtc any_call (snd (Slideshow.initSlideshow t0)) t →
  slides (fst t) = querySelectorAll "slide" (snd t) ∧
  (slides (fst t) ≠ [] →
   0 ≤ currentSlide (fst t) < Z.of_nat (length (slides (fst t))) ∧
   ∀ i node, slides (fst t) !! i = Some node →
     "active" ∈ classes_of (snd t) node ↔ Z.of_nat i = currentSlide (fst t)).
Proof.
  intros H. change (shown t).
  eapply (rtc_ind_r (fun t => shown t)); [| |exact H].
  - apply initSlideshow_shown.
  - intros y z _ Hcall IH. destruct Hcall as [y z Hapi|[v p]].
    + now apply (api_call_shown y z).
    + apply initSlideshow_shown.
Qed.

Lemma current_slide_is_the_active_one_witness :
  slides (fst (snd (Slideshow.previousSlide
                      (snd (Slideshow.initSlideshow (vars0, demo_page))))))
  = querySelectorAll "slide"
      (snd (snd (Slideshow.previousSlide
                   (snd (Slideshow.initSlideshow (vars0, demo_page)))))).
Proof.
  refine (proj1 (current_slide_is_the_active_one (vars0, demo_page) _ _)).
  apply rtc_once, call_api, call_previous.
Defined.

(** X15.  On a page where no slideshow timer runs when the script is
    loaded, after [initSlideshow] and any calls of [next], [previous],
    [show], [hide] and [restart]: either no handle is recorded and no
    timer runs, or the recorded handle belongs to the only running timer,
    whose delay is the configured interval (8000 without one), and a tick
    of that timer, a call of [nextSlide], returns normally. *)
Theorem single_timer (p0 : document) (t : tab) :
  timers p0 = ∅ →
  rtc api_call (snd (Slideshow.initSlideshow (vars0, p0))) t →
  match slideshowInterval (fst t) with
  | Some h =>
      ∃ d, configured (CONFIG (snd t)) "SLIDESHOW_INTERVAL" (VNum (Int 8000))
           = Normal d ∧
           timers (snd t) = {[h := d]} ∧
           fst (Slideshow.nextSlide t) = Normal tt
  | None => timers (snd t) = ∅
  end.
Proof.
  intros H0 H. pose proof (reachable_timed p0 t H0 H) as Ht.
  assert (Hs : shown t).
  { apply (reachable_shown (vars0, p0)). revert H. apply rtc_subrel.
    intros x y. apply call_api. }
  unfold timed in Ht. destruct (slideshowInterval (fst t)); [|done].
  destruct Ht as (_ & Hne & d & Hd & Ht). exists d. split; [done|].
  split; [done|]. unfold Slideshow.nextSlide.
  destruct (shown_slides t Hs Hne (currentSlide (fst t) + 1)) as (p' & -> & _).
  done.
Qed.

Lemma single_timer_witness :
  match
    slideshowInterval
      (fst (snd (Slideshow.show
                   (snd (Slideshow.initSlideshow (vars0, demo_page))))))
  with
  | Some h =>
      ∃ d, configured
             (CONFIG (snd (snd (Slideshow.show
                (snd (Slideshow.initSlideshow (vars0, demo_page)))))))
             "SLIDESHOW_INTERVAL" (VNum (Int 8000)) = Normal d ∧
           timers (snd (snd (Slideshow.show
             (snd (Slideshow.initSlideshow (vars0, demo_page))))))
           = {[h := d]} ∧
           fst (Slideshow.nextSlide (snd (Slideshow.show
             (snd (Slideshow.initSlideshow (vars0, demo_page))))))
           = Normal tt
  | None =>
      timers (snd (snd (Slideshow.show
        (snd (Slideshow.initSlideshow (vars0, demo_page)))))) = ∅
  end.
Proof.
  apply (single_timer demo_page); [reflexivity|].
  apply rtc_once, call_show.
Defined.

(** X16.  A run of [initSlideshow] on a page with slides, while a
    handle is recorded and its timer runs, loses that timer: whatever is
    called afterwards, the old timer keeps running and its handle is
    never recorded again. *)
Theorem second_init_leaks_timer (v : vars) (p : document) (h : nat)
    (d : value) :
  slideshowInterval v = Some h → timers p !! h = Some d →
  (h ≤ issued p)%nat → querySelectorAll "slide" p ≠ [] →
  ∀ t, rtc any_call (snd (Slideshow.initSlideshow (v, p))) t →
    timers (snd t) !! h = Some d ∧ slideshowInterval (fst t) ≠ Some h.
Proof.
  intros Hi Ht Hh Hq t H.
  enough (leaked h d t) as (? & _ & ?) by done.
  eapply (rtc_ind_r (fun t => leaked h d t)); [| |exact H].
  - destruct (initSlideshow_spec v p) as [[E _]|(_ & p' & d' & _ & -> & _)];
      [done|].
    unfold leaked. cbn [fst snd slideshowInterval timers issued].
    split; [|split; [lia|]].
    + rewrite lookup_insert_ne; [done|lia].
    + intros [= E]. lia.
  - intros y z _ Hc IH. now apply (any_call_leaked _ _ _ _ Hc).
Qed.

Lemma second_init_leaks_timer_witness :
  timers (snd (snd (Slideshow.hide (snd (Slideshow.initSlideshow
            (snd (Slideshow.initSlideshow (vars0, demo_page)))))))) !! 1%nat
  = Some (VNum (Int 8000)).
Proof.
  refine (proj1 (second_init_leaks_timer
                   (fst (snd (Slideshow.initSlideshow (vars0, demo_page))))
                   (snd (snd (Slideshow.initSlideshow (vars0, demo_page))))
                   1%nat (VNum (Int 8000)) _ _ _ _ _ _)).
  - reflexivity.
  - vm_compute. reflexivity.
  - vm_compute. lia.
  - vm_compute. discriminate.
  - rewrite <- surjective_pairing. apply rtc_once, call_api, call_hide.
Defined.

Lemma stopSlideshow_frame (v : vars) (p : document) :
  let t' := Slideshow.stopSlideshow (v, p) in
  classes (snd t') = classes p ∧ container (snd t') = container p ∧
  issued (snd t') = issued p ∧ CONFIG (snd t') = CONFIG p.
Proof.
  unfold Slideshow.stopSlideshow. destruct (slideshowInterval v) as [h|]; [|done].
  now destruct (0 <? h)%nat.
Qed.

Lemma set_display_frame (d : string) (p : document) :
  classes (set_display d p) = classes p ∧
  container (set_display d p)
  = match container p with Some _ => Some d | None => None end ∧
  CONFIG (set_display d p) = CONFIG p.
Proof. unfold set_display. now destruct (container p) eqn:E. Qed.

Lemma querySelectorAll_classes (cls : string) (p p' : document) :
  classes p' = classes p → querySelectorAll cls p' = querySelectorAll cls p.
Proof. unfold querySelectorAll, classes_of. now intros ->. Qed.

(** X17.  On a page with slides [show] returns normally and starts over
    at the first slide, whatever the current slide was: the current slide
    is 0 and the only one marked active, the module holds the slide
    elements of the page, the container, if the page has one, has the
    display flex, and the recorded handle belongs to a running timer with
    the configured interval. *)
Theorem show_restarts_at_first_slide (v : vars) (p : document) :
  querySelectorAll "slide" p ≠ [] →
  let t' := snd (Slideshow.show (v, p)) in
  fst (Slideshow.show (v, p)) = Normal tt ∧
  currentSlide (fst t') = 0 ∧
  slides (fst t') = querySelectorAll "slide" p ∧
  one_active t' ∧
  container (snd t')
  = match container p with Some _ => Some "flex" | None => None end ∧
  ∃ h d, slideshowInterval (fst t') = Some h ∧
         timers (snd t') !! h = Some d ∧
         configured (CONFIG p) "SLIDESHOW_INTERVAL" (VNum (Int 8000))
         = Normal d.
Proof.
  intros Hq. cbv zeta. unfold Slideshow.show, Slideshow.restartSlideshow.
  destruct (set_display_frame "flex" p) as (Hc1 & Hd1 & Hg1).
  destruct (stopSlideshow_frame v (set_display "flex" p))
    as (Hc2 & Hd2 & _ & Hg2).
  destruct (Slideshow.stopSlideshow (v, set_display "flex" p)) as [v2 p2].
  cbn [fst snd] in *.
  assert (Hq2 : querySelectorAll "slide" p2 = querySelectorAll "slide" p).
  { apply querySelectorAll_classes. congruence. }
  destruct (initSlideshow_spec v2 p2)
    as [[E _]|(_ & p' & d & Hd & -> & Hs)]; [congruence|].
  cbn [fst snd currentSlide slides slideshowInterval container timers].
  rewrite Hq2. split; [done|]. split; [done|]. split; [done|].
  split; [|split; [congruence|]].
  - destruct Hs as [_ Hs]. cbn [fst snd slides] in Hs.
    destruct (Hs ltac:(now rewrite Hq2)) as [_ Ha]. rewrite Hq2 in Ha.
    exact Ha.
  - exists (S (issued p2)), d. split; [done|]. split.
    + apply lookup_insert_eq.
    + rewrite <- Hd. f_equal. congruence.
Qed.

Lemma show_restarts_at_first_slide_witness :
  currentSlide (fst (snd (Slideshow.show (Vars 2 [] None, demo_page)))) = 0.
Proof.
  refine (proj1 (proj2 (show_restarts_at_first_slide (Vars 2 [] None)
                          demo_page _))).
  vm_compute. discriminate.
Defined.

(* ================================================================== *)
(** * The daily forecast *)

Lemma assoc_obj_set {A : Type} (k k0 : string) (v : A) (l : list (string * A)) :
  assoc k (obj_set k0 v l) = if String.eqb k k0 then Some v else assoc k l.
Proof.
  induction l as [|[k' v'] l IH]; cbn.
  - now destruct (String.eqb k k0).
  - destruct (String.eqb_spec k0 k') as [->|Hne]; cbn.
    + now destruct (String.eqb_spec k k').
    + rewrite IH. destruct (String.eqb_spec k k') as [->|Hne'];
        [|done]. destruct (String.eqb_spec k' k0); [congruence|done].
Qed.

Lemma obj_set_order {A : Type} (k0 : string) (v : A) (l : list (string * A)) :
  (obj_set k0 v l).*1
  = match assoc k0 l with Some _ => l.*1 | None => l.*1 ++ [k0] end.
Proof.
  induction l as [|[k' v'] l IH]; cbn; [done|].
  destruct (String.eqb_spec k0 k') as [->|Hne]; cbn; [done|].
  rewrite IH. now destruct (assoc k0 l).
Qed.

Lemma assoc_keys {A : Type} (k : string) (l : list (string * A)) :
  k ∈ l.*1 ↔ is_Some (assoc k l).
Proof.
  induction l as [|[k' v'] l IH]; cbn.
  - rewrite elem_of_nil. split; [done|]. now intros [? ?].
  - rewrite elem_of_cons, IH. destruct (String.eqb_spec k k'); [|tauto].
    split; eauto.
Qed.

Lemma elem_of_days (date_key : number → string) (k : string)
    (l : list reading) :
  k ∈ days date_key l ↔ ∃ r, r ∈ l ∧ date_key (dt r) = k.
Proof.
  induction l as [|x l IH]; cbn.
  - rewrite elem_of_nil. split; [done|]. intros (r & H & _).
    now apply elem_of_nil in H.
  - rewrite elem_of_cons, list_elem_of_filter, IH. split.
    + intros [->|(_ & r & Hr & E)].
      * exists x. split; [left|done].
      * exists r. split; [now right|done].
    + intros (r & Hr & E). apply elem_of_cons in Hr as [->|Hr]; [now left|].
      destruct (decide (k = date_key (dt x))); [now left|right]. eauto.
Qed.

Lemma days_snoc (date_key : number → string) (l : list reading) (r : reading) :
  days date_key (l ++ [r])
  = if decide (date_key (dt r) ∈ days date_key l) then days date_key l
    else days date_key l ++ [date_key (dt r)].
Proof.
  induction l as [|x l IH]; cbn.
  - rewrite decide_False by apply not_elem_of_nil. done.
  - rewrite IH. set (k := date_key (dt r)). set (kx := date_key (dt x)).
    destruct (decide (k ∈ days date_key l)) as [Hin|Hout].
    + rewrite decide_True; [done|].
      destruct (decide (k = kx)) as [->|Hne]; [left|].
      right. now apply list_elem_of_filter.
    + rewrite filter_app.
      destruct (decide (k = kx)) as [E|Hne].
      * rewrite decide_True by (rewrite E; left).
        rewrite filter_cons_False by (intros H; now apply H).
        now rewrite app_nil_r.
      * rewrite decide_False.
        -- now rewrite filter_cons_True by done.
        -- intros H. apply elem_of_cons in H as [H|H]; [done|].
           apply list_elem_of_filter in H as [_ H]. done.
Qed.

Lemma readings_of_snoc (date_key : number → string) (k : string)
    (l : list reading) (r : reading) :
  readings_of date_key k (l ++ [r])
  = readings_of date_key k l ++ (if decide (date_key (dt r) = k) then [r] else []).
Proof.
  unfold readings_of. rewrite filter_app. reflexivity.
Qed.

Lemma readings_of_days (date_key : number → string) (k : string)
    (l : list reading) :
  k ∈ days date_key l ↔ readings_of date_key k l ≠ [].
Proof.
  rewrite elem_of_days. unfold readings_of. split.
  - intros (r & Hr & E) H.
    assert (Hin : r ∈ filter (fun r => date_key (dt r) = k) l)
      by now apply list_elem_of_filter.
    rewrite H in Hin. now apply elem_of_nil in Hin.
  - intros H. destruct (filter _ l) as [|r rest] eqn:E; [done|].
    assert (Hin : r ∈ filter (fun r => date_key (dt r) = k) l)
      by (rewrite E; left).
    apply list_elem_of_filter in Hin as [? ?]. eauto.
Qed.

Lemma aggregate_item_reading (date_key : number → string) (l : list reading)
    (acc : list (string * value)) (r : reading) :
  holds date_key l acc →
  ∃ acc', Weather.aggregate_item date_key acc (item_of r) = Normal acc' ∧
          holds date_key (l ++ [r]) acc'.
Proof.
  intros [Hk Ha]. set (k0 := date_key (dt r)).
  pose proof (Ha k0) as Ha0.
  assert (Hstep : ∃ d,
    Weather.aggregate_item date_key acc (item_of r)
    = Normal (obj_set k0 d acc) ∧
    Some d = match readings_of date_key k0 (l ++ [r]) with
             | r :: rest => Some (day_of r rest)
             | [] => None
             end).
  { rewrite readings_of_snoc. rewrite decide_True by done.
    unfold Weather.aggregate_item. cbn -[num_max num_min]. fold k0.
    rewrite Ha0. destruct (readings_of date_key k0 l) as [|r0 rest].
    - eexists. split; reflexivity.
    - cbn -[num_max num_min]. eexists. split; [reflexivity|].
      unfold day_of. rewrite !fmap_app, !foldl_app. reflexivity. }
  destruct Hstep as (d & -> & Hd). eexists. split; [done|]. split.
  - rewrite obj_set_order, days_snoc, Hk. fold k0.
    destruct (decide (k0 ∈ days date_key l)) as [Hin|Hout].
    + rewrite <- Hk in Hin. apply assoc_keys in Hin as [? ->]. done.
    + rewrite <- Hk in Hout. rewrite assoc_keys in Hout.
      destruct (assoc k0 acc); [destruct Hout; eauto|done].
  - intros k. rewrite assoc_obj_set.
    destruct (String.eqb_spec k k0) as [->|Hne]; [exact Hd|].
    rewrite readings_of_snoc, decide_False by (fold k0; congruence).
    rewrite app_nil_r. apply Ha.
Qed.

Lemma forEach_readings (date_key : number → string) (rs pre : list reading)
    (acc : list (string * value)) :
  holds date_key pre acc →
  ∃ acc', forEach (Weather.aggregate_item date_key) (item_of <$> rs) acc
          = Normal acc' ∧
          holds date_key (pre ++ rs) acc'.
Proof.
  revert pre acc. induction rs as [|r rs IH]; intros pre acc H.
  - exists acc. now rewrite app_nil_r.
  - rewrite fmap_cons. cbn [forEach].
    destruct (aggregate_item_reading date_key pre acc r H) as (acc1 & -> & H1).
    cbn [and_then]. destruct (IH _ _ H1) as (acc' & E & H'). exists acc'.
    split; [done|]. now rewrite <- app_assoc in H'.
Qed.

(** X18.  On a list of readings as the weather service sends them,
    [aggregateDailyForecasts] returns an object with one entry for every
    day of the list, in the order in which the days first occur.  The
    entry of a day has the icon and the description of the first reading
    of that day, never of a later one, and for [temp_max] and [temp_min]
    the [Math.max] and the [Math.min] of the day's readings. *)
Theorem aggregate_by_day (date_key : number → string) (rs : list reading) :
  ∃ l, Weather.aggregateDailyForecasts date_key (VArr (item_of <$> rs))
       = Normal (VObj l) ∧
       l.*1 = days date_key rs ∧
       ∀ k r rest, readings_of date_key k rs = r :: rest →
         assoc k l = Some (day_of r rest).
Proof.
  destruct (forEach_readings date_key rs [] []) as (l & E & Hk & Ha).
  - split; [done|]. intros k. reflexivity.
  - exists l. unfold Weather.aggregateDailyForecasts. rewrite E. cbn.
    split; [done|]. split; [done|]. intros k r rest Hr.
    rewrite Ha. cbn [app]. now rewrite Hr.
Qed.

Lemma and_then_normal {A B : Type} (o : outcome A) (k : A → outcome B) (b : B) :
  and_then o k = Normal b → ∃ a, o = Normal a ∧ k a = Normal b.
Proof. destruct o as [a|e]; [eauto|discriminate]. Qed.

Lemma and_then_throw {A B : Type} (o : outcome A) (k : A → outcome B)
    (e : error) :
  and_then o k = Throw e → o = Throw e ∨ ∃ a, o = Normal a ∧ k a = Throw e.
Proof. destruct o as [a|e']; cbn; [eauto|]. intros [= ->]. now left. Qed.

Lemma get_prop_throw (v : value) (p : string) (e : error) :
  get_prop v p = Throw e → e = TypeError.
Proof. destruct v; cbn; congruence. Qed.

Lemma to_number_throw (v : value) (e : error) :
  to_number v = Throw e → e = TypeError.
Proof.
  destruct (to_string_spec v) as [H1 H2].
  destruct v as [| |[]| | | |l|l]; cbn [to_number]; try congruence.
  - destruct (unprintable (VArr l));
      [rewrite (H1 eq_refl) | destruct (H2 eq_refl) as [s ->]]; congruence.
  - destruct (unprintable (VObj l));
      [rewrite (H1 eq_refl) | destruct (H2 eq_refl) as [s ->]]; congruence.
Qed.

Lemma first_prop_throw (w : value) (p : string) (e : error) :
  first_prop w p = Throw e → e = TypeError.
Proof.
  destruct w as [| | | | |[]| |]; cbn; try congruence; apply get_prop_throw.
Qed.

Lemma set_prop_throw (o : value) (p : string) (v : value) (e : error) :
  set_prop o p v = Throw e → e = TypeError.
Proof. destruct o; cbn; congruence. Qed.

Lemma math_max_throw (a b : value) (e : error) :
  math_max a b = Throw e → e = TypeError.
Proof.
  unfold math_max. intros [H|(x & _ & [H|(y & _ & H)]%and_then_throw)]%and_then_throw;
    try discriminate; now apply to_number_throw in H.
Qed.

Lemma math_min_throw (a b : value) (e : error) :
  math_min a b = Throw e → e = TypeError.
Proof.
  unfold math_min. intros [H|(x & _ & [H|(y & _ & H)]%and_then_throw)]%and_then_throw;
    try discriminate; now apply to_number_throw in H.
Qed.

Ltac crack_throw :=
  repeat match goal with
  | H : and_then _ _ = Throw _ |- _ =>
      apply and_then_throw in H as [H|(? & _ & H)]
  | H : get_prop _ _ = Throw _ |- _ => now apply get_prop_throw in H
  | H : to_number _ = Throw _ |- _ => now apply to_number_throw in H
  | H : first_prop _ _ = Throw _ |- _ => now apply first_prop_throw in H
  | H : set_prop _ _ _ = Throw _ |- _ => now apply set_prop_throw in H
  | H : math_max _ _ = Throw _ |- _ => now apply math_max_throw in H
  | H : math_min _ _ = Throw _ |- _ => now apply math_min_throw in H
  | H : Normal _ = Throw _ |- _ => discriminate H
  end.

Lemma aggregate_item_throw (date_key : number → string)
    (acc : list (string * value)) (item : value) (e : error) :
  Weather.aggregate_item date_key acc item = Throw e → e = TypeError.
Proof.
  unfold Weather.aggregate_item. intros H.
  apply and_then_throw in H as [H|(dt & _ & H)]; [crack_throw|].
  apply and_then_throw in H as [H|(n & _ & H)]; [crack_throw|].
  cbv zeta in H. destruct (assoc (date_key n) acc) as [day|];
    [destruct (negb (truthy day))|]; crack_throw.
Qed.

Lemma aggregate_item_main (date_key : number → string)
    (acc acc' : list (string * value)) (item : value) :
  Weather.aggregate_item date_key acc item = Normal acc' →
  has_main item = true.
Proof.
  unfold Weather.aggregate_item, has_main. intros H.
  apply and_then_normal in H as (dt & _ & H).
  apply and_then_normal in H as (n & _ & H). cbv zeta in H.
  assert (Hm : ∃ main x p, get_prop item "main" = Normal main ∧
                           get_prop main p = Normal x).
  { destruct (assoc (date_key n) acc) as [day|];
      [destruct (negb (truthy day))|].
    - apply and_then_normal in H as (main & Hm & H).
      apply and_then_normal in H as (y & Hy & _). eauto.
    - apply and_then_normal in H as (? & _ & H).
      apply and_then_normal in H as (main & Hm & H).
      apply and_then_normal in H as (y & Hy & _). eauto.
    - apply and_then_normal in H as (main & Hm & H).
      apply and_then_normal in H as (y & Hy & _). eauto. }
  destruct Hm as (main & x & p & -> & Hx). now destruct main.
Qed.

(** X19.  One item without a [main] object, be it missing, [undefined]
    or [null], or the item itself [undefined] or [null], anywhere in the
    list, makes [aggregateDailyForecasts] throw a TypeError: no day is
    returned, whatever the other items are. *)
Theorem aggregate_rejects_list (date_key : number → string) (l : list value)
    (item : value) :
  item ∈ l → has_main item = false →
  Weather.aggregateDailyForecasts date_key (VArr l) = Throw TypeError.
Proof.
  intros Hin Hbad. unfold Weather.aggregateDailyForecasts.
  enough (H : ∀ acc, forEach (Weather.aggregate_item date_key) l acc
                     = Throw TypeError) by now rewrite H.
  induction l as [|x l IH]; intros acc; [now apply elem_of_nil in Hin|].
  cbn. destruct (Weather.aggregate_item date_key acc x) as [acc'|e] eqn:E.
  - cbn. apply IH. apply elem_of_cons in Hin as [->|Hin]; [|done].
    apply aggregate_item_main in E. congruence.
  - cbn. now apply aggregate_item_throw in E as ->.
Qed.

Lemma aggregate_rejects_list_witness :
  Weather.aggregateDailyForecasts (fun _ => "Mon, Nov 2")
    (VArr [item_of (Reading (Int 0) (Int 50) (Int 40) "01d" "clear sky");
           VObj [("dt", VNum (Int 3600))]])
  = Throw TypeError.
Proof.
  apply (aggregate_rejects_list _ _ (VObj [("dt", VNum (Int 3600))])).
  - right. left.
  - reflexivity.
Defined.

Lemma nearest_not_nan (p q : Z) : nearest p q ≠ NaN.
Proof.
  unfold nearest. destruct (scaled p q (Z.log2 p - Z.log2 q)) as [n d].
  set (e := Z.max _ _). destruct (scaled p q e) as [n' d'].
  destruct (0 <=? e).
  - destruct (2 ^ 1024 <=? _); discriminate.
  - intros H. pose proof (norm_is_normal (round_half_even n' d' * 5 ^ (- e))
                            (Z.to_nat (- e))) as Hn.
    rewrite H in Hn. discriminate Hn.
Qed.

Lemma b64_not_nan (a : number) : a ≠ NaN → b64 a ≠ NaN.
Proof.
  destruct a as [| | |m [|d]]; cbn [b64]; try done. intros _.
  destruct (m =? 0); [discriminate|].
  destruct (m <? 0); [|apply nearest_not_nan].
  pose proof (nearest_not_nan (- m) (10 ^ Z.of_nat (S d))) as H.
  now destruct (nearest (- m) (10 ^ Z.of_nat (S d))).
Qed.

Lemma dec_lt_le_trans (a m x : number) :
  a ≠ NaN → m ≠ NaN → x ≠ NaN →
  dec_lt m a = false → dec_lt m x = true → dec_lt a x = true.
Proof.
  destruct a as [| | |m1 d1], m as [| | |m2 d2], x as [| | |m3 d3];
    cbn; try congruence.
  intros _ _ _ H1 H2. apply Z.ltb_ge in H1. apply Z.ltb_lt in H2.
  apply Z.ltb_lt.
  pose proof (Z.pow_pos_nonneg 10 (Z.of_nat d1) ltac:(lia) ltac:(lia)).
  pose proof (Z.pow_pos_nonneg 10 (Z.of_nat d2) ltac:(lia) ltac:(lia)).
  pose proof (Z.pow_pos_nonneg 10 (Z.of_nat d3) ltac:(lia) ltac:(lia)).
  set (p1 := 10 ^ Z.of_nat d1) in *. set (p2 := 10 ^ Z.of_nat d2) in *.
  set (p3 := 10 ^ Z.of_nat d3) in *.
  apply (Z.mul_lt_mono_pos_r p2); [lia|].
  apply Z.le_lt_trans with (m2 * p1 * p3); [|nia].
  replace (m1 * p3 * p2) with (m1 * p2 * p3) by ring.
  apply Z.mul_le_mono_nonneg_r; lia.
Qed.

Lemma num_lt_le_trans (a m x : number) :
  a ≠ NaN → m ≠ NaN → x ≠ NaN →
  num_lt m a = false → num_lt m x = true → num_lt a x = true.
Proof.
  intros Ha Hm Hx. unfold num_lt.
  apply dec_lt_le_trans; now apply b64_not_nan.
Qed.

Lemma num_lt_irrefl (a : number) : num_lt a a = false.
Proof.
  unfold num_lt. destruct (b64 a); cbn; try done. apply Z.ltb_irrefl.
Qed.

Lemma num_lt_asym (a x : number) : num_lt a x = true → num_lt x a = false.
Proof.
  unfold num_lt. destruct (b64 a), (b64 x); cbn; try congruence.
  intros H. apply Z.ltb_lt in H. apply Z.ltb_ge. lia.
Qed.

Lemma foldl_num_max (a : number) (l : list number) :
  a ≠ NaN → (∀ y, y ∈ l → y ≠ NaN) →
  foldl num_max a l ≠ NaN ∧ foldl num_max a l ∈ a :: l ∧
  ∀ y, y ∈ a :: l → num_lt (foldl num_max a l) y = false.
Proof.
  revert a. induction l as [|x l IH]; intros a Ha Hl; cbn.
  - split; [done|]. split; [left|]. intros y Hy.
    apply list_elem_of_singleton in Hy as ->. apply num_lt_irrefl.
  - assert (Hx : x ≠ NaN) by (apply Hl; left).
    assert (Hmax : num_max a x = if num_lt a x then x else a)
      by (destruct a, x; done).
    assert (Hne : num_max a x ≠ NaN)
      by (rewrite Hmax; now destruct (num_lt a x)).
    destruct (IH (num_max a x) Hne) as (Hm & Hin & Hub).
    { intros y Hy. apply Hl. now right. }
    set (m := foldl num_max (num_max a x) l) in *.
    split; [done|]. split.
    + apply elem_of_cons in Hin as [E|Hin]; [|right; now right].
      rewrite E, Hmax. destruct (num_lt a x); [right; left|left].
    + intros y Hy.
      assert (Hma : num_lt m (num_max a x) = false) by (apply Hub; left).
      rewrite Hmax in Hma.
      apply elem_of_cons in Hy as [->|Hy];
        [|apply elem_of_cons in Hy as [->|Hy]; [|apply Hub; now right]].
      * destruct (num_lt a x) eqn:E; [|done].
        destruct (num_lt m a) eqn:E'; [|done].
        pose proof (num_lt_le_trans x m a Hx Hm Ha Hma E') as H.
        apply num_lt_asym in E. congruence.
      * destruct (num_lt a x) eqn:E; [done|].
        destruct (num_lt m x) eqn:E'; [|done].
        pose proof (num_lt_le_trans a m x Ha Hm Hx Hma E'). congruence.
Qed.

Lemma foldl_num_min (a : number) (l : list number) :
  a ≠ NaN → (∀ y, y ∈ l → y ≠ NaN) →
  foldl num_min a l ≠ NaN ∧ foldl num_min a l ∈ a :: l ∧
  ∀ y, y ∈ a :: l → num_lt y (foldl num_min a l) = false.
Proof.
  revert a. induction l as [|x l IH]; intros a Ha Hl; cbn.
  - split; [done|]. split; [left|]. intros y Hy.
    apply list_elem_of_singleton in Hy as ->. apply num_lt_irrefl.
  - assert (Hx : x ≠ NaN) by (apply Hl; left).
    assert (Hmin : num_min a x = if num_lt x a then x else a)
      by (destruct a, x; done).
    assert (Hne : num_min a x ≠ NaN)
      by (rewrite Hmin; now destruct (num_lt x a)).
    destruct (IH (num_min a x) Hne) as (Hm & Hin & Hlb).
    { intros y Hy. apply Hl. now right. }
    set (m := foldl num_min (num_min a x) l) in *.
    split; [done|]. split.
    + apply elem_of_cons in Hin as [E|Hin]; [|right; now right].
      rewrite E, Hmin. destruct (num_lt x a); [right; left|left].
    + intros y Hy.
      assert (Hma : num_lt (num_min a x) m = false) by (apply Hlb; left).
      rewrite Hmin in Hma.
      apply elem_of_cons in Hy as [->|Hy];
        [|apply elem_of_cons in Hy as [->|Hy]; [|apply Hlb; now right]].
      * destruct (num_lt x a) eqn:E; [|done].
        destruct (num_lt a m) eqn:E'; [|done].
        apply num_lt_asym in E.
        pose proof (num_lt_le_trans x a m Hx Ha Hm E E'). congruence.
      * destruct (num_lt x a) eqn:E; [done|].
        destruct (num_lt x m) eqn:E'; [|done].
        pose proof (num_lt_le_trans a x m Ha Hx Hm E E'). congruence.
Qed.

(** X20.  When no temperature of the list is [NaN], the entry of the
    day of every reading has a [temp_max] that is not below the
    [temp_max] of the reading and a [temp_min] that is not above its
    [temp_min], and both are temperatures of readings of that day. *)
Theorem daily_extremes (date_key : number → string) (rs : list reading)
    (l : list (string * value)) (r : reading) :
  Weather.aggregateDailyForecasts date_key (VArr (item_of <$> rs))
  = Normal (VObj l) →
  (∀ x, x ∈ rs → temp_max x ≠ NaN ∧ temp_min x ≠ NaN) →
  r ∈ rs →
  ∃ high low first,
    assoc (date_key (dt r)) l
    = Some (VObj [("temp_max", VNum high); ("temp_min", VNum low);
                  ("icon", VStr (icon first));
                  ("description", VStr (description first))]) ∧
    num_lt high (temp_max r) = false ∧
    num_lt (temp_min r) low = false ∧
    (∃ x, x ∈ rs ∧ date_key (dt x) = date_key (dt r) ∧ temp_max x = high) ∧
    (∃ x, x ∈ rs ∧ date_key (dt x) = date_key (dt r) ∧ temp_min x = low).
Proof.
  intros E Hnan Hr.
  destruct (forEach_readings date_key rs [] []) as (l' & E' & _ & Ha).
  { split; [done|]. intros k. reflexivity. }
  unfold Weather.aggregateDailyForecasts in E. rewrite E' in E. cbn in E.
  injection E as <-. cbn [app] in Ha. set (k := date_key (dt r)).
  specialize (Ha k).
  assert (Hg : ∀ x, x ∈ readings_of date_key k rs ↔
                    x ∈ rs ∧ date_key (dt x) = k).
  { intros x. unfold readings_of. rewrite list_elem_of_filter. tauto. }
  assert (Hrk : r ∈ readings_of date_key k rs) by now apply Hg.
  destruct (readings_of date_key k rs) as [|r0 rest]; [now apply elem_of_nil in Hrk|].
  assert (Hmaxs : ∀ y, y ∈ temp_max <$> rest → y ≠ NaN).
  { intros y (x & -> & Hx)%list_elem_of_fmap. apply Hnan, Hg. now right. }
  assert (Hmins : ∀ y, y ∈ temp_min <$> rest → y ≠ NaN).
  { intros y (x & -> & Hx)%list_elem_of_fmap. apply Hnan, Hg. now right. }
  assert (H0 : temp_max r0 ≠ NaN ∧ temp_min r0 ≠ NaN) by (apply Hnan, Hg; left).
  destruct (foldl_num_max (temp_max r0) (temp_max <$> rest))
    as (_ & Hin & Hub); [tauto|done|].
  destruct (foldl_num_min (temp_min r0) (temp_min <$> rest))
    as (_ & Hin' & Hlb); [tauto|done|].
  rewrite <- fmap_cons in Hin, Hin', Hub, Hlb.
  exists (foldl num_max (temp_max r0) (temp_max <$> rest)),
         (foldl num_min (temp_min r0) (temp_min <$> rest)), r0.
  split; [exact Ha|]. split; [|split; [|split]].
  - apply Hub. now apply list_elem_of_fmap_2.
  - apply Hlb. now apply list_elem_of_fmap_2.
  - apply list_elem_of_fmap in Hin as (x & Ex & Hx). exists x.
    apply Hg in Hx as [? ?]. now rewrite Ex.
  - apply list_elem_of_fmap in Hin' as (x & Ex & Hx). exists x.
    apply Hg in Hx as [? ?]. now rewrite Ex.
Qed.

Lemma daily_extremes_witness :
  ∃ high low first,
    assoc "Thu, Jan 1"
      [("Thu, Jan 1",
        VObj [("temp_max", VNum (Dec 525 1)); ("temp_min", VNum (Int 40));
              ("icon", VStr "01d"); ("description", VStr "clear sky")]);
       ("Fri, Jan 2",
        VObj [("temp_max", VNum (Int 61)); ("temp_min", VNum (Int 39));
              ("icon", VStr "10d"); ("description", VStr "light rain")])]
    = Some (VObj [("temp_max", VNum high); ("temp_min", VNum low);
                  ("icon", VStr (icon first));
                  ("description", VStr (description first))]) ∧
    num_lt high (Int 50) = false.
Proof.
  destruct (daily_extremes utc_day hourly _
              (Reading (Int 0) (Int 50) (Int 40) "01d" "clear sky")
              eq_refl)
    as (high & low & first & H1 & H2 & _).
  - intros x Hx. unfold hourly in Hx.
    rewrite ?elem_of_cons, elem_of_nil in Hx.
    destruct Hx as [->|[->|[->|[]]]]; cbn; split; discriminate.
  - left.
  - exists high, low, first. split; [exact H1|exact H2].
Defined.
